(** * LTN core: groundings, the cross-product engine and the predicate wrapper

    A shallow embedding of [ltn/core.py].  Tensors are arrays in row-major
    order; a Python tensor object is a tensor value together with the
    dynamically attached attribute [active_doms]; objects live in a store,
    and every torch operation allocates a new object, as in PyTorch.  The
    engine only moves entries around, so the entry type [V] is a parameter. *)

From stdpp Require Import base list strings.
From Stdlib Require Import ZArith.

(** ** Python exceptions and results *)

(** [SystemError] stands for a reference that points outside the store; no
    Python program produces one. *)
Inductive exn : Set :=
  | AttributeError | IndexError | KeyError | NameError
  | RuntimeError | SystemError | TypeError | ValueError.

Inductive result (A : Type) : Type :=
  | Raise (e : exn)
  | Return (a : A).
Arguments Raise {A} e.
Arguments Return {A} a.

Definition returns {A} (r : result A) : Prop := ∃ a, r = Return a.

Definition rbind {A B} (r : result A) (k : A → result B) : result B :=
  match r with
  | Raise e => Raise e
  | Return a => k a
  end.

(** ** Tensor values and the torch operations the core uses *)

Module torch.
Section tensors.
Context {V : Type} `{!Inhabited V}.

Record Tensor : Type := mk { shape : list nat; data : list V }.

(** Number of entries of a tensor of shape [s]. *)
Definition numel (s : list nat) : nat := foldr Nat.mul 1 s.

(** Row-major offset of the multi-index [idx] in shape [s]. *)
Fixpoint ravel (s idx : list nat) : nat :=
  match s, idx with
  | _ :: s', i :: idx' => i * numel s' + ravel s' idx'
  | _, _ => 0
  end.

(** All multi-indices of shape [s], in row-major order. *)
Fixpoint indices (s : list nat) : list (list nat) :=
  match s with
  | [] => [[]]
  | n :: s' => i ← seq 0 n; (i ::.) <$> indices s'
  end.

Definition item (t : Tensor) (idx : list nat) : V :=
  data t !!! ravel (shape t) idx.

Definition tabulate (s : list nat) (f : list nat → V) : Tensor :=
  mk s (f <$> indices s).

(** [len(data) == prod(shape)]: holds of every tensor torch builds. *)
Definition well_formed (t : Tensor) : Prop :=
  length (data t) = numel (shape t).

(** [t.size(dim)] *)
Definition size (t : Tensor) (dim : nat) : result nat :=
  match shape t !! dim with
  | Some n => Return n
  | None => Raise IndexError
  end.

(** [torch.unsqueeze(t, dim)] for [dim >= 0] *)
Definition unsqueeze (t : Tensor) (dim : nat) : result Tensor :=
  if decide (dim ≤ length (shape t))
  then Return (mk (take dim (shape t) ++ 1 :: drop dim (shape t)) (data t))
  else Raise IndexError.

(** [torch.repeat_interleave(t, repeats, dim)] with an integer [repeats]:
    entry [k] along [dim] of the result is entry [k / repeats] of [t]. *)
Definition repeat_interleave (t : Tensor) (repeats dim : nat) : result Tensor :=
  match shape t !! dim with
  | Some n =>
      Return (tabulate (<[dim := n * repeats]> (shape t))
                (λ idx, item t (alter (λ k, k / repeats) dim idx)))
  | None => Raise IndexError
  end.

(** [perm] names every axis of a rank-[r] tensor exactly once. *)
Definition is_perm (perm : list nat) (r : nat) : Prop :=
  length perm = r ∧ Forall (λ p, p < r) perm ∧ NoDup perm.

Global Instance is_perm_dec perm r : Decision (is_perm perm r) :=
  ltac:(unfold is_perm; apply _).

(** Position of [x] in [l] ([length l] when absent). *)
Definition position (l : list nat) (x : nat) : nat :=
  default (length l) (fst <$> list_find (x =.) l).

(** [t.permute(perm)]: axis [a] of the result is axis [perm[a]] of [t]. *)
Definition permute (t : Tensor) (perm : list nat) : result Tensor :=
  if decide (is_perm perm (length (shape t)))
  then Return (tabulate ((λ p, shape t !!! p) <$> perm)
                 (λ idx, item t ((λ a, idx !!! position perm a)
                                   <$> seq 0 (length perm))))
  else Raise RuntimeError.

(** Shape inference of [reshape] and [view]: at most one entry [-1], which
    stands for the size that makes the number of entries agree. *)
Definition infer_size (shp : list Z) (n : nat) : result (list nat) :=
  let newsize := numel (Z.to_nat <$> filter (λ d, 0 ≤ d)%Z shp) in
  if decide (Exists (λ d, d < -1)%Z shp) then Raise RuntimeError
  else match length (filter (λ d, d = -1)%Z shp) with
       | 0 => if decide (n = newsize)
              then Return (Z.to_nat <$> shp) else Raise RuntimeError
       | 1 => if decide (0 < newsize ∧ n `mod` newsize = 0)
              then Return ((λ d, if decide (d = -1)%Z then n / newsize
                                 else Z.to_nat d) <$> shp)
              else Raise RuntimeError
       | _ => Raise RuntimeError
       end.

(** [torch.reshape(t, shp)]; [t.view] infers its shape the same way. *)
Definition reshape (t : Tensor) (shp : list Z) : result Tensor :=
  rbind (infer_size shp (length (data t))) (λ s, Return (mk s (data t))).

(** [t[i]] for [i >= 0] *)
Definition getitem (t : Tensor) (i : nat) : result Tensor :=
  match shape t with
  | [] => Raise IndexError
  | n :: s =>
      if decide (i < n)
      then Return (mk s (take (numel s) (drop (i * numel s) (data t))))
      else Raise IndexError
  end.

(** [torch.tensor(seq)] for a sequence of equally shaped individuals. *)
Definition tensor (individuals : list Tensor) : result Tensor :=
  match individuals with
  | [] => Return (mk [0] [])
  | t :: _ =>
      if decide (Forall (λ u, shape u = shape t) individuals)
      then Return (mk (length individuals :: shape t)
                     (mjoin (data <$> individuals)))
      else Raise ValueError
  end.
End tensors.
Global Arguments Tensor : clear implicits.
End torch.

(** ** Python containers *)

(** A [dict] from labels to counts keeps its keys in insertion order;
    assigning to a key that is present keeps the key's place. *)
Definition dict : Type := list (string * nat).

Fixpoint dict_setitem (d : dict) (k : string) (v : nat) : dict :=
  match d with
  | [] => [(k, v)]
  | (k', v') :: d' =>
      if decide (k' = k) then (k', v) :: d' else (k', v') :: dict_setitem d' k v
  end.

Fixpoint dict_getitem (d : dict) (k : string) : result nat :=
  match d with
  | [] => Raise KeyError
  | (k', v') :: d' => if decide (k' = k) then Return v' else dict_getitem d' k
  end.

Definition keys (d : dict) : list string := fst <$> d.
Definition values (d : dict) : list nat := snd <$> d.

(** [l.index(x)] *)
Definition index (l : list string) (x : string) : result nat :=
  match list_find (x =.) l with
  | Some (i, _) => Return i
  | None => Raise ValueError
  end.

(** [[f(x) for x in l]] *)
Fixpoint comprehension {A B} (f : A → result B) (l : list A) : result (list B) :=
  match l with
  | [] => Return []
  | x :: l' => rbind (f x) (λ y, rbind (comprehension f l') (λ ys, Return (y :: ys)))
  end.

(** Iterating over a [set] of strings visits every element once, in an order
    that depends on the hash seed of the process: any order is possible. *)
Record SetOrder : Type := {
  set_iter : list string → list string;
  set_iter_perm : ∀ l, set_iter l ≡ₚ l
}.

(** The order in which the elements were inserted is one of them. *)
Definition insertion_order : SetOrder :=
  {| set_iter := id; set_iter_perm := λ l, reflexivity l |}.

(** [list(set(a).difference(b))] *)
Definition set_difference (o : SetOrder) (a b : list string) : list string :=
  set_iter o (list_difference (remove_dups a) b).

(** ** Python values and [Domain] *)

(** The kinds of Python values the model covers for [shape] and
    [domain_name]: [None], booleans, integers, strings, tuples and lists,
    nested.  Floats, bytes, ranges, dicts, sets and arrays are left out: a
    statement over [pyval] speaks of these six kinds. *)
#[warnings="-register-all"]
Inductive pyval : Type :=
  | py_none
  | py_bool (b : bool)
  | py_int (z : Z)
  | py_str (s : string)
  | py_tuple (l : list pyval)
  | py_list (l : list pyval).

(** [isinstance(v, int)]; [bool] is a subclass of [int]. *)
Definition isinstance_int (v : pyval) : bool :=
  match v with
  | py_int _ | py_bool _ => true
  | _ => false
  end.

(** [isinstance(v, tuple)] *)
Definition isinstance_tuple (v : pyval) : bool :=
  match v with
  | py_tuple _ => true
  | _ => false
  end.

Fixpoint chars (s : string) : list pyval :=
  match s with
  | EmptyString => []
  | String c s' => py_str (String c EmptyString) :: chars s'
  end.

(** [iter(v)]: the elements a [for] visits. *)
Definition iter (v : pyval) : result (list pyval) :=
  match v with
  | py_tuple l | py_list l => Return l
  | py_str s => Return (chars s)
  | py_none | py_bool _ | py_int _ => Raise TypeError
  end.

Record Domain : Type := { shape : pyval; domain_name : pyval }.

(** [Domain.__init__]: [not isinstance(shape, tuple) and all(...)]; the
    [and] evaluates [all(...)] only when its left operand is true. *)
Definition Domain_init (shape domain_name : pyval) : result Domain :=
  rbind (if negb (isinstance_tuple shape)
         then rbind (iter shape) (λ vs, Return (forallb isinstance_int vs))
         else Return false) (λ invalid,
  if invalid then Raise ValueError
  else Return {| shape := shape; domain_name := domain_name |}).

(** [Domain.__repr__]; [str] is Python's [str] on shapes.  A string can
    only be concatenated with a string. *)
Definition Domain_repr (str : pyval → string) (self : Domain) : result string :=
  match domain_name self with
  | py_str name =>
      Return ("Domain(domain_name='" +:+ name +:+ "', grounding=R^"
                +:+ str (shape self) +:+ ")")
  | py_none | py_bool _ | py_int _ | py_tuple _ | py_list _ => Raise TypeError
  end.

(** [torch.Size(s) == v]: a [torch.Size] is a tuple of integers, and tuples
    are compared entry by entry. *)
Definition int_eqb (n : nat) (v : pyval) : bool :=
  match v with
  | py_int z => bool_decide (z = Z.of_nat n)
  | py_bool b => bool_decide ((if b then 1 else 0) = n)
  | _ => false
  end.

Fixpoint tuple_eqb (s : list nat) (l : list pyval) : bool :=
  match s, l with
  | [], [] => true
  | n :: s', v :: l' => int_eqb n v && tuple_eqb s' l'
  | _, _ => false
  end.

Definition size_eqb (s : list nat) (v : pyval) : bool :=
  match v with
  | py_tuple l => tuple_eqb s l
  | _ => false
  end.

(** ** Tensor objects and the store *)

Section ltn.
Context {V : Type} `{!Inhabited V}.

(** A tensor object: its value and, when it was attached, the attribute
    [active_doms]. *)
Record Object : Type := {
  value : torch.Tensor V;
  active_doms : option (list string)
}.

(** What a predicate receives: one grounding, or a list or a tuple of
    groundings (references into the store). *)
Inductive inputs : Type :=
  | OneTensor (g : nat)
  | ListOf (gs : list nat)
  | TupleOf (gs : list nat).

(** The store of tensor objects, and the trace of the arguments the
    wrapped model was invoked with. *)
Record State : Type := { heap : list Object; calls : list inputs }.

Definition M (A : Type) : Type := State → result A * State.

Definition ret {A} (a : A) : M A := λ s, (Return a, s).
Definition raise {A} (e : exn) : M A := λ s, (Raise e, s).
Definition bind {A B} (m : M A) (k : A → M B) : M B :=
  λ s, match m s with
       | (Return a, s') => k a s'
       | (Raise e, s') => (Raise e, s')
       end.
Definition lift {A} (r : result A) : M A := λ s, (r, s).

Local Notation "x ← m ; k" := (bind m (λ x, k))
  (at level 20, m at level 100, k at level 200, only parsing).
Local Notation "' x ← m ; k" := (bind m (λ x, k))
  (at level 20, x pattern, m at level 100, k at level 200, only parsing).
Local Notation "m ;; k" := (bind m (λ _, k))
  (at level 100, k at level 200, only parsing, right associativity).

(** [for x in l: acc = body(acc, x)] *)
Fixpoint for_each {A S} (l : list A) (body : S → A → M S) (acc : S) : M S :=
  match l with
  | [] => ret acc
  | x :: l' => acc' ← body acc x; for_each l' body acc'
  end.

Definition deref (r : nat) : M Object :=
  λ s, match heap s !! r with
       | Some o => (Return o, s)
       | None => (Raise SystemError, s)
       end.

(** A new object carries no attribute. *)
Definition alloc (t : torch.Tensor V) : M nat :=
  λ s, (Return (length (heap s)),
        {| heap := heap s ++ [{| value := t; active_doms := None |}];
           calls := calls s |}).

(** [g.active_doms] *)
Definition getattr_active_doms (g : nat) : M (list string) :=
  o ← deref g;
  match active_doms o with
  | Some doms => ret doms
  | None => raise AttributeError
  end.

(** [g.active_doms = doms] *)
Definition setattr_active_doms (g : nat) (doms : list string) : M unit :=
  o ← deref g;
  λ s, (Return (),
        {| heap := <[g := {| value := value o; active_doms := Some doms |}]> (heap s);
           calls := calls s |}).

(** [g.shape] *)
Definition getattr_shape (g : nat) : M (list nat) :=
  o ← deref g; ret (torch.shape (value o)).

(** A torch operation reads its argument and returns a new object. *)
Definition torch_op (f : torch.Tensor V → result (torch.Tensor V)) (g : nat) : M nat :=
  o ← deref g; t ← lift (f (value o)); alloc t.

(** ** [get_dim0_of_dom] *)
Definition get_dim0_of_dom (grounding : nat) (dom : string) : M nat :=
  doms ← getattr_active_doms grounding;
  i ← lift (index doms dom);
  o ← deref grounding;
  lift (torch.size (value o) i).

(** ** [cross_grounding_values] *)

(** Lines 154-157: the dictionary from labels to counts. *)
Definition scan_doms (groundings : list nat) : M dict :=
  for_each groundings (λ doms_to_dim0 grounding,
    doms ← getattr_active_doms grounding;
    for_each doms (λ doms_to_dim0 dom,
      n ← get_dim0_of_dom grounding dom;
      ret (dict_setitem doms_to_dim0 dom n)) doms_to_dim0) [].

(** Lines 165-168: the body of the loop over the missing domains. *)
Definition add_domain (doms_to_dim0 : dict)
    '((grounding, doms_in_grounding) : nat * list string) (new_dom : string)
    : M (nat * list string) :=
  let new_idx := length doms_in_grounding in
  grounding ← torch_op (λ t, torch.unsqueeze t new_idx) grounding;
  repeats ← lift (dict_getitem doms_to_dim0 new_dom);
  grounding ← torch_op (λ t, torch.repeat_interleave t repeats new_idx) grounding;
  ret (grounding, doms_in_grounding ++ [new_dom]).

(** Lines 162-175: the body of the second loop, for one grounding. *)
Definition cross_one (o : SetOrder) (doms_to_dim0 : dict) (doms : list string)
    (flatten_dim0 : bool) (grounding : nat) : M nat :=
  doms_in_grounding ← getattr_active_doms grounding;
  let doms_not_in_grounding := set_difference o doms doms_in_grounding in
  '(grounding, doms_in_grounding) ←
    for_each doms_not_in_grounding (add_domain doms_to_dim0)
      (grounding, doms_in_grounding);
  idxs ← lift (comprehension (index doms_in_grounding) doms);
  shp ← getattr_shape grounding;
  let perm := idxs ++ seq (length doms_in_grounding)
                        (length shp - length doms_in_grounding) in
  grounding ← torch_op (λ t, torch.permute t perm) grounding;
  setattr_active_doms grounding doms;;
  if flatten_dim0 then
    shp ← getattr_shape grounding;
    let shape_list := (-1)%Z :: (Z.of_nat <$> drop (length doms_in_grounding) shp) in
    torch_op (λ t, torch.reshape t shape_list) grounding
  else ret grounding.

Definition cross_grounding_values (o : SetOrder) (groundings : list nat)
    (flatten_dim0 : bool) : M (list nat * list string * list nat) :=
  doms_to_dim0 ← scan_doms groundings;
  let doms := keys doms_to_dim0 in
  let dims0 := values doms_to_dim0 in
  crossed_groundings ←
    for_each groundings (λ crossed_groundings grounding,
      grounding ← cross_one o doms_to_dim0 doms flatten_dim0 grounding;
      ret (crossed_groundings ++ [grounding])) [];
  ret (crossed_groundings, doms, dims0).

(** ** [Predicate.forward] *)

(** [self.model(inputs)]: the invocation is recorded in the trace. *)
Definition call_model (model : inputs → M nat) (arg : inputs) : M nat :=
  λ s, model arg {| heap := heap s; calls := calls s ++ [arg] |}.

(** [inputs.shape]: a tensor has a shape, a Python list has no such
    attribute. *)
Definition inputs_shape (i : inputs) : M (list nat) :=
  match i with
  | OneTensor g => getattr_shape g
  | ListOf _ | TupleOf _ => raise AttributeError
  end.

(** [l[i]] *)
Definition list_getitem (l : list nat) (i : nat) : result nat :=
  match l !! i with
  | Some x => Return x
  | None => Raise IndexError
  end.

(** The three [print] calls write to standard output, which the model
    leaves out; their arguments are evaluated all the same. *)
Definition forward (o : SetOrder) (model : inputs → M nat) (inputs0 : inputs) : M nat :=
  '(inputs1, doms, dims_0) ←
    match inputs0 with
    | OneTensor g =>
        '(crossed, doms, dims_0) ← cross_grounding_values o [g] true;
        g ← lift (list_getitem crossed 0);
        ret (OneTensor g, doms, dims_0)
    | ListOf gs | TupleOf gs =>
        '(crossed, doms, dims_0) ← cross_grounding_values o gs true;
        ret (ListOf crossed, doms, dims_0)
    end;
  inputs_shape inputs1;;
  outputs ← call_model model inputs1;
  outputs ←
    match dims_0 with
    | [] => ret outputs
    | _ :: _ => torch_op (λ t, torch.reshape t (Z.of_nat <$> dims_0)) outputs
    end;
  setattr_active_doms outputs doms;;
  ret outputs.

(** ** [Variable] *)

(** [individuals_seq] is a float tensor, used as it is, or a sequence of
    individuals that [torch.tensor] stacks. *)
Inductive individuals : Type :=
  | FloatTensor (t : torch.Tensor V)
  | Sequence (l : list (torch.Tensor V)).

Record ltn_Variable : Type := {
  grounding : torch.Tensor V;
  domain : Domain;
  variable_name : string;
  free_variables : list string
}.

Definition Variable_init (variable_name : string) (domain : Domain)
    (individuals_seq : individuals) : result ltn_Variable :=
  rbind (match individuals_seq with
         | FloatTensor t => Return t
         | Sequence l => torch.tensor l
         end) (λ grounding,
  rbind (torch.getitem grounding 0) (λ first,
  if negb (size_eqb (torch.shape first) (shape domain)) then Raise ValueError else
  rbind (if decide (length (torch.shape grounding) = 1)
         then torch.reshape grounding [1%Z; Z.of_nat (torch.shape grounding !!! 0)]
         else Return grounding) (λ grounding,
  if String.prefix "diag" variable_name then Raise ValueError else
  Return {| grounding := grounding; domain := domain;
            variable_name := variable_name;
            free_variables := [variable_name] |}))).
End ltn.

(** ** [Constant] *)

(** The attributes of a constant have the names of those of a variable,
    hence the module. *)
Module Constant.
Section constant.
Context {P V : Type}.

Record t : Type := {
  constant_name : string;
  grounding : torch.Tensor V;
  domain : Domain;
  free_variables : list string
}.

(** [torch.tensor(value, requires_grad=...)] for the array [value]
    denotes, its entries of type [P]: torch infers a dtype from the entries
    and converts every entry to it, which is what [cast] does (a Python
    float becomes the nearest 32-bit float); the result is a new tensor of
    the same shape.  Only a floating-point or a complex dtype can require
    gradients: [differentiable] tells whether the inferred dtype is one. *)
Definition tensor (cast : P → V) (differentiable : bool) (value : torch.Tensor P)
    (requires_grad : bool) : result (torch.Tensor V) :=
  if requires_grad && negb differentiable then Raise RuntimeError
  else Return (torch.mk (torch.shape value) (cast <$> torch.data value)).

(** [Constant.__init__] *)
Definition init (cast : P → V) (differentiable : bool) (constant_name : string)
    (domain : Domain) (value : torch.Tensor P) (trainable : bool) : result t :=
  rbind (tensor cast differentiable value trainable) (λ value,
  if negb (size_eqb (torch.shape value) (shape domain)) then Raise ValueError else
  Return {| constant_name := constant_name; grounding := value;
            domain := domain; free_variables := [] |}).
End constant.
Global Arguments t : clear implicits.
End Constant.

(** ** [Predicate.Lambda] and [Predicate.MLP] *)

(** What the names bound at the top level of [ltn/core.py] are bound to. *)
Inductive binding : Set := ImportedModule | Class | Function.

Definition module_globals : list (string * binding) :=
  [("torch", ImportedModule); ("nn", ImportedModule);
   ("Domain", Class); ("Constant", Class); ("Variable", Class);
   ("get_dim0_of_dom", Function); ("cross_grounding_values", Function);
   ("Predicate", Class)].

(** Evaluating a global name that is not a builtin, in a module whose
    top-level bindings are [globals]. *)
Definition load_global (globals : list (string * binding)) (name : string)
    : result binding :=
  match list_find (λ b, b.1 = name) globals with
  | Some (_, (_, b)) => Return b
  | None => Raise NameError
  end.

Inductive Layer : Set :=
  | Linear (in_features out_features : nat)
  | ELU
  | Sigmoid.

(** A wrapped model: an [nn.Sequential] of layers, or a module [C] built
    by some other constructor. *)
Inductive nn_Module (C : Type) : Type :=
  | Sequential (layers : list Layer)
  | Custom (c : C).
Arguments Sequential {C} layers.
Arguments Custom {C} c.

Record Predicate (C : Type) : Type := { model : nn_Module C }.
Arguments model {C} p.

(** The body of [Lambda], in a module with the bindings [globals]: the
    name [LambdaModel] is looked up and what it is bound to is called on the
    operator; [call] is what calling a binding does. *)
Definition Lambda_body {C F} (globals : list (string * binding))
    (call : binding → F → result C) (lambda_operator : F) : result (Predicate C) :=
  rbind (load_global globals "LambdaModel") (λ LambdaModel,
  rbind (call LambdaModel lambda_operator) (λ m,
  Return {| model := Custom m |})).

(** [Predicate.Lambda], in [ltn/core.py]. *)
Definition Lambda {C F} (call : binding → F → result C) (lambda_operator : F)
    : result (Predicate C) :=
  Lambda_body module_globals call lambda_operator.

Definition MLP {C} (layer_dims : list nat) : Predicate C :=
  let layers :=
    foldl (λ layers i,
             let layers := layers ++ [Linear (layer_dims !!! (i - 1)) (layer_dims !!! i)] in
             if decide (i ≠ length layer_dims - 1)
             then layers ++ [ELU] else layers ++ [Sigmoid])
          [] (seq 1 (length layer_dims - 1)) in
  {| model := Sequential layers |}.

(** * The batches of [test_bin_class.py] *)

(** [range(start, stop, step)]: a zero step is refused; otherwise the
    length is the one CPython computes, and the items step from [start]. *)
Definition range (start stop step : Z) : result (list Z) :=
  if decide (step = 0)%Z then Raise ValueError
  else
    let len :=
      if decide (0 < step)%Z
      then (if decide (start < stop)%Z then (stop - start - 1) / step + 1 else 0)%Z
      else (if decide (stop < start)%Z then (start - stop - 1) / (- step) + 1 else 0)%Z in
    Return ((λ i, (start + Z.of_nat i * step)%Z) <$> seq 0 (Z.to_nat len)).

(** [l[a:b]] for [0 <= a] and [0 <= b]: the bounds are clamped. *)
Definition slice {A} (l : list A) (a b : Z) : list A :=
  take (Z.to_nat b - Z.to_nat a) (drop (Z.to_nat a) l).

(** [a[idx]] for an array [a] and a list [idx] of indices that are not
    negative: the rows at these indices, [IndexError] out of bounds. *)
Definition rows_at {A} (a : list A) (idx : list nat) : result (list A) :=
  comprehension (λ i, match a !! i with
                      | Some r => Return r
                      | None => Raise IndexError
                      end) idx.

(** [np.random.shuffle]: any rearrangement may come out. *)
Record Shuffle : Type := {
  shuffled : list nat → list nat;
  shuffled_perm : ∀ l, shuffled l ≡ₚ l
}.

(** A generator whose body runs once per element of [l]: what it yields
    and, when an exception ends it, the exception. *)
Fixpoint generate {A B} (body : A → result B) (l : list A) : list B * option exn :=
  match l with
  | [] => ([], None)
  | x :: l' =>
      match body x with
      | Raise e => ([], Some e)
      | Return y => let '(ys, e) := generate body l' in (y :: ys, e)
      end
  end.

Module DataLoader.
Section loader.
Context {A B : Type}.

(** The arrays [data] and [labels] are the lists of their rows. *)
Record t : Type := {
  data : list A;
  labels : list B;
  batch_size : Z;
  shuffle : bool
}.

(** [DataLoader.__iter__] *)
Definition iter (rng : Shuffle) (self : t) : list (list A * list B) * option exn :=
  let n := length (data self) in
  let idxlist := seq 0 n in
  let idxlist := if shuffle self then shuffled rng idxlist else idxlist in
  match range 0 (Z.of_nat n) (batch_size self) with
  | Raise e => ([], Some e)
  | Return starts =>
      generate (λ start_idx,
          let end_idx := Z.min (start_idx + batch_size self) (Z.of_nat n) in
          rbind (rows_at (data self) (slice idxlist start_idx end_idx)) (λ data,
          rbind (rows_at (labels self) (slice idxlist start_idx end_idx)) (λ labels,
          Return (data, labels)))) starts
  end.
End loader.
Global Arguments t : clear implicits.
End DataLoader.

(** * Vocabulary of the properties *)

(** ** Indices, stores and what a computation leaves alone *)

Section vocabulary.
Context {V : Type} `{!Inhabited V}.

(** [idx] is a multi-index of shape [s]. *)
Definition in_range (idx s : list nat) : Prop := Forall2 lt idx s.

(** The first [n] objects of the store and the trace are the same in [s']
  as in [s], and no object has disappeared. *)
Definition preserves (n : nat) (s s' : State (V:=V)) : Prop :=
take n (heap s') = take n (heap s) ∧
length (heap s) ≤ length (heap s') ∧
calls s' = calls s.

(** [m] leaves the first [n] objects alone, whatever it returns or raises. *)
Definition frames {A} (n : nat) (m : M (V:=V) A) : Prop :=
∀ s, n ≤ length (heap s) → preserves n s (m s).2.

(** The reference [m] returns was allocated by [m]. *)
Definition fresh (m : M (V:=V) nat) : Prop :=
∀ s g, (m s).1 = Return g →
  length (heap s) ≤ g < length (heap (m s).2).

(** The object [m] returns satisfies [P] in the final store. *)
Definition ends_with (m : M (V:=V) nat) (P : Object (V:=V) → Prop) : Prop :=
∀ s g, (m s).1 = Return g → ∃ ob, heap (m s).2 !! g = Some ob ∧ P ob.

(** The second loop: the references collected so far are new, and their
  objects satisfy [P]. *)
Definition collected (s0 s : State (V:=V)) (P : Object (V:=V) → Prop)
  (l : list nat) : Prop :=
Forall (λ g, length (heap s0) ≤ g ∧ ∃ ob, heap s !! g = Some ob ∧ P ob) l.

(** The state [alloc] leaves behind. *)
Definition pushed (s : State (V:=V)) (t : torch.Tensor V) : State (V:=V) :=
{| heap := heap s ++ [{| value := t; active_doms := None |}]; calls := calls s |}.

(** ** The engine on tensor values *)

(** What the two loops compute, read off the store: the functions below
  follow [get_dim0_of_dom], [scan_doms], [add_domain] and [cross_one]
  operation by operation, on values instead of references; the lemmas
  [scan_doms_run] and [cross_one_run] relate them to the code. *)
Definition dim0_value (h : list (Object (V:=V))) (g : nat) (dom : string) : result nat :=
match h !! g with
| None => Raise SystemError
| Some ob =>
    match active_doms ob with
    | None => Raise AttributeError
    | Some doms => rbind (index doms dom) (λ i, torch.size (value ob) i)
    end
end.

Fixpoint scan_inner (h : list (Object (V:=V))) (g : nat) (doms : list string)
  (d : dict) : result dict :=
match doms with
| [] => Return d
| dom :: doms' =>
    rbind (dim0_value h g dom) (λ k, scan_inner h g doms' (dict_setitem d dom k))
end.

Fixpoint scan_value (h : list (Object (V:=V))) (gs : list nat) (d : dict)
  : result dict :=
match gs with
| [] => Return d
| g :: gs' =>
    match h !! g with
    | None => Raise SystemError
    | Some ob =>
        match active_doms ob with
        | None => Raise AttributeError
        | Some doms => rbind (scan_inner h g doms d) (scan_value h gs')
        end
    end
end.

Fixpoint expand (d : dict) (missing : list string) (t : torch.Tensor V)
  (doms_in : list string) : result (torch.Tensor V * list string) :=
match missing with
| [] => Return (t, doms_in)
| new_dom :: missing' =>
    rbind (torch.unsqueeze t (length doms_in)) (λ t1,
    rbind (dict_getitem d new_dom) (λ repeats,
    rbind (torch.repeat_interleave t1 repeats (length doms_in)) (λ t2,
    expand d missing' t2 (doms_in ++ [new_dom]))))
end.

Definition cross_value (o : SetOrder) (d : dict) (doms : list string) (fl : bool)
  (doms_in : list string) (t : torch.Tensor V) : result (torch.Tensor V) :=
rbind (expand d (set_difference o doms doms_in) t doms_in) (λ '(t1, doms_in1),
rbind (comprehension (index doms_in1) doms) (λ idxs,
rbind (torch.permute t1
         (idxs ++ seq (length doms_in1)
                      (length (torch.shape t1) - length doms_in1))) (λ t2,
if fl
then torch.reshape t2
       ((-1)%Z :: (Z.of_nat <$> drop (length doms_in1) (torch.shape t2)))
else Return t2))).

(** [n] copies of a tensor, stacked along a new leading axis. *)
Definition tile (n : nat) (t : torch.Tensor V) : torch.Tensor V :=
torch.tabulate (n :: torch.shape t)
  (λ idx, torch.item (torch.mk (1 :: torch.shape t) (torch.data t))
            (alter (λ k, k / n) 0 idx)).

(** ** Well-formed groundings *)

(** A grounding as the data model has it: the attribute is set, no label
  occurs twice, every label has its axis, and the entries fill the
  shape. *)
Definition well_formed_grounding (ob : Object (V:=V)) : Prop :=
∃ doms, active_doms ob = Some doms ∧ NoDup doms ∧
        length doms ≤ length (torch.shape (value ob)) ∧
        torch.well_formed (value ob).

Definition groundings_ok (h : list (Object (V:=V))) (gs : list nat) : Prop :=
Forall (λ g, ∃ ob, h !! g = Some ob ∧ well_formed_grounding ob) gs.

(** The labels of the grounding at [g]. *)
Definition labels (h : list (Object (V:=V))) (g : nat) : list string :=
match h !! g with
| Some ob => default [] (active_doms ob)
| None => []
end.

(** The value axes of a grounding: those behind its active domains. *)
Definition value_axes (ob : Object (V:=V)) : list nat :=
drop (length (default [] (active_doms ob))) (torch.shape (value ob)).

(** Flattening needs value axes without a zero: [reshape] cannot infer
  [-1] next to a zero. *)
Definition flattenable (h : list (Object (V:=V))) (gs : list nat) : Prop :=
Forall (λ g, ∀ ob, h !! g = Some ob → Forall (λ n, 0 < n) (value_axes ob)) gs.
End vocabulary.

(** ** What the specification says of [Domain] and [MLP] *)

(** The shapes the specification allows: tuples of non-negative integers. *)
Definition nonnegative_int_tuple (v : pyval) : Prop :=
  ∃ l, v = py_tuple l ∧ Forall (λ e, ∃ z, e = py_int z ∧ (0 ≤ z)%Z) l.

(** The network the specification describes: a [Linear] layer per
    consecutive pair of widths, [ELU] after each of them but the last one,
    [Sigmoid] after the last one. *)
Fixpoint feed_forward (dims : list nat) : list Layer :=
  match dims with
  | [] => []
  | a :: tl =>
      match tl with
      | [] => []
      | b :: rest =>
          Linear a b :: (match rest with [] => Sigmoid | _ :: _ => ELU end)
                     :: feed_forward tl
      end
  end.

(** ** Concrete stores *)

Definition zobj (sh : list nat) (dt : list Z) (doms : list string) : Object (V:=Z) :=
  {| value := torch.mk sh dt; active_doms := Some doms |}.

(** The scenario of the specification: [x] over [{0, 1, 2}], [y] over
    [{0, 1}]. *)
Definition scenario : State (V:=Z) :=
  {| heap := [zobj [3; 1] [0; 1; 2]%Z ["x"]; zobj [2; 1] [0; 1]%Z ["y"]];
     calls := [] |}.

(** The label [x] bound to two individuals, then to three. *)
Definition rebinding : State (V:=Z) :=
  {| heap := [zobj [2] [10; 11]%Z ["x"]; zobj [3] [20; 21; 22]%Z ["x"]];
     calls := [] |}.

(** A constant of shape [(2,)] and a variable of three individuals. *)
Definition constant_and_variable : State (V:=Z) :=
  {| heap := [zobj [2] [7; 8]%Z []; zobj [3; 1] [0; 1; 2]%Z ["x"]];
     calls := [] |}.

(** A variable, and a tensor as the constructors of [Constant] and
    [Variable] leave it: without [active_doms]. *)
Definition unlabelled : State (V:=Z) :=
  {| heap := [zobj [3; 1] [0; 1; 2]%Z ["x"];
              {| value := torch.mk [2] [7; 8]%Z; active_doms := None |}];
     calls := [] |}.

(** A wrapped model that returns the tensor it is given. *)
Definition passes_on (arg : inputs) : M (V:=Z) nat :=
  match arg with
  | OneTensor g => ret g
  | ListOf _ | TupleOf _ => raise TypeError
  end.

Fixpoint rows {A} (width n : nat) (l : list A) : list (list A) :=
  match n with
  | 0 => []
  | S n' => take width l :: rows width n' (drop width l)
  end.

(** A wrapped model of two arguments that applies the scalar predicate [p]
    to the rows of the two flattened tensors it receives in a list. *)
Definition rowwise (p : list Z → list Z → Z) (arg : inputs) : M (V:=Z) nat :=
  match arg with
  | ListOf [a; b] =>
      bind (deref a) (λ oa, bind (deref b) (λ ob,
        let n := hd 0 (torch.shape (value oa)) in
        alloc (torch.mk [n]
                 (zip_with p
                    (rows (torch.numel (tail (torch.shape (value oa)))) n
                          (torch.data (value oa)))
                    (rows (torch.numel (tail (torch.shape (value ob)))) n
                          (torch.data (value ob)))))))
  | _ => raise TypeError
  end.

(** [P(x, y) = 1 if x == y else 0] *)
Definition equal (u v : list Z) : Z := if decide (u = v) then 1%Z else 0%Z.

Ltac concrete_groundings :=
  unfold groundings_ok;
  repeat (apply Forall_cons_2;
            [eexists; split; [reflexivity|]; eexists;
             split_and!; [reflexivity|by apply (bool_decide_unpack _)|simpl; lia|reflexivity]|]);
  apply Forall_nil_2.

Ltac concrete_axes :=
  intros _; unfold flattenable;
  repeat (apply Forall_cons_2; [intros ? [= <-]; repeat constructor|]);
  apply Forall_nil_2.

(** * Vocabulary of the further properties *)

(** ** The canonical order, and counts that agree *)

(** The labels of [l], each at the place of its first occurrence. *)
Definition add_label (acc : list string) (x : string) : list string :=
  if decide (x ∈ acc) then acc else acc ++ [x].

Definition first_seen (l : list string) : list string := foldl add_label [] l.

Section more_vocabulary.
Context {V : Type} `{!Inhabited V}.

(** Every label comes with the same count in all the groundings of [gs]
    that carry it. *)
Definition consistent (s : State (V:=V)) (gs : list nat) : Prop :=
  ∀ g g' x, g ∈ gs → g' ∈ gs →
    x ∈ labels (heap s) g → x ∈ labels (heap s) g' →
    (get_dim0_of_dom g x s).1 = (get_dim0_of_dom g' x s).1.
End more_vocabulary.

(** ** Reading the entry of a pair off an output *)

Section pairs.
Context {V : Type} `{!Inhabited V}.

(** What an output of two crossed variables holds for the pair [(i, j)]:
    row [i * m + j] when the output is flattened, row [j] of row [i]
    otherwise. *)
Definition pair_row (fl : bool) (m : nat) (t : torch.Tensor V) (i j : nat)
    : result (torch.Tensor V) :=
  if fl then torch.getitem t (i * m + j)
  else rbind (torch.getitem t i) (λ r, torch.getitem r j).
End pairs.

(** ** Batches *)

(** The rows of [a] at those of the indices [idx] that are in bounds. *)
Definition selected {A} (a : list A) (idx : list nat) : list A :=
  omap (λ i, a !! i) idx.

(** [ceil(n / b)] *)
Definition ceil_div (n b : nat) : nat := (n + b - 1) / b.


(** A generator of random numbers that reverses what it shuffles. *)
Definition reversal : Shuffle :=
  {| shuffled := reverse; shuffled_perm := reverse_Permutation |}.


(** * Properties *)

(** ** Row-major indexing *)

Section indexing.
Context {V : Type} `{!Inhabited V}.
Implicit Types (s idx : list nat) (t : torch.Tensor V) (f g : list nat → V).

Lemma numel_app s1 s2 :
  torch.numel (s1 ++ s2) = torch.numel s1 * torch.numel s2.
Proof.
  induction s1 as [|n s1 IH]; simpl; [lia|]. rewrite IH. lia.
Qed.

Lemma numel_pos s : Forall (λ n, 0 < n) s → 0 < torch.numel s.
Proof. induction 1; simpl; [lia|]. apply Nat.mul_pos_pos; done. Qed.

Lemma length_blocks {A B} (f : A → list B) (l : list A) m :
  (∀ x, x ∈ l → length (f x) = m) → length (l ≫= f) = length l * m.
Proof.
  induction l as [|x l IH]; intros Hf; [done|].
  rewrite bind_cons, length_app, IH, Hf; [simpl; lia|left|].
  intros y Hy. apply Hf. by right.
Qed.

Lemma lookup_blocks {A B} (f : A → list B) (l : list A) m i j x :
  (∀ y, y ∈ l → length (f y) = m) →
  l !! i = Some x → j < m → (l ≫= f) !! (i * m + j) = f x !! j.
Proof.
  revert i. induction l as [|y l IH]; intros i Hf Hi Hj; [done|].
  rewrite bind_cons. destruct i as [|i]; simplify_eq/=.
  - rewrite lookup_app_l; [done|]. rewrite Hf; [done|left].
  - rewrite lookup_app_r; rewrite Hf by left; [|lia].
    replace (m + i * m + j - m) with (i * m + j) by lia.
    apply IH; [|done..]. intros z Hz. apply Hf. by right.
Qed.

Lemma length_indices s : length (torch.indices s) = torch.numel s.
Proof.
  induction s as [|n s IH]; [done|]. simpl.
  rewrite (length_blocks _ _ (torch.numel s)), length_seq; [done|].
  intros x _. by rewrite length_fmap.
Qed.

Lemma indices_in_range s idx : idx ∈ torch.indices s → in_range idx s.
Proof.
  revert idx. induction s as [|n s IH]; intros idx; simpl.
  - intros ->%list_elem_of_singleton. constructor.
  - intros (i & (idx' & -> & Hidx')%list_elem_of_fmap & Hi%elem_of_seq)%list_elem_of_bind.
    constructor; [lia|by apply IH].
Qed.

Lemma ravel_lt s idx : in_range idx s → torch.ravel s idx < torch.numel s.
Proof.
  intros H. induction H as [|i n idx s Hi _ IH]; simpl; [lia|]. nia.
Qed.

Lemma lookup_indices s idx :
  in_range idx s → torch.indices s !! torch.ravel s idx = Some idx.
Proof.
  intros H. induction H as [|i n idx s Hi Hr IH]; [done|]. simpl.
  rewrite (lookup_blocks _ _ (torch.numel s) i _ i).
  - by rewrite list_lookup_fmap, IH.
  - intros y _. by rewrite length_fmap, length_indices.
  - by apply lookup_seq_lt.
  - by apply ravel_lt.
Qed.

Lemma ravel_indices s : torch.ravel s <$> torch.indices s = seq 0 (torch.numel s).
Proof.
  induction s as [|n s IH]; [done|]. simpl.
  assert (∀ m k, torch.ravel (n :: s) <$> (seq k m ≫= λ i, (i ::.) <$> torch.indices s)
                 = seq (k * torch.numel s) (m * torch.numel s)) as Hk.
  { induction m as [|m IHm]; intros k; [done|].
    cbn [seq]. rewrite bind_cons, fmap_app, IHm.
    replace (S m * torch.numel s) with (torch.numel s + m * torch.numel s) by lia.
    rewrite seq_app. f_equal; [|f_equal; lia].
    rewrite <-list_fmap_compose.
    rewrite (list_fmap_ext _ (Nat.add (k * torch.numel s) ∘ torch.ravel s)) by done.
    by rewrite list_fmap_compose, IH, fmap_add_seq, Nat.add_0_r. }
  apply (Hk n 0).
Qed.

Lemma item_tabulate s f idx :
  in_range idx s → torch.item (torch.tabulate s f) idx = f idx.
Proof.
  intros H. unfold torch.item, torch.tabulate. simpl.
  apply list_lookup_total_correct.
  by rewrite list_lookup_fmap, lookup_indices.
Qed.

Lemma tabulate_well_formed s f : torch.well_formed (torch.tabulate s f).
Proof. unfold torch.well_formed. simpl. by rewrite length_fmap, length_indices. Qed.

Lemma tabulate_ext s f g :
  (∀ idx, in_range idx s → f idx = g idx) → torch.tabulate s f = torch.tabulate s g.
Proof.
  intros H. unfold torch.tabulate. f_equal.
  apply Forall_fmap_ext, Forall_forall. intros idx Hidx.
  by apply H, indices_in_range.
Qed.

(** Reading every entry back gives the tensor. *)
Lemma tabulate_item t :
  torch.well_formed t → torch.tabulate (torch.shape t) (torch.item t) = t.
Proof.
  destruct t as [s d]. unfold torch.well_formed, torch.tabulate, torch.item. simpl.
  intros Hd. f_equal.
  change (((λ k, d !!! k) ∘ torch.ravel s) <$> torch.indices s = d).
  rewrite list_fmap_compose, ravel_indices, <-Hd.
  apply list_eq. intros i. rewrite list_lookup_fmap.
  destruct (decide (i < length d)) as [Hi|Hi].
  - rewrite lookup_seq_lt by done. simpl.
    destruct (lookup_lt_is_Some_2 d i Hi) as [x Hx].
    by rewrite (list_lookup_total_correct _ _ _ Hx).
  - rewrite (lookup_ge_None_2 d) by lia.
    rewrite (lookup_ge_None_2 (seq 0 (length d))); [done|]. rewrite length_seq. lia.
Qed.
End indexing.

(** ** The store: what a computation leaves alone, and what it returns *)

Section store.
Context {V : Type} `{!Inhabited V}.
Local Abbreviation preserves := (preserves (V:=V)).
Local Abbreviation frames := (frames (V:=V)).
Local Abbreviation fresh := (fresh (V:=V)).
Local Abbreviation ends_with := (ends_with (V:=V)).
Implicit Types (s : State (V:=V)) (g n : nat).

Lemma preserves_refl n s : preserves n s s.
Proof. by unfold preserves. Qed.

Lemma preserves_trans n s1 s2 s3 :
  preserves n s1 s2 → preserves n s2 s3 → preserves n s1 s3.
Proof.
  intros (H1 & H2 & H3) (H4 & H5 & H6). unfold preserves.
  split_and!; [congruence|lia|congruence].
Qed.

Lemma preserves_le n m s s' : n ≤ m → preserves m s s' → preserves n s s'.
Proof.
  intros Hnm (Ht & Hl & Hc). split_and!; [|done..].
  rewrite <-(Nat.min_l n m) by done. by rewrite <-!take_take, Ht.
Qed.

Lemma preserves_lookup s s' g ob :
  preserves (length (heap s)) s s' → heap s !! g = Some ob → heap s' !! g = Some ob.
Proof.
  intros (Ht & _ & _) Hg. pose proof (lookup_lt_Some _ _ _ Hg) as Hlt.
  rewrite <-(lookup_take_lt _ (length (heap s))), Ht, lookup_take_lt; done.
Qed.

Lemma frames_ret {A} n (a : A) : frames n (ret a).
Proof. intros s _. apply preserves_refl. Qed.

Lemma frames_raise {A} n e : frames n (raise (A:=A) e).
Proof. intros s _. apply preserves_refl. Qed.

Lemma frames_lift {A} n (r : result A) : frames n (lift r).
Proof. intros s _. apply preserves_refl. Qed.

Lemma frames_bind {A B} n (m : M A) (k : A → M B) :
  frames n m → (∀ a, frames n (k a)) → frames n (bind m k).
Proof.
  intros Hm Hk s Hs. specialize (Hm s Hs). unfold bind.
  destruct (m s) as [[e|a] s1]; [done|]. simpl in Hm.
  eapply preserves_trans; [done|]. apply Hk. destruct Hm as (_ & ? & _). lia.
Qed.

Lemma frames_deref n g : frames n (deref g).
Proof. intros s _. unfold deref. destruct (heap s !! g); apply preserves_refl. Qed.

Lemma frames_alloc n t : frames n (alloc t).
Proof.
  intros s Hs. unfold alloc, preserves. simpl.
  rewrite take_app_le, length_app by done. split_and!; [done|lia|done].
Qed.

Lemma frames_getattr_active_doms n g : frames n (getattr_active_doms g).
Proof.
  apply frames_bind; [apply frames_deref|]. intros ob.
  destruct (active_doms ob); [apply frames_ret|apply frames_raise].
Qed.

Lemma frames_getattr_shape n g : frames n (getattr_shape g).
Proof. apply frames_bind; [apply frames_deref|]. intros ob. apply frames_ret. Qed.

Lemma frames_torch_op n f g : frames n (torch_op f g).
Proof.
  apply frames_bind; [apply frames_deref|]. intros ob.
  apply frames_bind; [apply frames_lift|]. intros t. apply frames_alloc.
Qed.

(** Assigning the attribute of an object beyond the first [n]. *)
Lemma frames_setattr_active_doms n g doms :
  n ≤ g → frames n (setattr_active_doms g doms).
Proof.
  intros Hg s Hs. unfold setattr_active_doms, bind, deref.
  destruct (heap s !! g); [|apply preserves_refl]. unfold preserves. simpl.
  rewrite length_insert, take_insert_ge by done. done.
Qed.

Lemma frames_for_each {A S} n (l : list A) (body : S → A → M S) acc :
  (∀ acc x, frames n (body acc x)) → frames n (for_each l body acc).
Proof.
  intros Hb. revert acc. induction l as [|x l IH]; intros acc; simpl.
  - apply frames_ret.
  - apply frames_bind; [apply Hb|]. intros acc'. apply IH.
Qed.

Lemma bind_run {A B} (m : M A) (k : A → M B) s :
  bind m k s =
    match m s with
    | (Return a, s') => k a s'
    | (Raise e, s') => (Raise e, s')
    end.
Proof. done. Qed.

Lemma getattr_active_doms_run g s :
  getattr_active_doms g s =
    (match heap s !! g with
     | None => Raise SystemError
     | Some ob =>
         match active_doms ob with
         | None => Raise AttributeError
         | Some doms => Return doms
         end
     end, s).
Proof.
  unfold getattr_active_doms, bind, deref.
  destruct (heap s !! g) as [ob|]; [|done]. by destruct (active_doms ob).
Qed.

Lemma getattr_shape_run g s :
  getattr_shape g s =
    (match heap s !! g with
     | None => Raise SystemError
     | Some ob => Return (torch.shape (value ob))
     end, s).
Proof. unfold getattr_shape, bind, deref. by destruct (heap s !! g). Qed.

Lemma torch_op_run f g s :
  torch_op f g s =
    match heap s !! g with
    | None => (Raise SystemError, s)
    | Some ob =>
        match f (value ob) with
        | Raise e => (Raise e, s)
        | Return t => alloc t s
        end
    end.
Proof.
  unfold torch_op, bind, deref, lift.
  destruct (heap s !! g) as [ob|]; [|done]. by destruct (f (value ob)).
Qed.

Lemma fresh_torch_op f g : fresh (torch_op f g).
Proof.
  intros s g'. rewrite torch_op_run.
  destruct (heap s !! g) as [ob|]; [|done].
  destruct (f (value ob)); [done|]. unfold alloc. simpl.
  intros [= <-]. rewrite length_app. simpl. lia.
Qed.

Lemma fresh_bind {A} (m : M A) (k : A → M nat) :
  frames 0 m → (∀ a, fresh (k a)) → fresh (bind m k).
Proof.
  intros Hm Hk s g. specialize (Hm s (Nat.le_0_l _)). unfold bind.
  destruct (m s) as [[e|a] s1]; [done|]. simpl in Hm.
  intros Hg. apply Hk in Hg. destruct Hm as (_ & ? & _). lia.
Qed.

Lemma ends_with_bind {A} (m : M A) (k : A → M nat) P :
  (∀ a, ends_with (k a) P) → ends_with (bind m k) P.
Proof.
  intros Hk s g. unfold bind. destruct (m s) as [[e|a] s1]; [done|]. apply Hk.
Qed.

Lemma ends_with_torch_op f g :
  ends_with (torch_op f g) (λ ob, active_doms ob = None).
Proof.
  intros s g'. rewrite torch_op_run.
  destruct (heap s !! g) as [ob|]; [|done].
  destruct (f (value ob)) as [|t]; [done|]. unfold alloc. simpl.
  intros [= <-]. eexists. by rewrite list_lookup_middle.
Qed.

(** [g = op(g0); g.active_doms = doms; k(g)]: the attribute is assigned on
    the object the operation has just allocated. *)
Lemma op_setattr_run f g0 doms {A} (k : nat → M A) s :
  bind (torch_op f g0) (λ g, bind (setattr_active_doms g doms) (λ _, k g)) s =
    match heap s !! g0 with
    | None => (Raise SystemError, s)
    | Some ob =>
        match f (value ob) with
        | Raise e => (Raise e, s)
        | Return t =>
            k (length (heap s))
              {| heap := heap s ++ [{| value := t; active_doms := Some doms |}];
                 calls := calls s |}
        end
    end.
Proof.
  unfold bind at 1. rewrite torch_op_run.
  destruct (heap s !! g0) as [ob|]; [|done].
  destruct (f (value ob)) as [|t]; [done|].
  unfold alloc, bind, setattr_active_doms, bind, deref. simpl.
  rewrite list_lookup_middle by done. simpl.
  by rewrite insert_app_r_alt, Nat.sub_diag by done.
Qed.
End store.

(** ** [cross_grounding_values]: inputs untouched, outputs new *)

Section engine_frame.
Context {V : Type} `{!Inhabited V}.
Local Abbreviation preserves := (preserves (V:=V)).
Local Abbreviation frames := (frames (V:=V)).
Local Abbreviation fresh := (fresh (V:=V)).
Local Abbreviation ends_with := (ends_with (V:=V)).
Implicit Types (s : State (V:=V)) (g n : nat) (o : SetOrder).

Lemma frames_op_setattr {A} n f g0 doms (k : nat → M (V:=V) A) :
  (∀ g, frames n (k g)) →
  frames n (bind (torch_op f g0) (λ g, bind (setattr_active_doms g doms) (λ _, k g))).
Proof.
  intros Hk s Hs. rewrite op_setattr_run.
  destruct (heap s !! g0) as [ob|]; [|apply preserves_refl].
  destruct (f (value ob)) as [|t]; [apply preserves_refl|].
  eapply preserves_trans; [|apply Hk; simpl; rewrite length_app; lia].
  unfold preserves. simpl. rewrite take_app_le, length_app by done.
  split_and!; [done|lia|done].
Qed.

Lemma frames_get_dim0_of_dom n g dom : frames n (get_dim0_of_dom (V:=V) g dom).
Proof.
  apply frames_bind; [apply frames_getattr_active_doms|]. intros doms.
  apply frames_bind; [apply frames_lift|]. intros i.
  apply frames_bind; [apply frames_deref|]. intros ob. apply frames_lift.
Qed.

Lemma frames_scan_doms n gs : frames n (scan_doms (V:=V) gs).
Proof.
  apply frames_for_each. intros d g.
  apply frames_bind; [apply frames_getattr_active_doms|]. intros doms.
  apply frames_for_each. intros d' dom.
  apply frames_bind; [apply frames_get_dim0_of_dom|]. intros k. apply frames_ret.
Qed.

Lemma frames_expand n d (missing doms_in : list string) g :
  frames n (for_each missing (add_domain (V:=V) d) (g, doms_in)).
Proof.
  apply frames_for_each. intros [g1 d1] x. unfold add_domain.
  apply frames_bind; [apply frames_torch_op|]. intros g2.
  apply frames_bind; [apply frames_lift|]. intros k.
  apply frames_bind; [apply frames_torch_op|]. intros g3. apply frames_ret.
Qed.

Lemma frames_cross_one n o d doms fl g : frames n (cross_one (V:=V) o d doms fl g).
Proof.
  unfold cross_one.
  apply frames_bind; [apply frames_getattr_active_doms|]. intros doms_in.
  apply frames_bind; [apply frames_expand|]. intros [g1 d1].
  apply frames_bind; [apply frames_lift|]. intros idxs.
  apply frames_bind; [apply frames_getattr_shape|]. intros shp.
  apply frames_op_setattr. intros g2. destruct fl; [|apply frames_ret].
  apply frames_bind; [apply frames_getattr_shape|]. intros shp'.
  apply frames_torch_op.
Qed.

Lemma fresh_cross_one o d doms fl g : fresh (cross_one (V:=V) o d doms fl g).
Proof.
  unfold cross_one.
  apply fresh_bind; [apply frames_getattr_active_doms|]. intros doms_in.
  apply fresh_bind; [apply frames_expand|]. intros [g1 d1].
  apply fresh_bind; [apply frames_lift|]. intros idxs.
  apply fresh_bind; [apply frames_getattr_shape|]. intros shp.
  intros s g'. rewrite op_setattr_run.
  destruct (heap s !! g1) as [ob|]; [|done].
  destruct (torch.permute _ _) as [|t]; [done|].
  destruct fl.
  - intros Hg'. eapply (fresh_bind _ _ (frames_getattr_shape 0 _)) in Hg'.
    + simpl in Hg'. rewrite length_app in Hg'. simpl in Hg'. lia.
    + intros shp'. apply fresh_torch_op.
  - unfold ret. simpl. intros [= <-]. rewrite length_app. simpl. lia.
Qed.

(** Without flattening the returned object carries [active_doms = doms];
    with flattening it is the result of [torch.reshape], a new object that
    carries no attribute. *)
Lemma ends_with_cross_one o d doms fl g :
  ends_with (cross_one (V:=V) o d doms fl g)
    (λ ob, active_doms ob = if fl then None else Some doms).
Proof.
  unfold cross_one.
  apply ends_with_bind. intros doms_in.
  apply ends_with_bind. intros [g1 d1].
  apply ends_with_bind. intros idxs.
  apply ends_with_bind. intros shp.
  intros s g'. rewrite op_setattr_run.
  destruct (heap s !! g1) as [ob|]; [|done].
  destruct (torch.permute _ _) as [|t]; [done|].
  destruct fl.
  - apply ends_with_bind. intros shp'. apply ends_with_torch_op.
  - unfold ret. simpl. intros [= <-]. eexists. by rewrite list_lookup_middle.
Qed.

Lemma collect_loop o d doms fl P gs s0 s acc :
  (∀ g, ends_with (cross_one o d doms fl g) P) →
  length (heap s0) ≤ length (heap s) →
  collected s0 s P acc →
  ∀ l, (for_each gs (λ crossed grounding,
          bind (cross_one o d doms fl grounding)
               (λ grounding, ret (crossed ++ [grounding]))) acc s).1 = Return l →
  collected s0
    (for_each gs (λ crossed grounding,
          bind (cross_one o d doms fl grounding)
               (λ grounding, ret (crossed ++ [grounding]))) acc s).2 P l
  ∧ length l = length acc + length gs.
Proof.
  intros HP. revert s acc. induction gs as [|g gs IH]; intros s acc Hs Hacc l; simpl.
  - intros [= <-]. split; [done|lia].
  - unfold bind at 1 3 5. unfold bind at 1 2 3.
    pose proof (frames_cross_one (length (heap s)) o d doms fl g s (reflexivity _)) as Hfr.
    pose proof (fresh_cross_one o d doms fl g s) as Hfresh.
    pose proof (HP g s) as Hend.
    destruct (cross_one o d doms fl g s) as [[e|g'] s1]; [done|]. simpl in *.
    destruct (Hfresh g' eq_refl) as [Hg1 Hg2].
    destruct (Hend g' eq_refl) as (ob & Hob & HPob).
    intros Hl. apply IH in Hl as [Hl1 Hl2].
    + split; [done|]. rewrite Hl2, length_app. simpl. lia.
    + destruct Hfr as (_ & ? & _). lia.
    + apply Forall_app. split.
      * eapply Forall_impl; [exact Hacc|]. simpl.
        intros g0 (Hg0 & ob0 & Hob0 & HP0). split; [done|].
        exists ob0. split; [|done]. by eapply preserves_lookup.
      * apply Forall_singleton. split; [lia|]. eauto.
Qed.
End engine_frame.

(** ** The engine on tensor values *)

Section engine_values.
Context {V : Type} `{!Inhabited V}.
Local Abbreviation preserves := (preserves (V:=V)).
Local Abbreviation frames := (frames (V:=V)).
Local Abbreviation fresh := (fresh (V:=V)).
Local Abbreviation ends_with := (ends_with (V:=V)).
Implicit Types (s : State (V:=V)) (h : list (Object (V:=V))) (t : torch.Tensor V).
Implicit Types (g n : nat) (o : SetOrder) (d : dict).

Lemma get_dim0_of_dom_run g dom s :
  get_dim0_of_dom g dom s = (dim0_value (heap s) g dom, s).
Proof.
  unfold get_dim0_of_dom, getattr_active_doms, dim0_value, bind, deref, lift, ret, raise.
  destruct (heap s !! g) as [ob|] eqn:Hg; [|done].
  destruct (active_doms ob) as [doms|]; [|done].
  destruct (index doms dom) as [|i]; [done|]. simpl. by rewrite Hg.
Qed.

Lemma scan_inner_run g doms d s :
  for_each doms (λ doms_to_dim0 dom,
      bind (get_dim0_of_dom g dom) (λ k, ret (dict_setitem doms_to_dim0 dom k))) d s
  = (scan_inner (heap s) g doms d, s).
Proof.
  revert d. induction doms as [|dom doms IH]; intros d; [done|]. simpl.
  unfold bind at 1 2. rewrite get_dim0_of_dom_run.
  destruct (dim0_value (heap s) g dom) as [|k]; [done|]. simpl. apply IH.
Qed.

Lemma scan_loop_run gs d s :
  for_each gs (λ doms_to_dim0 grounding,
      bind (getattr_active_doms grounding) (λ doms,
        for_each doms (λ doms_to_dim0 dom,
          bind (get_dim0_of_dom grounding dom)
               (λ k, ret (dict_setitem doms_to_dim0 dom k))) doms_to_dim0)) d s
  = (scan_value (heap s) gs d, s).
Proof.
  revert d. induction gs as [|g gs IH]; intros d; [done|]. simpl.
  rewrite !bind_run, getattr_active_doms_run.
  destruct (heap s !! g) as [ob|]; [|done].
  destruct (active_doms ob) as [doms|]; [|done].
  rewrite scan_inner_run.
  destruct (scan_inner (heap s) g doms d) as [|d']; [done|]. apply IH.
Qed.

Lemma scan_doms_run gs s : scan_doms gs s = (scan_value (heap s) gs [], s).
Proof. apply scan_loop_run. Qed.

Lemma add_domain_run d g doms_in x s :
  add_domain d (g, doms_in) x s =
    match heap s !! g with
    | None => (Raise SystemError, s)
    | Some ob =>
        match torch.unsqueeze (value ob) (length doms_in) with
        | Raise e => (Raise e, s)
        | Return t1 =>
            match dict_getitem d x with
            | Raise e => (Raise e, pushed s t1)
            | Return k =>
                match torch.repeat_interleave t1 k (length doms_in) with
                | Raise e => (Raise e, pushed s t1)
                | Return t2 =>
                    (Return (S (length (heap s)), doms_in ++ [x]),
                     pushed (pushed s t1) t2)
                end
            end
        end
    end.
Proof.
  unfold add_domain. rewrite bind_run, torch_op_run.
  destruct (heap s !! g) as [ob|]; [|done].
  destruct (torch.unsqueeze _ _) as [|t1]; [done|].
  change (alloc t1 s) with (Return (length (heap s)), pushed s t1).
  cbv beta iota. rewrite bind_run. unfold lift at 1.
  destruct (dict_getitem d x) as [|k]; [done|].
  rewrite bind_run, torch_op_run. simpl.
  rewrite list_lookup_middle by done. simpl.
  destruct (torch.repeat_interleave _ _ _) as [|t2]; [done|].
  unfold alloc, ret, pushed. simpl. rewrite length_app. simpl.
  by rewrite Nat.add_1_r.
Qed.

Lemma expand_run d missing g doms_in s ob :
  heap s !! g = Some ob →
  match expand d missing (value ob) doms_in with
  | Raise e => (for_each missing (add_domain d) (g, doms_in) s).1 = Raise e
  | Return (t', doms_in') =>
      ∃ g' s' ob',
        for_each missing (add_domain d) (g, doms_in) s = (Return (g', doms_in'), s') ∧
        heap s' !! g' = Some ob' ∧ value ob' = t'
  end.
Proof.
  revert g doms_in s ob. induction missing as [|x missing IH]; intros g doms_in s ob Hg.
  - simpl. by exists g, s, ob.
  - cbn [expand for_each]. rewrite bind_run, add_domain_run, Hg.
    destruct (torch.unsqueeze (value ob) (length doms_in)) as [e|t1]; [done|]. simpl.
    destruct (dict_getitem d x) as [e|k]; [done|]. simpl.
    destruct (torch.repeat_interleave t1 k (length doms_in)) as [e|t2]; [done|]. simpl.
    apply (IH _ _ _ {| value := t2; active_doms := None |}).
    simpl. apply list_lookup_middle. rewrite length_app. simpl. lia.
Qed.
Lemma cross_one_run o d doms fl g s ob ad :
  heap s !! g = Some ob → active_doms ob = Some ad →
  match cross_value o d doms fl ad (value ob) with
  | Raise e => (cross_one o d doms fl g s).1 = Raise e
  | Return t' =>
      ∃ g' s',
        cross_one o d doms fl g s = (Return g', s') ∧
        heap s' !! g' =
          Some {| value := t'; active_doms := if fl then None else Some doms |}
  end.
Proof.
  intros Hg Had. unfold cross_one, cross_value.
  rewrite bind_run, getattr_active_doms_run, Hg, Had.
  pose proof (expand_run d (set_difference o doms ad) g ad s ob Hg) as Hex.
  rewrite bind_run.
  destruct (expand d _ (value ob) ad) as [e|[t1 d1]]; simpl.
  { destruct (for_each _ _ _ s) as [[e'|a] s1]; simpl in *; congruence. }
  destruct Hex as (g1 & s1 & ob1 & -> & Hg1 & <-).
  rewrite bind_run. unfold lift at 1 2.
  destruct (comprehension (index d1) doms) as [e|idxs]; [done|]. simpl.
  rewrite bind_run, getattr_shape_run, Hg1, op_setattr_run, Hg1.
  destruct (torch.permute (value ob1) _) as [e|t2]; [done|]. simpl.
  destruct fl.
  - rewrite bind_run, getattr_shape_run. simpl.
    rewrite list_lookup_middle by done. rewrite torch_op_run. simpl.
    rewrite list_lookup_middle by done. simpl.
    destruct (torch.reshape t2 _) as [e|t3]; [done|].
    do 2 eexists. split; [done|]. simpl.
    apply list_lookup_middle. rewrite length_app. simpl. lia.
  - do 2 eexists. split; [done|]. simpl. by apply list_lookup_middle.
Qed.

(** One iteration of the second loop, when the value-level computation
    returns. *)
Lemma cross_one_spec o d doms fl g s ob ad t' :
  heap s !! g = Some ob → active_doms ob = Some ad →
  cross_value o d doms fl ad (value ob) = Return t' →
  ∃ g' s',
    cross_one o d doms fl g s = (Return g', s') ∧
    preserves (length (heap s)) s s' ∧
    length (heap s) ≤ g' ∧
    heap s' !! g' =
      Some {| value := t'; active_doms := if fl then None else Some doms |}.
Proof.
  intros Hg Had Hv. pose proof (cross_one_run o d doms fl g s ob ad Hg Had) as Hrun.
  rewrite Hv in Hrun. destruct Hrun as (g' & s' & Hrun & Hob).
  exists g', s'. split; [done|].
  pose proof (frames_cross_one (length (heap s)) o d doms fl g s (reflexivity _)) as Hfr.
  pose proof (fresh_cross_one o d doms fl g s g') as Hfresh.
  rewrite Hrun in Hfr, Hfresh. simpl in *. split_and!; [done| |done].
  by apply Hfresh.
Qed.

Lemma collect_spec o d doms fl gs ts s0 s acc :
  length (heap s0) ≤ length (heap s) →
  preserves (length (heap s0)) s0 s →
  Forall2 (λ g t', ∃ ob ad, heap s0 !! g = Some ob ∧ active_doms ob = Some ad ∧
              cross_value o d doms fl ad (value ob) = Return t') gs ts →
  ∃ crossed s',
    for_each gs (λ crossed grounding,
        bind (cross_one o d doms fl grounding)
             (λ grounding, ret (crossed ++ [grounding]))) acc s
    = (Return (acc ++ crossed), s') ∧
    preserves (length (heap s)) s s' ∧
    Forall2 (λ g' t', length (heap s) ≤ g' ∧
               heap s' !! g' =
                 Some {| value := t'; active_doms := if fl then None else Some doms |})
      crossed ts.
Proof.
  intros Hlen Hpre Hgs. revert s acc Hlen Hpre.
  induction Hgs as [|g t' gs ts (ob & ad & Hg & Had & Hv) _ IH]; intros s acc Hlen Hpre.
  - exists [], s. simpl. rewrite app_nil_r. split_and!; [done|apply preserves_refl|done].
  - cbn [for_each]. rewrite !bind_run.
    destruct (cross_one_spec o d doms fl g s ob ad t') as (g' & s1 & -> & Hp1 & Hg' & Hob);
      [by eapply preserves_lookup|done..|].
    unfold ret at 1.
    destruct (IH s1 (acc ++ [g'])) as (crossed & s' & -> & Hp2 & Hcr).
    { destruct Hp1 as (_ & ? & _). lia. }
    { eapply preserves_trans; [exact Hpre|]. by eapply preserves_le. }
    exists (g' :: crossed), s'. rewrite <-app_assoc. split_and!; [done| |].
    + eapply preserves_trans; [exact Hp1|]. eapply preserves_le; [|exact Hp2].
      by destruct Hp1 as (_ & ? & _).
    + constructor.
      * split; [done|]. eapply preserves_lookup; [exact Hp2|]. done.
      * eapply Forall2_impl; [exact Hcr|]. simpl. intros g0 t0 [? ?].
        split; [|done]. destruct Hp1 as (_ & ? & _). lia.
Qed.

(** The whole call, when the value-level computations return: the result
    lists one new object per input, every object of the initial store is
    as it was, and nothing was added to the trace. *)
Lemma cross_grounding_values_spec o gs fl s d ts :
  scan_value (heap s) gs [] = Return d →
  Forall2 (λ g t', ∃ ob ad, heap s !! g = Some ob ∧ active_doms ob = Some ad ∧
              cross_value o d (keys d) fl ad (value ob) = Return t') gs ts →
  ∃ crossed s',
    cross_grounding_values o gs fl s = (Return (crossed, keys d, values d), s') ∧
    preserves (length (heap s)) s s' ∧
    Forall2 (λ g' t', length (heap s) ≤ g' ∧
               heap s' !! g' =
                 Some {| value := t';
                         active_doms := if fl then None else Some (keys d) |})
      crossed ts.
Proof.
  intros Hd Hgs. unfold cross_grounding_values.
  rewrite bind_run, scan_doms_run, Hd, bind_run.
  destruct (collect_spec o d (keys d) fl gs ts s s []) as (crossed & s' & -> & Hp & Hcr);
    [done|apply preserves_refl|done|].
  exists crossed, s'. done.
Qed.
End engine_values.

(** ** The dictionary from labels to counts *)

Section dicts.
Implicit Types (d : dict) (k : string) (v : nat).

Lemma dict_getitem_setitem_eq d k v : dict_getitem (dict_setitem d k v) k = Return v.
Proof.
  induction d as [|[k' v'] d IH]; simpl.
  - by rewrite decide_True.
  - destruct (decide (k' = k)) as [->|Hne]; simpl.
    + by rewrite decide_True.
    + by rewrite decide_False.
Qed.

Lemma dict_getitem_setitem_ne d k k' v :
  k ≠ k' → dict_getitem (dict_setitem d k v) k' = dict_getitem d k'.
Proof.
  intros Hne. induction d as [|[k0 v0] d IH]; simpl.
  - by case_decide.
  - destruct (decide (k0 = k)) as [->|Hne0]; simpl.
    + by case_decide.
    + by case_decide.
Qed.

Lemma keys_setitem d k v :
  keys (dict_setitem d k v) = if decide (k ∈ keys d) then keys d else keys d ++ [k].
Proof.
  unfold keys. induction d as [|[k' v'] d IH]; [done|].
  cbn [dict_setitem]. destruct (decide (k' = k)) as [->|Hne]; rewrite !fmap_cons; simpl.
  - rewrite decide_True; [done|]. left.
  - rewrite IH. destruct (decide (k ∈ d.*1)) as [Hin|Hout].
    + rewrite decide_True; [done|]. by right.
    + rewrite decide_False; [done|]. intros [?|?]%elem_of_cons; congruence.
Qed.

Lemma NoDup_keys_setitem d k v : NoDup (keys d) → NoDup (keys (dict_setitem d k v)).
Proof.
  intros Hd. rewrite keys_setitem. case_decide; [done|].
  apply NoDup_app. split_and!; [done| |apply NoDup_singleton].
  intros x Hx ->%list_elem_of_singleton. done.
Qed.

Lemma elem_of_keys_setitem d k v x :
  x ∈ keys (dict_setitem d k v) ↔ x = k ∨ x ∈ keys d.
Proof.
  rewrite keys_setitem. case_decide.
  - split; [by right|]. by intros [->|?].
  - rewrite elem_of_app, list_elem_of_singleton. tauto.
Qed.

Lemma dict_getitem_returns d k : k ∈ keys d → returns (dict_getitem d k).
Proof.
  unfold keys, returns. induction d as [|[k' v'] d IH]; simpl.
  - intros []%elem_of_nil.
  - intros Hin. destruct (decide (k' = k)); [by eexists|].
    apply IH. apply elem_of_cons in Hin as [?|?]; [congruence|done].
Qed.

Lemma length_values d : length (values d) = length (keys d).
Proof. unfold values, keys. by rewrite !length_fmap. Qed.

(** The count listed for the [i]-th key is the one [d[k]] gives. *)
Lemma values_lookup d i k :
  NoDup (keys d) → keys d !! i = Some k →
  ∃ v, values d !! i = Some v ∧ dict_getitem d k = Return v.
Proof.
  unfold keys, values. revert i. induction d as [|[k' v'] d IH]; intros i Hd Hi; [done|].
  simpl in *. apply NoDup_cons in Hd as [Hk' Hd]. destruct i as [|i]; simplify_eq/=.
  - exists v'. by rewrite decide_True.
  - destruct (IH i Hd Hi) as (v & Hv & Hget). exists v. split; [done|].
    rewrite decide_False; [done|]. intros ->. apply Hk'.
    by eapply list_elem_of_lookup_2.
Qed.
End dicts.

(** ** Well-formed groundings and the first loop *)

Section scanning.
Context {V : Type} `{!Inhabited V}.
Implicit Types (h : list (Object (V:=V))) (ob : Object (V:=V)) (d : dict).
Implicit Types (g : nat) (x : string).

Lemma index_elem_of (l : list string) x :
  x ∈ l → ∃ i, index l x = Return i ∧ l !! i = Some x.
Proof.
  intros Hx. unfold index.
  destruct (list_find_elem_of (x =.) l x Hx eq_refl) as [[i y] Hf].
  rewrite Hf. apply list_find_Some in Hf as (Hi & -> & _). eauto.
Qed.

Lemma index_lookup (l : list string) x i : index l x = Return i → l !! i = Some x.
Proof.
  unfold index. destruct (list_find (x =.) l) as [[j y]|] eqn:Hf; [|done].
  intros [= ->]. by apply list_find_Some in Hf as (Hi & -> & _).
Qed.

Lemma dim0_value_returns h g ob doms x :
  h !! g = Some ob → active_doms ob = Some doms →
  length doms ≤ length (torch.shape (value ob)) →
  x ∈ doms → returns (dim0_value h g x).
Proof.
  intros Hg Had Hlen Hx. unfold dim0_value. rewrite Hg, Had.
  destruct (index_elem_of doms x Hx) as (i & -> & Hi). simpl.
  unfold torch.size. apply lookup_lt_Some in Hi.
  destruct (lookup_lt_is_Some_2 (torch.shape (value ob)) i) as [n ->]; [lia|].
  by eexists.
Qed.

Lemma scan_inner_spec h g ob doms doms' d :
  h !! g = Some ob → active_doms ob = Some doms →
  length doms ≤ length (torch.shape (value ob)) →
  doms' ⊆ doms →
  ∃ d', scan_inner h g doms' d = Return d' ∧
        (NoDup (keys d) → NoDup (keys d')) ∧
        (∀ x, x ∈ keys d' ↔ x ∈ doms' ∨ x ∈ keys d) ∧
        (∀ x, x ∉ doms' → dict_getitem d' x = dict_getitem d x) ∧
        (∀ x, x ∈ doms' → dict_getitem d' x = dim0_value h g x).
Proof.
  intros Hg Had Hlen. revert d. induction doms' as [|dom doms' IH]; intros d Hsub.
  - exists d. split_and!; [done..| | |].
    + intros x. rewrite elem_of_nil. tauto.
    + done.
    + intros x []%elem_of_nil.
  - simpl.
    destruct (dim0_value_returns h g ob doms dom Hg Had Hlen) as [k Hk].
    { apply Hsub. left. }
    rewrite Hk. simpl.
    destruct (IH (dict_setitem d dom k)) as (d' & -> & Hnd & Hkeys & Hout & Hin).
    { intros y Hy. apply Hsub. by right. }
    exists d'. split_and!; [done| | | |].
    + intros Hd. by apply Hnd, NoDup_keys_setitem.
    + intros x. rewrite Hkeys, elem_of_keys_setitem, elem_of_cons. tauto.
    + intros x Hx. rewrite Hout; [|intros ?; apply Hx; by right].
      apply dict_getitem_setitem_ne. intros ->. apply Hx. left.
    + intros x Hx. destruct (decide (x ∈ doms')) as [Hx'|Hx']; [by apply Hin|].
      apply elem_of_cons in Hx as [->|?]; [|done].
      by rewrite Hout, dict_getitem_setitem_eq.
Qed.

Lemma scan_value_spec h gs d :
  groundings_ok h gs →
  ∃ d', scan_value h gs d = Return d' ∧
        (NoDup (keys d) → NoDup (keys d')) ∧
        (∀ x, x ∈ keys d' ↔ x ∈ keys d ∨ ∃ g, g ∈ gs ∧ x ∈ labels h g) ∧
        (∀ x, (∀ g, g ∈ gs → x ∉ labels h g) →
              dict_getitem d' x = dict_getitem d x) ∧
        (∀ pre g post x, gs = pre ++ g :: post → x ∈ labels h g →
              (∀ g', g' ∈ post → x ∉ labels h g') →
              dict_getitem d' x = dim0_value h g x).
Proof.
  intros Hok. revert d. induction Hok as [|g gs (ob & Hg & doms & Had & Hnd & Hlen & Hwf) _ IH];
    intros d.
  - exists d. split_and!; [done..| | |].
    + intros x. split; [by left|]. intros [?|(g & []%elem_of_nil & _)]. done.
    + done.
    + intros [|??] ????; done.
  - simpl. rewrite Hg, Had.
    destruct (scan_inner_spec h g ob doms doms d Hg Had Hlen (reflexivity _))
      as (d1 & -> & Hnd1 & Hkeys1 & Hout1 & Hin1). simpl.
    destruct (IH d1) as (d' & -> & Hnd' & Hkeys' & Hout' & Hlast').
    assert (labels h g = doms) as Hlab.
    { unfold labels. by rewrite Hg, Had. }
    exists d'. split_and!; [done|by auto| | |].
    + intros x. rewrite Hkeys', Hkeys1. split.
      * intros [[?|?]|(g' & ? & ?)]; [|by left|].
        -- right. exists g. rewrite Hlab. split; [left|done].
        -- right. exists g'. split; [by right|done].
      * intros [?|(g' & [->|?]%elem_of_cons & Hx)]; [by left; right| |].
        -- left. left. by rewrite <-Hlab.
        -- right. eauto.
    + intros x Hx. rewrite Hout'; [|intros g' ?; apply Hx; by right].
      apply Hout1. rewrite <-Hlab. apply Hx. left.
    + intros pre g0 post x Heq Hx Hpost. destruct pre as [|g1 pre]; simplify_eq/=.
      * rewrite Hout' by done. by apply Hin1.
      * by eapply Hlast'.
Qed.
End scanning.

(** ** The second loop on well-formed values *)

Section crossing.
Context {V : Type} `{!Inhabited V}.
Implicit Types (t : torch.Tensor V) (d : dict) (o : SetOrder).
Implicit Types (doms doms_in missing : list string).

Lemma unsqueeze_shape (sh : list nat) k v :
  k ≤ length sh →
  <[k := v]> (take k sh ++ 1 :: drop k sh) = take k sh ++ v :: drop k sh.
Proof.
  intros Hk. rewrite insert_app_r_alt; rewrite length_take_le by done; [|done].
  by rewrite Nat.sub_diag.
Qed.

Lemma expand_returns d missing t doms_in :
  length doms_in ≤ length (torch.shape t) →
  (∀ x, x ∈ missing → x ∈ keys d) →
  ∃ t', expand d missing t doms_in = Return (t', doms_in ++ missing) ∧
        length (torch.shape t') = length (torch.shape t) + length missing ∧
        drop (length doms_in + length missing) (torch.shape t')
          = drop (length doms_in) (torch.shape t) ∧
        (torch.well_formed t → torch.well_formed t').
Proof.
  revert t doms_in. induction missing as [|x missing IH]; intros t doms_in Hlen Hkeys.
  - exists t. simpl. rewrite app_nil_r, !Nat.add_0_r. done.
  - cbn [expand]. unfold torch.unsqueeze. rewrite decide_True by done. cbn [rbind].
    destruct (dict_getitem_returns d x) as [k ->]; [apply Hkeys; left|]. cbn [rbind].
    unfold torch.repeat_interleave. cbn [torch.shape].
    rewrite list_lookup_middle by (by rewrite length_take_le).
    cbn [rbind]. rewrite unsqueeze_shape by done.
    match goal with |- context [expand _ _ ?t2 _] => set (t2' := t2) end.
    destruct (IH t2' (doms_in ++ [x])) as (t' & -> & Hrank & Hdrop & Hwf).
    { subst t2'. simpl. rewrite !length_app, length_take_le by done. simpl.
      rewrite length_drop. lia. }
    { intros y Hy. apply Hkeys. by right. }
    exists t'. rewrite <-app_assoc. split; [done|]. split_and!.
    + rewrite Hrank. subst t2'. simpl.
      rewrite !length_app, length_take_le by done. simpl. rewrite length_drop. lia.
    + rewrite length_app in Hdrop. cbn [length] in *.
      replace (length doms_in + S (length missing))
        with (length doms_in + 1 + length missing) by lia.
      rewrite Hdrop. subst t2'. cbn [torch.shape torch.tabulate].
      rewrite drop_app_ge; rewrite length_take_le by done; [|lia].
      by replace (length doms_in + 1 - length doms_in) with 1 by lia.
    + intros _. apply Hwf. subst t2'. apply tabulate_well_formed.
Qed.

Lemma comprehension_index (l doms : list string) :
  (∀ x, x ∈ doms → x ∈ l) →
  ∃ idxs, comprehension (index l) doms = Return idxs ∧
          Forall2 (λ x i, l !! i = Some x) doms idxs.
Proof.
  induction doms as [|x doms IH]; intros Hsub.
  - exists []. by split.
  - simpl. destruct (index_elem_of l x) as (i & -> & Hi); [apply Hsub; left|].
    destruct IH as (idxs & -> & Hidxs); [intros y Hy; apply Hsub; by right|].
    exists (i :: idxs). split; [done|]. by constructor.
Qed.

Lemma NoDup_positions (l doms : list string) (idxs : list nat) :
  Forall2 (λ x i, l !! i = Some x) doms idxs → NoDup doms → NoDup idxs.
Proof.
  induction 1 as [|x i doms idxs Hi Hrest IH]; intros Hnd; [constructor|].
  apply NoDup_cons in Hnd as [Hx Hnd]. constructor; [|by apply IH].
  intros Hin. apply Hx.
  apply list_elem_of_lookup in Hin as [j Hj].
  destruct (Forall2_lookup_r _ _ _ _ _ Hrest Hj) as (y & Hy & Hyi).
  assert (y = x) as -> by congruence. by eapply list_elem_of_lookup_2.
Qed.

(** The permutation of line 169 names every axis once. *)
Lemma canonical_perm (l doms : list string) (idxs : list nat) r :
  Forall2 (λ x i, l !! i = Some x) doms idxs →
  NoDup doms → length doms = length l → length l ≤ r →
  torch.is_perm (idxs ++ seq (length l) (r - length l)) r.
Proof.
  intros Hidxs Hnd Hlen Hr. pose proof (Forall2_length _ _ _ Hidxs) as Hlen'.
  assert (Forall (λ i, i < length l) idxs) as Hlt.
  { apply Forall_forall. intros i Hi.
    apply list_elem_of_lookup in Hi as [j Hj].
    destruct (Forall2_lookup_r _ _ _ _ _ Hidxs Hj) as (y & _ & Hy).
    by eapply lookup_lt_Some. }
  unfold torch.is_perm. split_and!.
  - rewrite length_app, length_seq. lia.
  - apply Forall_app. split.
    + eapply Forall_impl; [exact Hlt|]. simpl. lia.
    + apply Forall_forall. intros i Hi%elem_of_seq. lia.
  - apply NoDup_app. split_and!.
    + by eapply NoDup_positions.
    + intros i Hi Hi'%elem_of_seq.
      rewrite Forall_forall in Hlt. specialize (Hlt i Hi). lia.
    + apply NoDup_seq.
Qed.

Lemma lookup_total_seq_drop (sh : list nat) k :
  (λ p, sh !!! p) <$> seq k (length sh - k) = drop k sh.
Proof.
  apply list_eq. intros i. rewrite list_lookup_fmap, lookup_drop.
  destruct (decide (i < length sh - k)) as [Hi|Hi].
  - rewrite lookup_seq_lt by done. simpl.
    destruct (lookup_lt_is_Some_2 sh (k + i)) as [n Hn]; [lia|].
    by rewrite (list_lookup_total_correct _ _ _ Hn).
  - rewrite (lookup_ge_None_2 (seq _ _)) by (rewrite length_seq; lia).
    rewrite lookup_ge_None_2; [done|lia].
Qed.

(** Flattening: [reshape] with [-1] in front of the value axes. *)
Lemma reshape_flatten t k :
  torch.well_formed t →
  Forall (λ n, 0 < n) (drop k (torch.shape t)) →
  torch.reshape t ((-1)%Z :: (Z.of_nat <$> drop k (torch.shape t)))
  = Return (torch.mk (torch.numel (take k (torch.shape t)) :: drop k (torch.shape t))
              (torch.data t)).
Proof.
  intros Hwf Hpos. unfold torch.reshape, torch.infer_size.
  set (tr := drop k (torch.shape t)) in *.
  assert (filter (λ z, (0 ≤ z)%Z) ((-1)%Z :: (Z.of_nat <$> tr)) = Z.of_nat <$> tr) as ->.
  { rewrite filter_cons_False by lia. induction tr as [|n tr IH]; [done|].
    rewrite fmap_cons, filter_cons_True by lia. f_equal. apply IH.
    by apply Forall_cons in Hpos as [_ ?]. }
  assert (filter (λ z, z = (-1)%Z) ((-1)%Z :: (Z.of_nat <$> tr)) = [(-1)%Z]) as ->.
  { rewrite filter_cons_True by done. f_equal. clear Hpos.
    induction tr as [|n tr IH]; [done|].
    rewrite fmap_cons, filter_cons_False by lia. done. }
  assert (Z.to_nat <$> (Z.of_nat <$> tr) = tr) as Htr.
  { rewrite <-list_fmap_compose. rewrite <-(list_fmap_id tr) at 2.
    apply list_fmap_ext. intros ? n _. simpl. lia. }
  rewrite Htr. rewrite decide_False; cycle 1.
  { intros [Hneg|Hneg]%Exists_cons; [lia|].
    apply Exists_exists in Hneg as (z & (n & -> & _)%list_elem_of_fmap & ?). lia. }
  simpl length. cbv iota.
  assert (length (torch.data t) = torch.numel (take k (torch.shape t)) * torch.numel tr)
    as Hn.
  { rewrite Hwf. rewrite <-(take_drop k (torch.shape t)) at 1. by rewrite numel_app. }
  pose proof (numel_pos tr Hpos) as Htrpos.
  rewrite decide_True; cycle 1.
  { split; [done|]. rewrite Hn. by apply Nat.Div0.mod_mul. }
  cbn [rbind]. rewrite fmap_cons, decide_True by done.
  rewrite Hn, Nat.div_mul by lia.
  do 3 f_equal. rewrite <-Htr at 2. rewrite <-!list_fmap_compose.
  apply list_fmap_ext. intros ? n _. simpl. rewrite decide_False by lia. done.
Qed.
Lemma set_difference_spec o doms doms_in :
  NoDup doms →
  NoDup (set_difference o doms doms_in) ∧
  ∀ x, x ∈ set_difference o doms doms_in ↔ x ∈ doms ∧ x ∉ doms_in.
Proof.
  intros Hnd. unfold set_difference.
  pose proof (set_iter_perm o (list_difference (remove_dups doms) doms_in)) as Hp.
  split.
  - rewrite Hp. apply NoDup_list_difference, NoDup_remove_dups.
  - intros x. rewrite Hp, list_elem_of_difference, elem_of_remove_dups. done.
Qed.

Lemma permute_value_axes t (idxs : list nat) k :
  length idxs = k → k ≤ length (torch.shape t) →
  drop k ((λ p, torch.shape t !!! p) <$>
            (idxs ++ seq k (length (torch.shape t) - k)))
  = drop k (torch.shape t).
Proof.
  intros Hk Hle. rewrite fmap_app, drop_app_ge by (rewrite length_fmap; lia).
  rewrite length_fmap, Hk, Nat.sub_diag. apply lookup_total_seq_drop.
Qed.

(** On a well-formed grounding the second loop's body returns: the value
    axes stay where they are, behind one axis per canonical domain. *)
Lemma cross_value_returns o d fl doms_in t :
  NoDup (keys d) → NoDup doms_in →
  (∀ x, x ∈ doms_in → x ∈ keys d) →
  length doms_in ≤ length (torch.shape t) →
  (fl = true → torch.well_formed t ∧
               Forall (λ n, 0 < n) (drop (length doms_in) (torch.shape t))) →
  ∃ t', cross_value o d (keys d) fl doms_in t = Return t' ∧
        (fl = false →
           length (torch.shape t')
             = length (keys d) + (length (torch.shape t) - length doms_in) ∧
           drop (length (keys d)) (torch.shape t')
             = drop (length doms_in) (torch.shape t)).
Proof.
  intros Hd Hnd Hsub Hlen Hfl. unfold cross_value.
  destruct (set_difference_spec o (keys d) doms_in Hd) as [Hmnd Hm].
  set (missing := set_difference o (keys d) doms_in) in *.
  destruct (expand_returns d missing t doms_in Hlen) as (t1 & -> & Hrank & Hdrop & Hwf).
  { intros x Hx. by apply Hm in Hx as [? _]. }
  cbn [rbind].
  assert (doms_in ++ missing ≡ₚ keys d) as Hperm.
  { apply NoDup_Permutation; [|done|].
    - apply NoDup_app. split_and!; [done| |done]. intros x Hx Hx'. by apply Hm in Hx' as [_ ?].
    - intros x. rewrite elem_of_app, Hm. split; [intros [?|[? _]]; auto|].
      intros Hx. destruct (decide (x ∈ doms_in)); auto. }
  destruct (comprehension_index (doms_in ++ missing) (keys d)) as (idxs & -> & Hidxs).
  { intros x Hx. by rewrite Hperm. }
  cbn [rbind].
  assert (length (keys d) = length (doms_in ++ missing)) as Hlen'.
  { by rewrite Hperm. }
  assert (length (doms_in ++ missing) ≤ length (torch.shape t1)) as Hle.
  { rewrite length_app. lia. }
  pose proof (canonical_perm _ _ _ (length (torch.shape t1)) Hidxs Hd Hlen' Hle) as Hp.
  unfold torch.permute. rewrite decide_True by done. cbn [rbind].
  pose proof (Forall2_length _ _ _ Hidxs) as Hidxlen.
  assert (drop (length (doms_in ++ missing))
            ((λ p, torch.shape t1 !!! p) <$>
               (idxs ++ seq (length (doms_in ++ missing))
                          (length (torch.shape t1) - length (doms_in ++ missing))))
          = drop (length doms_in) (torch.shape t)) as Haxes.
  { rewrite permute_value_axes by (done || lia).
    rewrite length_app. done. }
  destruct fl.
  - destruct Hfl as [Hwft Hpos]; [done|].
    eexists. split; [|done].
    rewrite reshape_flatten; [done|apply tabulate_well_formed|].
    cbn [torch.shape torch.tabulate]. by rewrite Haxes.
  - eexists. split; [done|]. intros _. cbn [torch.shape torch.tabulate].
    rewrite length_fmap, length_app, length_seq. split.
    + rewrite length_app in *. lia.
    + rewrite Hlen'. exact Haxes.
Qed.
End crossing.

(** ** Values the engine computes in the two-operand cases *)

Section small_cases.
Context {V : Type} `{!Inhabited V}.
Implicit Types (t : torch.Tensor V) (o : SetOrder) (f : list nat → V).

Lemma position_seq r a : a < r → torch.position (seq 0 r) a = a.
Proof.
  intros Ha. unfold torch.position.
  assert (list_find (a =.) (seq 0 r) = Some (a, a)) as ->; [|done].
  apply list_find_Some. split_and!; [by apply lookup_seq_lt|done|].
  intros j y [-> _]%lookup_seq. lia.
Qed.

(** Permuting with the identity gives the tensor back. *)
Lemma permute_id t :
  torch.well_formed t → torch.permute t (seq 0 (length (torch.shape t))) = Return t.
Proof.
  intros Hwf. unfold torch.permute. rewrite decide_True; cycle 1.
  { split_and!; [by rewrite length_seq| |apply NoDup_seq].
    apply Forall_forall. intros i Hi%elem_of_seq. lia. }
  f_equal.
  pose proof (lookup_total_seq_drop (torch.shape t) 0) as Hsh.
  rewrite Nat.sub_0_r, drop_0 in Hsh. rewrite Hsh.
  transitivity (torch.tabulate (torch.shape t) (torch.item t)); [|by apply tabulate_item].
  apply tabulate_ext. intros idx Hidx. f_equal.
  rewrite length_seq. pose proof (Forall2_length _ _ _ Hidx) as Hlen.
  rewrite <-Hlen. apply list_eq. intros i. rewrite list_lookup_fmap.
  destruct (decide (i < length idx)) as [Hi|Hi].
  - rewrite lookup_seq_lt by done. simpl. rewrite position_seq by done.
    destruct (lookup_lt_is_Some_2 idx i Hi) as [x Hx].
    by rewrite Hx, (list_lookup_total_correct _ _ _ Hx).
  - rewrite (lookup_ge_None_2 (seq _ _)) by (rewrite length_seq; lia).
    rewrite lookup_ge_None_2; [done|lia].
Qed.

(** Row [i] of a tabulated tensor. *)
Lemma row_tabulate m sh f i :
  i < m →
  torch.getitem (torch.tabulate (m :: sh) f) i
  = Return (torch.tabulate sh (λ idx, f (i :: idx))).
Proof.
  intros Hi. unfold torch.getitem, torch.tabulate. cbn [torch.shape torch.data].
  rewrite decide_True by done. do 2 f_equal.
  apply list_eq. intros j. cbn [torch.indices].
  destruct (decide (j < torch.numel sh)) as [Hj|Hj].
  - rewrite lookup_take_lt, lookup_drop, !list_lookup_fmap by done.
    rewrite (lookup_blocks _ _ (torch.numel sh) i j i); [| |by apply lookup_seq_lt|done].
    + by rewrite list_lookup_fmap, <-option_fmap_compose.
    + intros y _. by rewrite length_fmap, length_indices.
  - rewrite lookup_take_ge by lia.
    rewrite lookup_ge_None_2; [done|]. rewrite length_fmap, length_indices. lia.
Qed.

Lemma reshape_leading n sh (dt : list V) :
  length dt = torch.numel (n :: sh) → Forall (λ k, 0 < k) sh →
  torch.reshape (torch.mk (n :: sh) dt)
    ((-1)%Z :: (Z.of_nat <$> drop 1 (n :: sh)))
  = Return (torch.mk (n :: sh) dt).
Proof.
  intros Hwf Hpos.
  pose proof (reshape_flatten (torch.mk (n :: sh) dt) 1 Hwf Hpos) as Hr.
  cbn [torch.shape torch.data] in Hr. rewrite Hr. simpl.
  by rewrite Nat.mul_1_r.
Qed.

(** A grounding that already has the only domain comes back as it is,
    flattened or not. *)
Lemma cross_value_present o lx k fl n sh (dt : list V) :
  length dt = torch.numel (n :: sh) →
  (fl = true → Forall (λ k, 0 < k) sh) →
  cross_value o [(lx, k)] [lx] fl [lx] (torch.mk (n :: sh) dt)
  = Return (torch.mk (n :: sh) dt).
Proof.
  intros Hwf Hfl. unfold cross_value.
  assert (set_difference o [lx] [lx] = []) as ->.
  { apply Permutation_nil_r. unfold set_difference.
    rewrite set_iter_perm. simpl.
    destruct (decide_rel elem_of lx [lx]) as [|Hn]; [done|]. destruct Hn. left. }
  cbn [expand rbind comprehension]. unfold index. simpl.
  rewrite decide_True by done. cbn [rbind fmap]. simpl. rewrite Nat.sub_0_r.
  change (0 :: seq 1 (length sh))
    with (seq 0 (length (torch.shape (torch.mk (n :: sh) dt)))).
  rewrite permute_id by done. cbn [rbind].
  destruct fl; [|done]. apply reshape_leading; auto.
Qed.

(** A grounding without domains is tiled along the only domain. *)
Lemma cross_value_constant o lx n fl t :
  (fl = true → Forall (λ k, 0 < k) (torch.shape t)) →
  cross_value o [(lx, n)] [lx] fl [] t = Return (tile n t).
Proof.
  intros Hfl. unfold cross_value.
  assert (set_difference o [lx] [] = [lx]) as ->.
  { apply Permutation_singleton_r. unfold set_difference. by rewrite set_iter_perm. }
  cbn [expand rbind]. unfold torch.unsqueeze. simpl.
  rewrite decide_True by done. cbn [rbind].
  unfold torch.repeat_interleave. cbn [torch.shape]. simpl.
  unfold index. simpl. rewrite decide_True by done. simpl.
  rewrite ?Nat.add_0_r, ?Nat.sub_0_r, !drop_0.
  change (0 :: seq 1 (length (torch.shape t)))
    with (seq 0 (length (torch.shape (tile n t)))).
  fold (tile n t). rewrite permute_id by apply tabulate_well_formed. cbn [rbind].
  destruct fl; [|done]. unfold tile, torch.tabulate.
  apply reshape_leading; [|auto].
  by rewrite length_fmap, length_indices.
Qed.

Lemma tile_rows n t i :
  torch.well_formed t → i < n → torch.getitem (tile n t) i = Return t.
Proof.
  intros Hwf Hi. unfold tile. rewrite row_tabulate by done. f_equal.
  transitivity (torch.tabulate (torch.shape t) (torch.item t)); [|by apply tabulate_item].
  apply tabulate_ext. intros idx Hidx.
  simpl. unfold torch.item. simpl. by rewrite Nat.div_small.
Qed.
End small_cases.

(** ** [cross_grounding_values] on well-formed groundings *)

Section engine.
Context {V : Type} `{!Inhabited V}.
Local Abbreviation preserves := (preserves (V:=V)).
Local Abbreviation frames := (frames (V:=V)).
Local Abbreviation fresh := (fresh (V:=V)).
Local Abbreviation ends_with := (ends_with (V:=V)).
Implicit Types (s : State (V:=V)) (h : list (Object (V:=V))) (ob : Object (V:=V)).
Implicit Types (g n : nat) (o : SetOrder) (x : string).

Lemma Forall2_of_Forall {A B} (Q : A → B → Prop) (l : list A) :
  Forall (λ a, ∃ b, Q a b) l → ∃ k, Forall2 Q l k.
Proof.
  induction 1 as [|a l [b Hb] _ [k Hk]]; [by exists []|].
  exists (b :: k). by constructor.
Qed.

Lemma cross_grounding_values_returns o gs fl s :
  groundings_ok (heap s) gs →
  (fl = true → flattenable (heap s) gs) →
  ∃ d crossed s',
    scan_value (heap s) gs [] = Return d ∧
    NoDup (keys d) ∧
    cross_grounding_values o gs fl s = (Return (crossed, keys d, values d), s') ∧
    preserves (length (heap s)) s s' ∧
    length crossed = length gs ∧
    Forall (λ g', length (heap s) ≤ g' ∧
              ∃ ob, heap s' !! g' = Some ob ∧
                    active_doms ob = if fl then None else Some (keys d)) crossed.
Proof.
  intros Hok Hfl.
  destruct (scan_value_spec (heap s) gs [] Hok) as (d & Hd & Hnd & Hkeys & _ & _).
  specialize (Hnd (NoDup_nil_2)).
  assert (∃ ts, Forall2 (λ g t', ∃ ob ad, heap s !! g = Some ob ∧
              active_doms ob = Some ad ∧
              cross_value o d (keys d) fl ad (value ob) = Return t') gs ts) as [ts Hts].
  { apply Forall2_of_Forall. apply Forall_forall. intros g Hg.
    unfold groundings_ok in Hok. rewrite Forall_forall in Hok.
    destruct (Hok g Hg) as (ob & Hob & doms & Had & Hdnd & Hlen & Hwf).
    destruct (cross_value_returns o d fl doms (value ob)) as (t' & Ht' & _);
      [done|done| |done| |].
    - intros x Hx. apply Hkeys. right. exists g. split; [done|].
      unfold labels. by rewrite Hob, Had.
    - intros ->. split; [done|]. specialize (Hfl eq_refl).
      unfold flattenable in Hfl. rewrite Forall_forall in Hfl.
      specialize (Hfl g Hg ob Hob). unfold value_axes in Hfl. by rewrite Had in Hfl.
    - by exists t', ob, doms. }
  destruct (cross_grounding_values_spec o gs fl s d ts Hd Hts)
    as (crossed & s' & Hrun & Hpre & Hcr).
  exists d, crossed, s'. split_and!; [done..| |].
  - by rewrite (Forall2_length _ _ _ Hcr), (Forall2_length _ _ _ Hts).
  - clear -Hcr. induction Hcr as [|g' t' crossed ts [Hg' Hob] _ IH]; constructor; [|done].
    split; [done|]. eauto.
Qed.
End engine.

(** ** The claims about the cross-product engine *)

Section engine_claims.
Context {V : Type} `{!Inhabited V}.
Local Abbreviation preserves := (preserves (V:=V)).
Local Abbreviation frames := (frames (V:=V)).
Local Abbreviation fresh := (fresh (V:=V)).
Local Abbreviation ends_with := (ends_with (V:=V)).
Implicit Types (s : State (V:=V)) (h : list (Object (V:=V))) (ob : Object (V:=V)).
Implicit Types (g n : nat) (o : SetOrder) (x lx : string).

(** C2, as the code has it.  No count is ever compared with another one:
    on every list of well-formed groundings, also one that binds a label
    to two different counts, [cross_grounding_values] returns one output
    per input, and the count it reports for a label is the one of the last
    grounding that carries the label.  With [flatten_dim0=True] this is for
    groundings whose value axes have no size 0, on which [torch.reshape]
    can infer [-1]. *)
Theorem cross_grounding_values_last_count o gs fl s :
  groundings_ok (heap s) gs →
  (fl = true → flattenable (heap s) gs) →
  ∃ crossed doms dims0 s',
    cross_grounding_values o gs fl s = (Return (crossed, doms, dims0), s') ∧
    length crossed = length gs ∧
    ∀ pre g post x i,
      gs = pre ++ g :: post → x ∈ labels (heap s) g →
      (∀ g', g' ∈ post → x ∉ labels (heap s) g') →
      doms !! i = Some x →
      ∃ k, dims0 !! i = Some k ∧ get_dim0_of_dom g x s = (Return k, s).
Proof.
  intros Hok Hfl.
  destruct (cross_grounding_values_returns o gs fl s Hok Hfl)
    as (d & crossed & s' & Hd & Hnd & Hrun & _ & Hlen & _).
  exists crossed, (keys d), (values d), s'. split_and!; [done..|].
  intros pre g post x i Hgs Hx Hpost Hi.
  destruct (scan_value_spec (heap s) gs [] Hok) as (d' & Hd' & _ & _ & _ & Hlast).
  assert (d' = d) as -> by congruence.
  destruct (values_lookup d i x Hnd Hi) as (k & Hk & Hget).
  exists k. split; [done|].
  rewrite get_dim0_of_dom_run. f_equal.
  rewrite <-(Hlast pre g post x Hgs Hx Hpost). done.
Qed.

(** C3, as the code has it.  On well-formed groundings the call returns
    one object per input; without flattening each of them carries
    [active_doms] equal to the canonical domain list; with flattening each
    of them is the result of [torch.reshape] and carries no [active_doms],
    the canonical list being returned next to them. *)
Theorem cross_grounding_values_active_doms o gs fl s :
  groundings_ok (heap s) gs →
  (fl = true → flattenable (heap s) gs) →
  ∃ crossed doms dims0 s',
    cross_grounding_values o gs fl s = (Return (crossed, doms, dims0), s') ∧
    length crossed = length gs ∧
    Forall (λ g', ∃ ob, heap s' !! g' = Some ob ∧
                        active_doms ob = if fl then None else Some doms) crossed.
Proof.
  intros Hok Hfl.
  destruct (cross_grounding_values_returns o gs fl s Hok Hfl)
    as (d & crossed & s' & _ & _ & Hrun & _ & Hlen & Hattr).
  exists crossed, (keys d), (values d), s'. split_and!; [done..|].
  eapply Forall_impl; [exact Hattr|]. by intros g' [_ ?].
Qed.

(** C9.  Whatever the call returns or raises, every object of the initial
    store, so every input grounding with its data, its shape and its
    [active_doms], is in the final store as it was; and every reference
    of the returned list is an object the call allocated, absent from the
    initial store. *)
Theorem cross_grounding_values_leaves_inputs o gs fl s :
  (∀ g ob, heap s !! g = Some ob →
           heap (cross_grounding_values o gs fl s).2 !! g = Some ob) ∧
  (∀ crossed doms dims0,
     (cross_grounding_values o gs fl s).1 = Return (crossed, doms, dims0) →
     Forall (λ g', heap s !! g' = None ∧
                   is_Some (heap (cross_grounding_values o gs fl s).2 !! g'))
       crossed).
Proof.
  split.
  - intros g ob Hg. eapply preserves_lookup; [|done].
    assert (frames (length (heap s)) (cross_grounding_values (V:=V) o gs fl)) as Hfr;
      [|by apply Hfr].
    apply frames_bind; [apply frames_scan_doms|]. intros d.
    apply frames_bind; [|intros; apply frames_ret].
    apply frames_for_each. intros acc g0.
    apply frames_bind; [apply frames_cross_one|]. intros; apply frames_ret.
  - intros crossed doms dims0. unfold cross_grounding_values.
    rewrite bind_run, scan_doms_run.
    destruct (scan_value (heap s) gs []) as [|d]; [done|].
    rewrite bind_run.
    pose proof (collect_loop o d (keys d) fl (λ _, True) gs s s []) as Hloop.
    destruct (for_each gs _ [] s) as [[e|l] s'] eqn:Hrun; [done|].
    simpl in *. intros [= -> _ _].
    destruct (Hloop) with (l := crossed) as [Hcol _]; [| |constructor|done|].
    { intros g s0 g' Hg'.
      destruct (ends_with_cross_one o d (keys d) fl g s0 g' Hg') as (ob & ? & _). eauto. }
    { done. }
    eapply Forall_impl; [exact Hcol|]. simpl. intros g' (Hg' & ob & Hob & _).
    split; [by apply lookup_ge_None_2|]. eauto.
Qed.

(** The engine reads [active_doms] off every input: a tensor the attribute
    was never attached to, such as the [grounding] the constructors of
    [Constant] and [Variable] store, makes the call raise. *)
Lemma cross_grounding_values_needs_active_doms o g gs fl s ob :
  heap s !! g = Some ob → active_doms ob = None →
  (cross_grounding_values o (g :: gs) fl s).1 = Raise AttributeError.
Proof.
  intros Hg Had. unfold cross_grounding_values.
  rewrite bind_run, scan_doms_run. simpl. by rewrite Hg, Had.
Qed.

Lemma dim0_value_single h g ob lx n sh :
  h !! g = Some ob → active_doms ob = Some [lx] →
  torch.shape (value ob) = n :: sh → dim0_value h g lx = Return n.
Proof.
  intros Hg Had Hsh. unfold dim0_value, index. rewrite Hg, Had. simpl.
  rewrite decide_True by done. simpl. unfold torch.size. by rewrite Hsh.
Qed.

(** C4.  Passing the grounding of a variable twice returns, with one
    canonical domain, one count, and two copies of the grounding, each with
    its single axis of size [n] for the label: no second axis appears and
    nothing is raised, with and without flattening. *)
Theorem same_grounding_twice o fl s g ob lx n sh :
  heap s !! g = Some ob →
  active_doms ob = Some [lx] →
  torch.shape (value ob) = n :: sh →
  torch.well_formed (value ob) →
  (fl = true → Forall (λ k, 0 < k) sh) →
  ∃ g1 g2 s',
    cross_grounding_values o [g; g] fl s = (Return ([g1; g2], [lx], [n]), s') ∧
    heap s' !! g1
      = Some {| value := value ob; active_doms := if fl then None else Some [lx] |} ∧
    heap s' !! g2
      = Some {| value := value ob; active_doms := if fl then None else Some [lx] |}.
Proof.
  intros Hg Had Hsh Hwf Hfl.
  assert (scan_value (heap s) [g; g] [] = Return [(lx, n)]) as Hd.
  { simpl. rewrite Hg, Had. simpl.
    rewrite (dim0_value_single _ _ _ _ _ _ Hg Had Hsh). simpl.
    by rewrite decide_True. }
  destruct (cross_grounding_values_spec o [g; g] fl s [(lx, n)] [value ob; value ob] Hd)
    as (crossed & s' & Hrun & _ & Hcr).
  { assert (cross_value o [(lx, n)] [lx] fl [lx] (value ob) = Return (value ob)) as Hv.
    { destruct (value ob) as [shp dt]. simpl in Hsh. subst shp.
      by apply cross_value_present. }
    repeat constructor; by exists ob, [lx]. }
  apply Forall2_cons_inv_r in Hcr as (g1 & crossed1 & [_ Hg1] & Hcr & ->).
  apply Forall2_cons_inv_r in Hcr as (g2 & crossed2 & [_ Hg2] & Hcr & ->).
  apply Forall2_nil_inv_r in Hcr as ->.
  by exists g1, g2, s'.
Qed.

(** C5.  Broadcasting a grounding without active domains together with
    the grounding of a variable of [n] individuals, in either order, tiles
    the constant.  The call returns two outputs, in the order of the
    inputs: the output at the place of the constant has shape
    [(n, *constant_shape)] and each of its [n] rows is the constant; the
    output at the place of the variable has the value of the variable. *)
Theorem constant_is_tiled o fl s c v obc obv lx n sh :
  heap s !! c = Some obc → active_doms obc = Some [] →
  torch.well_formed (value obc) →
  heap s !! v = Some obv → active_doms obv = Some [lx] →
  torch.shape (value obv) = n :: sh → torch.well_formed (value obv) →
  (fl = true → Forall (λ k, 0 < k) (torch.shape (value obc)) ∧
               Forall (λ k, 0 < k) sh) →
  let tiled s' gc gv :=
    ∃ obc' obv',
      heap s' !! gc = Some obc' ∧ heap s' !! gv = Some obv' ∧
      torch.shape (value obc') = n :: torch.shape (value obc) ∧
      (∀ i, i < n → torch.getitem (value obc') i = Return (value obc)) ∧
      value obv' = value obv in
  (∃ gc gv s',
     cross_grounding_values o [c; v] fl s = (Return ([gc; gv], [lx], [n]), s') ∧
     tiled s' gc gv) ∧
  (∃ gc gv s',
     cross_grounding_values o [v; c] fl s = (Return ([gv; gc], [lx], [n]), s') ∧
     tiled s' gc gv).
Proof.
  intros Hc Hcd Hcwf Hv Hvd Hsh Hvwf Hfl tiled.
  assert (∀ gs, gs = [c; v] ∨ gs = [v; c] →
            scan_value (heap s) gs [] = Return [(lx, n)]) as Hd.
  { intros gs [-> | ->]; simpl; rewrite Hc, Hcd, Hv, Hvd; simpl;
      by rewrite (dim0_value_single _ _ _ _ _ _ Hv Hvd Hsh). }
  assert (cross_value o [(lx, n)] [lx] fl [] (value obc) = Return (tile n (value obc)))
    as Hvc.
  { apply cross_value_constant. intros ->. by apply Hfl. }
  assert (cross_value o [(lx, n)] [lx] fl [lx] (value obv) = Return (value obv)) as Hvv.
  { destruct (value obv) as [shp dt]. simpl in Hsh. subst shp.
    apply cross_value_present; [done|]. intros ->. by apply Hfl. }
  split.
  - destruct (cross_grounding_values_spec o [c; v] fl s [(lx, n)]
                [tile n (value obc); value obv] (Hd _ (or_introl eq_refl)))
      as (crossed & s' & Hrun & _ & Hcr).
    { repeat constructor; [by exists obc, []|by exists obv, [lx]]. }
    apply Forall2_cons_inv_r in Hcr as (gc & crossed1 & [_ Hgc] & Hcr & ->).
    apply Forall2_cons_inv_r in Hcr as (gv & crossed2 & [_ Hgv] & Hcr & ->).
    apply Forall2_nil_inv_r in Hcr as ->.
    exists gc, gv, s'. split; [done|]. do 2 eexists.
    split_and!; [exact Hgc|exact Hgv|done| |done].
    intros i Hi. by apply tile_rows.
  - destruct (cross_grounding_values_spec o [v; c] fl s [(lx, n)]
                [value obv; tile n (value obc)] (Hd _ (or_intror eq_refl)))
      as (crossed & s' & Hrun & _ & Hcr).
    { repeat constructor; [by exists obv, [lx]|by exists obc, []]. }
    apply Forall2_cons_inv_r in Hcr as (gv & crossed1 & [_ Hgv] & Hcr & ->).
    apply Forall2_cons_inv_r in Hcr as (gc & crossed2 & [_ Hgc] & Hcr & ->).
    apply Forall2_nil_inv_r in Hcr as ->.
    exists gc, gv, s'. split; [done|]. do 2 eexists.
    split_and!; [exact Hgc|exact Hgv|done| |done].
    intros i Hi. by apply tile_rows.
Qed.
End engine_claims.

(** ** The claims about [Predicate] *)

Section predicate_claims.
Context {V : Type} `{!Inhabited V}.
Local Abbreviation preserves := (preserves (V:=V)).
Local Abbreviation frames := (frames (V:=V)).
Local Abbreviation fresh := (fresh (V:=V)).
Local Abbreviation ends_with := (ends_with (V:=V)).
Implicit Types (s : State (V:=V)) (o : SetOrder) (gs : list nat).

Lemma frames_cross_grounding_values n o gs fl :
  frames n (cross_grounding_values (V:=V) o gs fl).
Proof.
  apply frames_bind; [apply frames_scan_doms|]. intros d.
  apply frames_bind; [|intros; apply frames_ret].
  apply frames_for_each. intros acc g0.
  apply frames_bind; [apply frames_cross_one|]. intros; apply frames_ret.
Qed.

Lemma forward_sequence_run o model gs s :
  forward o model (ListOf gs) s =
    match cross_grounding_values o gs true s with
    | (Raise e, s') => (Raise e, s')
    | (Return _, s') => (Raise AttributeError, s')
    end
  ∧ forward o model (TupleOf gs) s = forward o model (ListOf gs) s.
Proof.
  split; [|done]. unfold forward. rewrite !bind_run.
  destruct (cross_grounding_values o gs true s) as [[e|[[crossed doms] dims0]] s']; done.
Qed.

(** C10, on the code.  Given a list or a tuple, [forward] never reaches
    the wrapped model: the trace of invocations is what it was, and no
    result is returned; when the engine returns, what is raised is the
    [AttributeError] of [inputs.shape], [inputs] being a list. *)
Theorem forward_sequence_never_calls_model o model gs s :
  (∀ inputs0, inputs0 = ListOf gs ∨ inputs0 = TupleOf gs →
     calls (forward o model inputs0 s).2 = calls s ∧
     ¬ returns (forward o model inputs0 s).1) ∧
  (returns (cross_grounding_values o gs true s).1 →
     (forward o model (ListOf gs) s).1 = Raise AttributeError ∧
     (forward o model (TupleOf gs) s).1 = Raise AttributeError).
Proof.
  destruct (forward_sequence_run o model gs s) as [Hl Ht].
  pose proof (frames_cross_grounding_values 0 o gs true s (Nat.le_0_l _)) as (_ & _ & Hc).
  split.
  - intros inputs0 Hin.
    assert (forward o model inputs0 s = forward o model (ListOf gs) s) as ->.
    { by destruct Hin as [-> | ->]. }
    rewrite Hl. destruct (cross_grounding_values o gs true s) as [[e|r] s'];
      simpl in *; (split; [done|]); by intros [? ?].
  - intros [r Hr]. rewrite Ht, Hl.
    destruct (cross_grounding_values o gs true s) as [[e|r'] s']; simpl in *; done.
Qed.
End predicate_claims.

(** C8, on the code.  [LambdaModel] is not bound in the module, so
    [Predicate.Lambda] raises [NameError] for every operator, whatever
    calling a binding would do. *)
Theorem Lambda_raises_NameError {C F} (call : binding → F → result C) (fn : F) :
  Lambda call fn = Raise NameError.
Proof.
  unfold Lambda, Lambda_body.
  assert (load_global module_globals "LambdaModel" = Raise NameError) as ->; [|done].
  unfold load_global.
  assert (list_find (λ b, b.1 = "LambdaModel") module_globals = None) as ->; [|done].
  apply list_find_None. unfold module_globals.
  repeat (apply Forall_cons_2; [simpl; discriminate|]). apply Forall_nil_2.
Qed.

(** Were a class bound to the name, the constructor would wrap what the
    class builds from the operator. *)
Lemma Lambda_body_bound {C F} (call : binding → F → result C) (fn : F) (m : C) :
  call Class fn = Return m →
  Lambda_body (("LambdaModel", Class) :: module_globals) call fn
  = Return {| model := Custom m |}.
Proof. intros Hm. unfold Lambda_body. simpl. by rewrite Hm. Qed.

(** ** The claims about [Domain] and [Variable] *)

(** C6, as the code has it.  A tuple of integers, of either sign, is stored
    with the name as given; a list of integers is refused with
    [ValueError]. *)
Theorem Domain_init_integers (l : list pyval) (name : pyval) :
  Forall (λ v, ∃ z, v = py_int z) l →
  Domain_init (py_tuple l) name = Return {| shape := py_tuple l; domain_name := name |} ∧
  Domain_init (py_list l) name = Raise ValueError.
Proof.
  intros Hl. split; [done|]. unfold Domain_init. simpl.
  assert (forallb isinstance_int l = true) as ->; [|done].
  induction Hl as [|v l [z ->] _ IH]; [done|]. simpl. exact IH.
Qed.

Section variable_claims.
Context {V : Type} `{!Inhabited V}.
Implicit Types (t : torch.Tensor V) (sh : list nat).

Lemma take_drop_blocks {A B} (f : A → list B) (l : list A) m i x :
  (∀ y, y ∈ l → length (f y) = m) → l !! i = Some x →
  take m (drop (i * m) (l ≫= f)) = f x.
Proof.
  intros Hf Hi. apply list_eq. intros j.
  destruct (decide (j < m)) as [Hj|Hj].
  - rewrite lookup_take_lt, lookup_drop by done. by apply lookup_blocks.
  - rewrite lookup_take_ge by lia. symmetry. apply lookup_ge_None_2.
    rewrite Hf; [lia|]. by eapply list_elem_of_lookup_2.
Qed.

Lemma tensor_stacks sh (inds : list (torch.Tensor V)) :
  inds ≠ [] → Forall (λ t, torch.shape t = sh) inds →
  torch.tensor inds
  = Return (torch.mk (length inds :: sh) (mjoin (torch.data <$> inds))).
Proof.
  intros Hne Hinds. destruct inds as [|t0 inds']; [done|]. unfold torch.tensor.
  assert (torch.shape t0 = sh) as Ht0 by (by apply Forall_cons in Hinds as [? _]).
  rewrite decide_True; [by rewrite Ht0|].
  eapply Forall_impl; [exact Hinds|]. simpl. by intros t ->.
Qed.

(** Outside the domain of shape [()] the constructor stacks the
    individuals.  With a name that does not start with [diag] and a
    non-empty sequence of individuals of the domain's shape, of rank one or
    more, the variable is built and axis 0 of its grounding enumerates the
    individuals: the grounding has shape [(k, *domain_shape)],
    [(1, *domain_shape)] for one individual, and its [i]-th row is the
    [i]-th individual. *)
Theorem Variable_init_stacks (name : string) (dom : Domain) sh
    (inds : list (torch.Tensor V)) :
  String.prefix "diag" name = false →
  sh ≠ [] → inds ≠ [] →
  size_eqb sh (shape dom) = true →
  Forall (λ t, torch.shape t = sh ∧ torch.well_formed t) inds →
  ∃ v, Variable_init name dom (Sequence inds) = Return v ∧
       torch.shape (grounding v) = length inds :: sh ∧
       (∀ i t, inds !! i = Some t → torch.getitem (grounding v) i = Return t) ∧
       free_variables v = [name].
Proof.
  intros Hname Hsh Hne Heq Hinds.
  unfold Variable_init. rewrite (tensor_stacks sh); [|done|]; cycle 1.
  { eapply Forall_impl; [exact Hinds|]. simpl. by intros t [? _]. }
  cbn [rbind]. unfold torch.getitem at 1. cbn [torch.shape torch.data].
  rewrite decide_True by (destruct inds; [done|simpl; lia]). cbn [rbind torch.shape].
  rewrite Heq. cbn [negb].
  rewrite decide_False; cycle 1.
  { simpl. destruct sh; [done|]. simpl. lia. }
  cbn [rbind]. rewrite Hname.
  eexists. split; [done|]. cbn [grounding free_variables torch.shape].
  split_and!; [done| |done].
  intros i t Hi. unfold torch.getitem. cbn [torch.shape torch.data].
  rewrite decide_True by (by eapply lookup_lt_Some).
  rewrite Forall_forall in Hinds.
  destruct (Hinds t) as [Hts Htwf]; [by eapply list_elem_of_lookup_2|].
  rewrite list_join_bind, (take_drop_blocks id _ (torch.numel sh) i (torch.data t)).
  - destruct t as [sht dt]. simpl in *. by subst.
  - intros y (u & -> & Hu)%list_elem_of_fmap. simpl.
    destruct (Hinds u Hu) as [<- Hwf]. exact Hwf.
  - by rewrite list_lookup_fmap, Hi.
Qed.
End variable_claims.

(** ** Evaluations at concrete inputs *)

(** On the scenario the engine pairs every [x_i] with every [y_j]: row
    [i * 2 + j] of the two flattened tensors holds [x_i] and [y_j]. *)
Example scenario_cross_product :
  ∃ s', cross_grounding_values insertion_order [0; 1] true scenario
          = (Return ([5; 9], ["x"; "y"], [3; 2]), s') ∧
        value <$> heap s' !! 5 = Some (torch.mk [6; 1] [0; 0; 1; 1; 2; 2]%Z) ∧
        value <$> heap s' !! 9 = Some (torch.mk [6; 1] [0; 1; 0; 1; 0; 1]%Z).
Proof. eexists. split; [vm_compute; reflexivity|]. by vm_compute. Qed.

(** C1, on the code.  On the scenario, with a row-wise model, [forward]
    does not return the [(3, 2)] grounding: after the engine has flattened
    the two inputs, [print(inputs.shape)] raises [AttributeError], [inputs]
    being the list of the two tensors, and the model is never invoked. *)
Theorem forward_two_variables_raises :
  (forward insertion_order (rowwise equal) (ListOf [0; 1]) scenario).1
    = Raise AttributeError ∧
  calls (forward insertion_order (rowwise equal) (ListOf [0; 1]) scenario).2 = [].
Proof. by vm_compute. Qed.

(** With one grounding [forward] does reach the model, once. *)
Example forward_one_variable :
  ∃ s', forward insertion_order (λ arg, match arg with
                                        | OneTensor g => ret g
                                        | _ => raise TypeError
                                        end)
          (OneTensor 0) scenario = (Return 4, s') ∧
        calls s' = [OneTensor 3] ∧
        active_doms <$> heap s' !! 4 = Some (Some ["x"]).
Proof. eexists. split; [vm_compute; reflexivity|]. by vm_compute. Qed.

(** C2, counterexample.  The label [x] comes with 2 individuals in the first
    grounding and with 3 in the second one; the call returns all the same,
    reporting 3. *)
Lemma rebinding_is_accepted :
  (get_dim0_of_dom 0 "x" rebinding).1 = Return 2 ∧
  (get_dim0_of_dom 1 "x" rebinding).1 = Return 3 ∧
  (cross_grounding_values insertion_order [0; 1] false rebinding).1
    = Return ([2; 3], ["x"], [3]).
Proof. by vm_compute. Qed.

(** C3, counterexample.  With [flatten_dim0=True] the tensor returned for
    [x] is object 3, the result of [torch.reshape]; the attribute was
    assigned on object 2, the result of [permute]. *)
Lemma flattened_output_lacks_active_doms :
  (cross_grounding_values insertion_order [0] true scenario).1
    = Return ([3], ["x"], [3]) ∧
  active_doms <$> heap (cross_grounding_values insertion_order [0] true scenario).2 !! 3
    = Some None ∧
  active_doms <$> heap (cross_grounding_values insertion_order [0] true scenario).2 !! 2
    = Some (Some ["x"]).
Proof. by vm_compute. Qed.

(** C6, counterexample.  [(-1,)] is not a tuple of non-negative integers,
    and [Domain((-1,), "points")] is built. *)
Lemma negative_shape_is_accepted :
  ¬ nonnegative_int_tuple (py_tuple [py_int (-1)]) ∧
  Domain_init (py_tuple [py_int (-1)]) (py_str "points")
    = Return {| shape := py_tuple [py_int (-1)]; domain_name := py_str "points" |}.
Proof.
  split; [|done]. intros (l & [= <-] & Hl).
  apply Forall_cons in Hl as [(z & [= <-] & Hz) _]. lia.
Qed.

(** Names that start with [diag] are reserved: with two individuals of
    shape [(2,)], the shape of the domain, and such a name the constructor
    raises. *)
Lemma reserved_name_is_refused :
  let dom := {| shape := py_tuple [py_int 2]; domain_name := py_str "points" |} in
  let inds := [torch.mk [2] [1; 2]%Z; torch.mk [2] [3; 4]%Z] in
  Forall (λ t, size_eqb (torch.shape t) (shape dom) = true) inds ∧
  Variable_init "diag_x" dom (Sequence inds) = Raise ValueError.
Proof. split; [by repeat constructor|done]. Qed.

(** The domain of shape [()] at a concrete input: three scalar
    individuals give a grounding of shape [(1, 3)], whose axis 0 has one
    entry. *)
Example scalar_individuals_are_one_row :
  grounding <$> match Variable_init "x" {| shape := py_tuple []; domain_name := py_str "reals" |}
                        (Sequence [torch.mk [] [1%Z]; torch.mk [] [2%Z]; torch.mk [] [3%Z]]) with
                | Return v => Some v
                | Raise _ => None
                end
  = Some (torch.mk [1; 3] [1; 2; 3]%Z).
Proof. reflexivity. Qed.

(** ** The theorems at concrete inputs *)

Lemma cross_grounding_values_last_count_witness :
  groundings_ok (heap rebinding) [0; 1] ∧
  ∃ crossed doms dims0 s',
    cross_grounding_values insertion_order [0; 1] false rebinding
      = (Return (crossed, doms, dims0), s') ∧
    (doms !! 0 = Some "x" → dims0 !! 0 = Some 3).
Proof.
  assert (groundings_ok (heap rebinding) [0; 1]) as Hok by concrete_groundings.
  split; [exact Hok|].
  destruct (cross_grounding_values_last_count insertion_order [0; 1] false rebinding Hok)
    as (crossed & doms & dims0 & s' & Hrun & _ & Hlast); [done|].
  exists crossed, doms, dims0, s'. split; [exact Hrun|]. intros Hx.
  destruct (Hlast [0] 1 [] "x" 0 eq_refl) as (k & Hk & Hdim); [left|by intros ? ?%elem_of_nil|exact Hx|].
  rewrite Hk. f_equal. vm_compute in Hdim. congruence.
Defined.

Lemma cross_grounding_values_active_doms_witness :
  groundings_ok (heap scenario) [0; 1] ∧ flattenable (heap scenario) [0; 1] ∧
  ∃ crossed doms dims0 s',
    cross_grounding_values insertion_order [0; 1] true scenario
      = (Return (crossed, doms, dims0), s') ∧
    length crossed = 2 ∧
    Forall (λ g', ∃ ob, heap s' !! g' = Some ob ∧ active_doms ob = None) crossed.
Proof.
  assert (groundings_ok (heap scenario) [0; 1]) as Hok by concrete_groundings.
  assert (true = true → flattenable (heap scenario) [0; 1]) as Hfl by concrete_axes.
  split; [exact Hok|]. split; [by apply Hfl|].
  exact (cross_grounding_values_active_doms insertion_order [0; 1] true scenario Hok Hfl).
Defined.

Lemma same_grounding_twice_witness :
  ∃ g1 g2 s',
    cross_grounding_values insertion_order [0; 0] true scenario
      = (Return ([g1; g2], ["x"], [3]), s') ∧
    value <$> heap s' !! g1 = Some (torch.mk [3; 1] [0; 1; 2]%Z) ∧
    value <$> heap s' !! g2 = Some (torch.mk [3; 1] [0; 1; 2]%Z).
Proof.
  destruct (same_grounding_twice insertion_order true scenario 0
              (zobj [3; 1] [0; 1; 2]%Z ["x"]) "x" 3 [1])
    as (g1 & g2 & s' & Hrun & H1 & H2);
    [reflexivity|reflexivity|reflexivity|reflexivity|intros _; repeat constructor|].
  exists g1, g2, s'. split; [exact Hrun|]. by rewrite H1, H2.
Defined.

Lemma constant_is_tiled_witness :
  ∃ gc gv s' obc' obv',
    cross_grounding_values insertion_order [0; 1] false constant_and_variable
      = (Return ([gc; gv], ["x"], [3]), s') ∧
    heap s' !! gc = Some obc' ∧ heap s' !! gv = Some obv' ∧
    torch.shape (value obc') = [3; 2] ∧
    (∀ i, i < 3 → torch.getitem (value obc') i = Return (torch.mk [2] [7; 8]%Z)) ∧
    value obv' = torch.mk [3; 1] [0; 1; 2]%Z.
Proof.
  destruct (constant_is_tiled insertion_order false constant_and_variable 0 1
              (zobj [2] [7; 8]%Z []) (zobj [3; 1] [0; 1; 2]%Z ["x"]) "x" 3 [1])
    as [(gc & gv & s' & Hrun & obc' & obv' & Hgc & Hgv & Hsh & Hrows & Hval) _];
    [reflexivity|reflexivity|reflexivity|reflexivity|reflexivity|reflexivity|reflexivity
    |done|].
  exists gc, gv, s', obc', obv'. split_and!; done.
Defined.

Lemma Domain_init_integers_witness :
  Forall (λ v, ∃ z, v = py_int z) [py_int 3; py_int (-4)] ∧
  Domain_init (py_tuple [py_int 3; py_int (-4)]) (py_str "points")
    = Return {| shape := py_tuple [py_int 3; py_int (-4)];
                domain_name := py_str "points" |} ∧
  Domain_init (py_list [py_int 3; py_int (-4)]) (py_str "points") = Raise ValueError.
Proof.
  assert (Forall (λ v, ∃ z, v = py_int z) [py_int 3; py_int (-4)]) as Hl.
  { repeat constructor; by eexists. }
  split; [exact Hl|]. exact (Domain_init_integers _ (py_str "points") Hl).
Defined.

Lemma Variable_init_stacks_witness :
  ∃ v, Variable_init "x" {| shape := py_tuple [py_int 2]; domain_name := py_str "points" |}
         (Sequence [torch.mk [2] [1; 2]%Z; torch.mk [2] [3; 4]%Z]) = Return v ∧
       torch.shape (grounding v) = [2; 2] ∧
       torch.getitem (grounding v) 1 = Return (torch.mk [2] [3; 4]%Z).
Proof.
  destruct (Variable_init_stacks "x"
              {| shape := py_tuple [py_int 2]; domain_name := py_str "points" |} [2]
              [torch.mk [2] [1; 2]%Z; torch.mk [2] [3; 4]%Z])
    as (v & Hv & Hsh & Hrows & _);
    [reflexivity|done|done|reflexivity|by repeat constructor|].
  exists v. split; [exact Hv|]. split; [exact Hsh|]. by apply Hrows.
Defined.

(** ** [Predicate.MLP] *)

Lemma MLP_loop (dims pre : list nat) (a : nat) (rest : list nat) (acc : list Layer) :
  dims = pre ++ a :: rest →
  foldl (λ layers i,
           let layers := layers ++ [Linear (dims !!! (i - 1)) (dims !!! i)] in
           if decide (i ≠ length dims - 1)
           then layers ++ [ELU] else layers ++ [Sigmoid])
        acc (seq (S (length pre)) (length rest))
  = acc ++ feed_forward (a :: rest).
Proof.
  revert pre a acc. induction rest as [|b rest IH]; intros pre a acc Hdims.
  - simpl. by rewrite app_nil_r.
  - cbn [length seq foldl].
    replace (S (S (length pre))) with (S (length (pre ++ [a])))
      by (rewrite length_app; simpl; lia).
    rewrite (IH (pre ++ [a]) b) by (by rewrite <-app_assoc).
    cbn [Nat.sub]. rewrite Nat.sub_0_r.
    assert (dims !!! length pre = a) as ->.
    { subst dims. by rewrite list_lookup_total_middle. }
    assert (dims !!! S (length pre) = b) as ->.
    { rewrite Hdims. change (pre ++ a :: b :: rest) with (pre ++ [a] ++ b :: rest).
      rewrite app_assoc. apply list_lookup_total_middle. rewrite length_app. simpl. lia. }
    assert (length dims - 1 = S (length pre) + length rest) as ->.
    { subst dims. rewrite length_app. simpl. lia. }
    cbn [feed_forward]. destruct rest as [|c rest].
    + rewrite decide_False by (simpl; lia). by rewrite <-!app_assoc.
    + rewrite decide_True by (simpl; lia). by rewrite <-!app_assoc.
Qed.

(** The second half of C8 holds of the code: [MLP] builds that network. *)
Lemma MLP_layers {C} (layer_dims : list nat) :
  model (MLP (C:=C) layer_dims) = Sequential (feed_forward layer_dims).
Proof.
  unfold MLP. cbn [model]. f_equal. destruct layer_dims as [|a rest]; [done|].
  etrans; [|exact (MLP_loop (a :: rest) [] a rest [] eq_refl)].
  do 2 f_equal. simpl. lia.
Qed.

(** * Further properties of the code *)

(** ** The canonical order of the domains *)

Section canonical_order.
Context {V : Type} `{!Inhabited V}.
Implicit Types (s : State (V:=V)) (h : list (Object (V:=V))) (d : dict).

Lemma scan_inner_keys h g doms d d' :
  scan_inner h g doms d = Return d' → keys d' = foldl add_label (keys d) doms.
Proof.
  revert d. induction doms as [|x doms IH]; intros d; simpl.
  - by intros [= <-].
  - destruct (dim0_value h g x) as [|k]; [done|]. simpl.
    intros Hd'. rewrite (IH _ Hd'). by rewrite keys_setitem.
Qed.

Lemma scan_value_keys h gs d d' :
  scan_value h gs d = Return d' →
  keys d' = foldl add_label (keys d) (gs ≫= labels h).
Proof.
  revert d. induction gs as [|g gs IH]; intros d; simpl.
  - by intros [= <-].
  - unfold labels at 1.
    destruct (h !! g) as [ob|]; [|done].
    destruct (active_doms ob) as [doms|]; [|done]. simpl.
    destruct (scan_inner h g doms d) as [|d1] eqn:Hd1; [done|]. simpl.
    intros Hd'. rewrite (IH _ Hd'), foldl_app.
    by rewrite (scan_inner_keys _ _ _ _ _ Hd1).
Qed.

Lemma scan_value_attributes h gs d d' :
  scan_value h gs d = Return d' →
  Forall (λ g, ∃ ob doms, h !! g = Some ob ∧ active_doms ob = Some doms) gs.
Proof.
  revert d. induction gs as [|g gs IH]; intros d; simpl; [constructor|].
  destruct (h !! g) as [ob|] eqn:Hg; [|done].
  destruct (active_doms ob) as [doms|] eqn:Had; [|done].
  destruct (scan_inner h g doms d) as [|d1]; [done|]. simpl.
  intros Hd'. constructor; [by eauto|by eapply IH].
Qed.

(** X1.  On well-formed groundings (with [flatten_dim0=True]: whose value
    axes have no size 0) the call returns, and the domain list it returns
    is the list of the inputs' labels, read input by input, each label at
    the place of its first occurrence; the count list has the same
    length. *)
Theorem canonical_order_is_first_seen o gs fl s :
  groundings_ok (heap s) gs →
  (fl = true → flattenable (heap s) gs) →
  ∃ crossed dims0 s',
    cross_grounding_values o gs fl s
      = (Return (crossed, first_seen (gs ≫= labels (heap s)), dims0), s') ∧
    length dims0 = length (first_seen (gs ≫= labels (heap s))).
Proof.
  intros Hok Hfl.
  destruct (cross_grounding_values_returns o gs fl s Hok Hfl)
    as (d & crossed & s' & Hd & _ & Hrun & _).
  exists crossed, (values d), s'.
  rewrite (scan_value_keys _ _ _ _ Hd) in Hrun. split; [exact Hrun|].
  rewrite length_values. by rewrite (scan_value_keys _ _ _ _ Hd).
Qed.

(** X2.  A tensor without the attribute [active_doms] anywhere in the input
    list stops the call in its first loop: nothing is returned, and the
    store is left as it was, no tensor having been allocated. *)
Theorem missing_attribute_stops_the_call o gs fl s g ob :
  g ∈ gs → heap s !! g = Some ob → active_doms ob = None →
  ¬ returns (cross_grounding_values o gs fl s).1 ∧
  (cross_grounding_values o gs fl s).2 = s.
Proof.
  intros Hg Hob Had. unfold cross_grounding_values.
  rewrite bind_run, scan_doms_run.
  destruct (scan_value (heap s) gs []) as [e|d] eqn:Hd.
  - split; [|done]. by intros [? ?].
  - apply scan_value_attributes in Hd. rewrite Forall_forall in Hd.
    destruct (Hd g Hg) as (ob' & doms & Hob' & Had'). congruence.
Qed.
End canonical_order.

(** ** The shape of the outputs *)

Section output_shapes.
Context {V : Type} `{!Inhabited V}.
Local Abbreviation preserves := (preserves (V:=V)).
Implicit Types (s : State (V:=V)) (h : list (Object (V:=V))) (ob : Object (V:=V)).
Implicit Types (t : torch.Tensor V) (d : dict) (o : SetOrder).

Lemma expand_shape d missing t doms_in t' doms' :
  expand d missing t doms_in = Return (t', doms') →
  length doms_in ≤ length (torch.shape t) →
  ∃ counts, Forall2 (λ x c, dict_getitem d x = Return c) missing counts ∧
            torch.shape t' = take (length doms_in) (torch.shape t) ++ counts
                               ++ drop (length doms_in) (torch.shape t) ∧
            doms' = doms_in ++ missing.
Proof.
  revert t doms_in doms'.
  induction missing as [|x missing IH]; intros t doms_in doms' Hex Hlen.
  - simpl in Hex. injection Hex as <- <-. exists []. split_and!; [constructor| |].
    + by rewrite app_nil_l, take_drop.
    + by rewrite app_nil_r.
  - cbn [expand] in Hex. unfold torch.unsqueeze in Hex.
    rewrite decide_True in Hex by done. cbn [rbind] in Hex.
    destruct (dict_getitem d x) as [|k] eqn:Hk; [done|]. cbn [rbind] in Hex.
    unfold torch.repeat_interleave in Hex. cbn [torch.shape] in Hex.
    rewrite list_lookup_middle in Hex by (by rewrite length_take_le).
    cbn [rbind] in Hex. rewrite unsqueeze_shape in Hex by done.
    apply IH in Hex as (counts & Hcounts & Hshape & ->).
    + exists (k :: counts). split_and!; [by constructor| |by rewrite <-app_assoc].
      rewrite Hshape. cbn [torch.shape torch.tabulate].
      rewrite length_app. cbn [length]. rewrite (cons_middle (1 * k)).
      assert (length doms_in + 1
              = length (take (length doms_in) (torch.shape t) ++ [1 * k])) as Hl.
      { by rewrite length_app, length_take_le by done. }
      rewrite (app_assoc _ [1 * k]).
      rewrite (take_app_length' _ _ _ Hl), (drop_app_length' _ _ _ Hl).
      by rewrite Nat.mul_1_l, <-app_assoc.
    + cbn [torch.shape torch.tabulate]. rewrite !length_app, length_take_le by done.
      simpl. rewrite length_drop. lia.
Qed.

Lemma comprehension_index_inv (l doms : list string) (idxs : list nat) :
  comprehension (index l) doms = Return idxs →
  Forall2 (λ x i, l !! i = Some x) doms idxs.
Proof.
  revert idxs. induction doms as [|x doms IH]; intros idxs; simpl.
  - intros [= <-]. constructor.
  - destruct (index l x) as [|i] eqn:Hi; [done|]. simpl.
    destruct (comprehension (index l) doms) as [|js]; [done|]. simpl.
    intros [= <-]. constructor; [by apply index_lookup|by apply IH].
Qed.

Lemma lookup_total_positions (sh : list nat) (idxs vs : list nat) :
  Forall2 (λ i v, sh !! i = Some v) idxs vs → (λ p, sh !!! p) <$> idxs = vs.
Proof.
  induction 1 as [|i v idxs vs Hi _ IH]; [done|].
  rewrite fmap_cons, IH. f_equal. by apply list_lookup_total_correct.
Qed.

(** The shape of one output: the counts of the canonical domains, or their
    product when flattened, in front of the value axes of the input. *)
Lemma cross_value_shape o d fl ad t t' :
  NoDup (keys d) → NoDup ad → (∀ x, x ∈ ad → x ∈ keys d) →
  length ad ≤ length (torch.shape t) →
  (∀ i x, ad !! i = Some x →
     ∃ c, torch.shape t !! i = Some c ∧ dict_getitem d x = Return c) →
  (fl = true → Forall (λ n, 0 < n) (drop (length ad) (torch.shape t))) →
  cross_value o d (keys d) fl ad t = Return t' →
  torch.shape t' = (if fl then [torch.numel (values d)] else values d)
                     ++ drop (length ad) (torch.shape t).
Proof.
  intros Hd Hnd Hsub Hlen Hcons Hfl. unfold cross_value.
  destruct (expand d _ t ad) as [|[t1 d1]] eqn:Hex; [done|]. cbn [rbind].
  destruct (expand_shape _ _ _ _ _ _ Hex Hlen) as (counts & Hcounts & Hsh1 & ->).
  set (missing := set_difference o (keys d) ad) in *.
  destruct (comprehension (index (ad ++ missing)) (keys d)) as [|idxs] eqn:Hidx; [done|].
  cbn [rbind]. apply comprehension_index_inv in Hidx.
  pose proof (Forall2_length _ _ _ Hidx) as Hidxlen.
  pose proof (Forall2_length _ _ _ Hcounts) as Hcountlen.
  assert ((λ p, torch.shape t1 !!! p) <$> idxs = values d) as Hlead.
  { apply lookup_total_positions. apply Forall2_same_length_lookup.
    split; [by rewrite <-Hidxlen, length_values|].
    intros a i v Hi Hv.
    destruct (lookup_lt_is_Some_2 (keys d) a) as [x Hx].
    { rewrite <-length_values. by eapply lookup_lt_Some. }
    destruct (values_lookup d a x Hd Hx) as (v' & Hv' & Hget).
    assert (v' = v) as -> by congruence.
    destruct (Forall2_lookup_l _ _ _ _ _ Hidx Hx) as (i' & Hi' & Hpos).
    assert (i' = i) as -> by congruence.
    rewrite Hsh1. destruct (decide (i < length ad)) as [Hlt|Hge].
    - rewrite lookup_app_l in Hpos by done.
      destruct (Hcons i x Hpos) as (c & Hc & Hgetc).
      rewrite lookup_app_l by (rewrite length_take_le; done).
      rewrite lookup_take_lt by done. congruence.
    - rewrite lookup_app_r in Hpos by lia.
      destruct (Forall2_lookup_l _ _ _ _ _ Hcounts Hpos) as (c & Hc & Hgetc).
      rewrite lookup_app_r by (rewrite length_take_le; lia).
      rewrite length_take_le by done.
      rewrite lookup_app_l by (by eapply lookup_lt_Some). congruence. }
  assert (length (ad ++ missing) ≤ length (torch.shape t1)) as Hle.
  { rewrite Hsh1, !length_app, length_take_le, length_drop by done. lia. }
  assert (drop (length (ad ++ missing)) (torch.shape t1)
          = drop (length ad) (torch.shape t)) as Htail.
  { rewrite Hsh1, length_app, Hcountlen.
    rewrite app_assoc, drop_app_length'; [done|].
    rewrite length_app, length_take_le by done. done. }
  assert (length idxs = length (ad ++ missing)) as Hidxlen'.
  { rewrite <-Hidxlen. symmetry. apply Permutation_length.
    pose proof (set_difference_spec o (keys d) ad Hd) as [Hmnd Hm]. fold missing in Hmnd, Hm.
    apply NoDup_Permutation; [|done|].
    - apply NoDup_app. split_and!; [done| |done]. intros x Hx Hx'. by apply Hm in Hx' as [_ ?].
    - intros x. rewrite elem_of_app, Hm. split; [intros [?|[? _]]; auto|].
      intros Hx. destruct (decide (x ∈ ad)); auto. }
  unfold torch.permute. case_decide as Hperm; [|done]. cbn [rbind].
  set (shp2 := (λ p, torch.shape t1 !!! p) <$> _).
  assert (shp2 = values d ++ drop (length ad) (torch.shape t)) as Hshp2.
  { subst shp2. rewrite fmap_app, Hlead. f_equal.
    rewrite <-Htail. apply lookup_total_seq_drop. }
  destruct fl.
  - rewrite reshape_flatten; [|apply tabulate_well_formed|].
    + intros [= <-]. cbn [torch.shape torch.tabulate]. fold shp2. rewrite Hshp2.
      rewrite take_app_length', drop_app_length'; [done| |];
        by rewrite length_values, Hidxlen, <-Hidxlen'.
    + cbn [torch.shape torch.tabulate]. fold shp2. rewrite Hshp2.
      rewrite drop_app_length'; [by apply Hfl|].
      by rewrite length_values, Hidxlen, <-Hidxlen'.
  - intros [= <-]. cbn [torch.shape torch.tabulate]. by fold shp2.
Qed.
Lemma index_NoDup (l : list string) (x : string) i :
  NoDup l → l !! i = Some x → index l x = Return i.
Proof.
  intros Hnd Hi. destruct (index_elem_of l x) as (j & Hj & Hjx).
  { by eapply list_elem_of_lookup_2. }
  rewrite Hj. f_equal. by eapply NoDup_lookup.
Qed.

Lemma last_carrier h gs (x : string) :
  (∃ g, g ∈ gs ∧ x ∈ labels h g) →
  ∃ pre g post, gs = pre ++ g :: post ∧ x ∈ labels h g ∧
                ∀ g', g' ∈ post → x ∉ labels h g'.
Proof.
  induction gs as [|g0 gs IH]; intros (g & Hg & Hx).
  - by apply elem_of_nil in Hg.
  - destruct (decide (Exists (λ g', x ∈ labels h g') gs)) as [Hex|Hno].
    + apply Exists_exists in Hex as (g' & Hg' & Hx').
      destruct IH as (pre & g1 & post & -> & Hx1 & Hpost); [by eauto|].
      by exists (g0 :: pre), g1, post.
    + exists [], g0, gs. split; [done|]. split.
      * apply elem_of_cons in Hg as [->|Hg]; [done|].
        destruct Hno. apply Exists_exists. eauto.
      * intros g' Hg' Hx'. apply Hno, Exists_exists. eauto.
Qed.

Lemma Forall2_join {A B C} (P : A → B → Prop) (R : C → B → Prop)
    (l : list A) (k : list B) (m : list C) :
  Forall2 P l k → Forall2 R m k → Forall2 (λ a c, ∃ b, P a b ∧ R c b) l m.
Proof.
  intros Hl. revert m. induction Hl as [|a b l k Hab _ IH]; intros m Hm.
  - apply Forall2_nil_inv_r in Hm as ->. constructor.
  - apply Forall2_cons_inv_r in Hm as (c & m' & Hcb & Hm' & ->).
    constructor; [by eauto|by apply IH].
Qed.

(** X3.  When every label comes with one count, each output has one axis
    per canonical domain, of that domain's count and in the canonical
    order, in front of the value axes of its input; flattened, the domain
    axes are one axis whose size is the product of the counts.  A grounding
    without domains is no exception: flattened, it gets a leading axis of
    size 1.  Flattening is for groundings whose value axes have no size
    0. *)
Theorem outputs_have_canonical_axes o gs fl s :
  groundings_ok (heap s) gs →
  consistent s gs →
  (fl = true → flattenable (heap s) gs) →
  ∃ crossed doms dims0 s',
    cross_grounding_values o gs fl s = (Return (crossed, doms, dims0), s') ∧
    Forall2 (λ g g', ∃ ob ob',
               heap s !! g = Some ob ∧ heap s' !! g' = Some ob' ∧
               torch.shape (value ob')
                 = (if fl then [torch.numel dims0] else dims0) ++ value_axes ob)
      gs crossed.
Proof.
  intros Hok Hcons Hfl.
  destruct (scan_value_spec (heap s) gs [] Hok) as (d & Hd & Hnd & Hkeys & _ & Hlast).
  specialize (Hnd (NoDup_nil_2)).
  assert (∃ ts, Forall2 (λ g t', ∃ ob ad, heap s !! g = Some ob ∧
              active_doms ob = Some ad ∧
              cross_value o d (keys d) fl ad (value ob) = Return t' ∧
              torch.shape t' = (if fl then [torch.numel (values d)] else values d)
                                 ++ value_axes ob) gs ts) as [ts Hts].
  { apply Forall2_of_Forall. apply Forall_forall. intros g Hg.
    pose proof Hok as Hok'. unfold groundings_ok in Hok'. rewrite Forall_forall in Hok'.
    destruct (Hok' g Hg) as (ob & Hob & doms & Had & Hdnd & Hlen & Hwf).
    assert (labels (heap s) g = doms) as Hlab by (unfold labels; by rewrite Hob, Had).
    assert (∀ x, x ∈ doms → x ∈ keys d) as Hsub.
    { intros x Hx. apply Hkeys. right. exists g. by rewrite Hlab. }
    assert (fl = true → Forall (λ n, 0 < n) (drop (length doms) (torch.shape (value ob))))
      as Hpos.
    { intros ->. specialize (Hfl eq_refl). unfold flattenable in Hfl.
      rewrite Forall_forall in Hfl. specialize (Hfl g Hg ob Hob).
      unfold value_axes in Hfl. by rewrite Had in Hfl. }
    destruct (cross_value_returns o d fl doms (value ob)) as (t' & Ht' & _);
      [done|done|done|done|by intros ->; split; auto|].
    exists t', ob, doms. split_and!; [done..|].
    unfold value_axes. rewrite Had. simpl.
    apply (cross_value_shape o d fl doms (value ob) t'); [done..| |done|done].
    intros i x Hi.
    destruct (lookup_lt_is_Some_2 (torch.shape (value ob)) i) as [c Hc].
    { apply lookup_lt_Some in Hi. lia. }
    exists c. split; [done|].
    destruct (last_carrier (heap s) gs x) as (pre & g1 & post & Hgs & Hx1 & Hpost).
    { exists g. rewrite Hlab. split; [done|]. by eapply list_elem_of_lookup_2. }
    rewrite (Hlast pre g1 post x Hgs Hx1 Hpost).
    specialize (Hcons g1 g x). rewrite !get_dim0_of_dom_run in Hcons. simpl in Hcons.
    rewrite Hcons; [| |done|done|].
    - unfold dim0_value. rewrite Hob, Had, (index_NoDup doms x i Hdnd Hi). simpl.
      unfold torch.size. by rewrite Hc.
    - rewrite Hgs. apply elem_of_app. right. left.
    - rewrite Hlab. by eapply list_elem_of_lookup_2. }
  destruct (cross_grounding_values_spec o gs fl s d ts Hd) as (crossed & s' & Hrun & _ & Hcr).
  { eapply Forall2_impl; [exact Hts|]. simpl.
    intros g t' (ob & ad & ? & ? & ? & _). by exists ob, ad. }
  exists crossed, (keys d), (values d), s'. split; [done|].
  eapply Forall2_impl; [exact (Forall2_join _ _ _ _ _ Hts Hcr)|]. simpl.
  intros g g' (t' & (ob & ad & Hob & Had & Hv & Hsh) & _ & Hob').
  exists ob. eexists. split_and!; [done..|]. done.
Qed.
End output_shapes.

(** ** Two variables: the cross product *)

Section cross_product.
Context {V : Type} `{!Inhabited V}.
Implicit Types (s : State (V:=V)) (t : torch.Tensor V) (o : SetOrder) (f : list nat → V).

Lemma getitem_items n sh (dt : list V) i :
  length dt = torch.numel (n :: sh) → i < n →
  torch.getitem (torch.mk (n :: sh) dt) i
  = Return (torch.tabulate sh (λ idx, torch.item (torch.mk (n :: sh) dt) (i :: idx))).
Proof.
  intros Hwf Hi.
  rewrite <-(tabulate_item (torch.mk (n :: sh) dt) Hwf) at 1.
  by apply row_tabulate.
Qed.

(** Flattening the two leading axes does not move the rows. *)
Lemma getitem_flat n m k sh (dt : list V) i j :
  k = n * m → i < n → j < m →
  rbind (torch.getitem (torch.mk (n :: m :: sh) dt) i) (λ r, torch.getitem r j)
  = torch.getitem (torch.mk (k :: sh) dt) (i * m + j).
Proof.
  intros -> Hi Hj. unfold torch.getitem. cbn [torch.shape torch.data].
  rewrite decide_True by done. cbn [rbind torch.shape torch.data].
  rewrite !decide_True by (done || nia). do 2 f_equal.
  cbn [torch.numel foldr]. fold (torch.numel sh).
  apply list_eq. intros q. destruct (decide (q < torch.numel sh)) as [Hq|Hq].
  - rewrite !lookup_take_lt, !lookup_drop by done.
    rewrite lookup_take_lt, lookup_drop by nia. f_equal. nia.
  - by rewrite !lookup_take_ge by lia.
Qed.
Lemma set_difference_singleton o (doms ad : list string) (x : string) :
  NoDup doms → (∀ y, y ∈ doms ∧ y ∉ ad ↔ y = x) → set_difference o doms ad = [x].
Proof.
  intros Hnd Hx. destruct (set_difference_spec o doms ad Hnd) as [Hmnd Hm].
  destruct (set_difference o doms ad) as [|y l].
  - exfalso. eapply not_elem_of_nil, Hm, Hx. done.
  - assert (y = x) as -> by (apply Hx, Hm; left).
    destruct l as [|z l]; [done|].
    assert (z = x) as -> by (apply Hx, Hm; right; left).
    apply NoDup_cons in Hmnd as [Hno _]. destruct Hno. left.
Qed.

Lemma comprehension_pair (lx ly : string) :
  lx ≠ ly →
  comprehension (index [lx; ly]) [lx; ly] = Return [0; 1] ∧
  comprehension (index [ly; lx]) [lx; ly] = Return [1; 0].
Proof.
  intros Hne. unfold index. simpl.
  repeat (case_decide; try congruence); done.
Qed.

Lemma cross_value_first o lx ly n m fl sx (dx : list V) :
  lx ≠ ly → length dx = torch.numel (n :: sx) →
  (fl = true → Forall (λ k, 0 < k) sx) →
  ∃ X, cross_value o [(lx, n); (ly, m)] [lx; ly] fl [lx] (torch.mk (n :: sx) dx)
         = Return X ∧
       ∀ i j, i < n → j < m →
         pair_row fl m X i j = torch.getitem (torch.mk (n :: sx) dx) i.
Proof.
  intros Hne Hwf Hfl. unfold cross_value.
  rewrite (set_difference_singleton o [lx; ly] [lx] ly); cycle 1.
  { apply NoDup_cons. split; [by intros ->%list_elem_of_singleton|apply NoDup_singleton]. }
  { intros y. rewrite !elem_of_cons, elem_of_nil.
    split; [tauto|]. intros ->. split; [tauto|]. intros [?|[]]. congruence. }
  cbn [expand rbind length]. unfold torch.unsqueeze. cbn [torch.shape length].
  rewrite decide_True by lia. cbn [rbind take drop app dict_getitem].
  rewrite decide_False by done. rewrite decide_True by done. cbn [rbind].
  unfold torch.repeat_interleave. cbn [torch.shape lookup list_lookup rbind].
  rewrite take_0, drop_0. cbn [app lookup list_lookup rbind torch.data].
  cbn [insert list_insert]. rewrite Nat.mul_1_l.
  destruct (comprehension_pair lx ly Hne) as [-> _]. cbn [rbind length app].
  set (X := torch.tabulate (n :: m :: sx) _).
  replace (0 :: 1 :: seq 2 (length (torch.shape X) - 2))
    with (seq 0 (length (torch.shape X))) by (simpl; by rewrite Nat.sub_0_r).
  rewrite permute_id by apply tabulate_well_formed. cbn [rbind].
  assert (∀ i j, i < n → j < m →
            rbind (torch.getitem X i) (λ r, torch.getitem r j)
            = torch.getitem (torch.mk (n :: sx) dx) i) as Hrows.
  { intros i j Hi Hj. subst X. rewrite row_tabulate by done. cbn [rbind].
    rewrite row_tabulate, getitem_items by done. f_equal.
    apply tabulate_ext. intros idx Hidx. unfold torch.item.
    cbn [torch.shape torch.data alter list_alter torch.ravel torch.numel foldr].
    rewrite (Nat.div_small j m) by done. f_equal.
    fold (torch.numel sx). lia. }
  destruct fl; [|by exists X].
  rewrite reshape_flatten; [|apply tabulate_well_formed|by apply Hfl].
  eexists. split; [done|]. intros i j Hi Hj. rewrite <-(Hrows i j Hi Hj).
  unfold pair_row. symmetry. apply getitem_flat; [|done..].
  simpl. lia.
Qed.
Lemma position_swap k a :
  torch.position (1 :: 0 :: seq 2 k) 0 = 1 ∧
  torch.position (1 :: 0 :: seq 2 k) 1 = 0 ∧
  (2 ≤ a < 2 + k → torch.position (1 :: 0 :: seq 2 k) a = a).
Proof.
  split_and!; [done..|]. intros Ha. unfold torch.position.
  assert (list_find (a =.) (1 :: 0 :: seq 2 k) = Some (a, a)) as ->; [|done].
  apply list_find_Some. split_and!; [|done|].
  - destruct a as [|[|a]]; [lia..|]. simpl. apply lookup_seq. lia.
  - intros q y Hq Hlt. destruct q as [|[|q]]; simpl in Hq; simplify_eq; [lia..|].
    apply lookup_seq in Hq as [-> _]. lia.
Qed.

Lemma swap_leading k (i j : nat) (idx : list nat) :
  length idx = k →
  (λ a, (i :: j :: idx) !!! torch.position (1 :: 0 :: seq 2 k) a)
    <$> seq 0 (length (1 :: 0 :: seq 2 k))
  = j :: i :: idx.
Proof.
  intros Hk. cbn [length]. rewrite length_seq. cbn [seq fmap list_fmap].
  destruct (position_swap k 0) as (-> & -> & _). do 2 f_equal.
  apply list_eq. intros q. rewrite list_lookup_fmap.
  destruct (decide (q < k)) as [Hq|Hq].
  - rewrite lookup_seq_lt by done. simpl.
    destruct (position_swap k (S (S q))) as (_ & _ & ->); [|lia].
    destruct (lookup_lt_is_Some_2 idx q) as [x Hx]; [lia|].
    rewrite Hx. f_equal. by apply list_lookup_total_correct.
  - rewrite (lookup_ge_None_2 (seq _ _)) by (rewrite length_seq; lia).
    rewrite lookup_ge_None_2; [done|lia].
Qed.

Lemma cross_value_second o lx ly n m fl sy (dy : list V) :
  lx ≠ ly → length dy = torch.numel (m :: sy) →
  (fl = true → Forall (λ k, 0 < k) sy) →
  ∃ Y, cross_value o [(lx, n); (ly, m)] [lx; ly] fl [ly] (torch.mk (m :: sy) dy)
         = Return Y ∧
       ∀ i j, i < n → j < m →
         pair_row fl m Y i j = torch.getitem (torch.mk (m :: sy) dy) j.
Proof.
  intros Hne Hwf Hfl. unfold cross_value.
  rewrite (set_difference_singleton o [lx; ly] [ly] lx); cycle 1.
  { apply NoDup_cons. split; [by intros ->%list_elem_of_singleton|apply NoDup_singleton]. }
  { intros y. rewrite !elem_of_cons, elem_of_nil.
    split; [|intros ->; split; [tauto|intros [?|[]]; congruence]].
    intros [[?|[?|[]]] Hy]; [done|]. destruct Hy. by left. }
  cbn [expand rbind length]. unfold torch.unsqueeze. cbn [torch.shape length].
  rewrite decide_True by lia. cbn [rbind take drop app dict_getitem].
  rewrite decide_True by done. cbn [rbind].
  unfold torch.repeat_interleave. cbn [torch.shape lookup list_lookup rbind].
  rewrite take_0, drop_0. cbn [app lookup list_lookup rbind torch.data].
  cbn [insert list_insert]. rewrite Nat.mul_1_l.
  destruct (comprehension_pair lx ly Hne) as [_ ->]. cbn [rbind length app].
  set (T1 := torch.tabulate (m :: n :: sy) _).
  change (length (torch.shape T1)) with (S (S (length sy))).
  cbn [Nat.sub]. rewrite Nat.sub_0_r.
  unfold torch.permute. change (length (torch.shape T1)) with (S (S (length sy))).
  rewrite decide_True; cycle 1.
  { unfold torch.is_perm. cbn [length]. rewrite length_seq.
    split_and!; [done| |].
    - repeat (apply Forall_cons_2; [lia|]).
      apply Forall_forall. intros a Ha%elem_of_seq. lia.
    - apply NoDup_cons. split.
      { intros [?|Ha%elem_of_seq]%elem_of_cons; [done|lia]. }
      apply NoDup_cons. split; [|apply NoDup_seq].
      intros Ha%elem_of_seq. lia. }
  cbn [rbind].
  assert ((λ p, torch.shape T1 !!! p) <$> (1 :: 0 :: seq 2 (length sy)) = n :: m :: sy)
    as ->.
  { cbn [fmap list_fmap]. do 2 f_equal.
    pose proof (lookup_total_seq_drop (m :: n :: sy) 2) as Hsy.
    cbn [length Nat.sub drop] in Hsy. rewrite Nat.sub_0_r in Hsy. exact Hsy. }
  set (Y := torch.tabulate (n :: m :: sy) _).
  assert (∀ i j, i < n → j < m →
            rbind (torch.getitem Y i) (λ r, torch.getitem r j)
            = torch.getitem (torch.mk (m :: sy) dy) j) as Hrows.
  { intros i j Hi Hj. subst Y. rewrite row_tabulate by done. cbn [rbind].
    rewrite row_tabulate, getitem_items by done. f_equal.
    apply tabulate_ext. intros idx Hidx.
    rewrite swap_leading by (by rewrite (Forall2_length _ _ _ Hidx)).
    subst T1. rewrite item_tabulate by (repeat constructor; done).
    unfold torch.item.
    cbn [torch.shape torch.data alter list_alter torch.ravel torch.numel foldr].
    rewrite (Nat.div_small i n) by done. f_equal.
    fold (torch.numel sy). lia. }
  destruct fl; [|by exists Y].
  rewrite reshape_flatten; [|apply tabulate_well_formed|by apply Hfl].
  eexists. split; [done|]. intros i j Hi Hj. rewrite <-(Hrows i j Hi Hj).
  unfold pair_row. symmetry. apply getitem_flat; [|done..].
  simpl. lia.
Qed.
(** X4.  Two variables with different labels, of [n] and [m] individuals:
    the call returns the domains [[lx; ly]] with the counts [[n; m]], and for
    every [i < n] and [j < m] the entry of the pair [(i, j)] is the [i]-th
    individual of the first variable in the first output and the [j]-th
    individual of the second variable in the second output, flattened (row
    [i * m + j]; the value axes have no size 0) or not (row [j] of row
    [i]). *)
Theorem two_variables_are_crossed o fl s gx gy obx oby lx ly n m sx sy :
  heap s !! gx = Some obx → active_doms obx = Some [lx] →
  torch.shape (value obx) = n :: sx → torch.well_formed (value obx) →
  heap s !! gy = Some oby → active_doms oby = Some [ly] →
  torch.shape (value oby) = m :: sy → torch.well_formed (value oby) →
  lx ≠ ly →
  (fl = true → Forall (λ k, 0 < k) sx ∧ Forall (λ k, 0 < k) sy) →
  ∃ gx' gy' s' obx' oby',
    cross_grounding_values o [gx; gy] fl s
      = (Return ([gx'; gy'], [lx; ly], [n; m]), s') ∧
    heap s' !! gx' = Some obx' ∧ heap s' !! gy' = Some oby' ∧
    ∀ i j, i < n → j < m →
      pair_row fl m (value obx') i j = torch.getitem (value obx) i ∧
      pair_row fl m (value oby') i j = torch.getitem (value oby) j.
Proof.
  intros Hx Hxd Hxs Hxwf Hy Hyd Hys Hywf Hne Hfl.
  assert (scan_value (heap s) [gx; gy] [] = Return [(lx, n); (ly, m)]) as Hd.
  { simpl. rewrite Hx, Hxd, Hy, Hyd. simpl.
    rewrite (dim0_value_single _ _ _ _ _ _ Hx Hxd Hxs). simpl.
    rewrite (dim0_value_single _ _ _ _ _ _ Hy Hyd Hys). simpl.
    by rewrite decide_False. }
  destruct (value obx) as [shx dx] eqn:Hvx. simpl in Hxs. subst shx.
  destruct (value oby) as [shy dy] eqn:Hvy. simpl in Hys. subst shy.
  destruct (cross_value_first o lx ly n m fl sx dx Hne Hxwf) as (X & HX & HXrows).
  { intros ->. by apply Hfl. }
  destruct (cross_value_second o lx ly n m fl sy dy Hne Hywf) as (Y & HY & HYrows).
  { intros ->. by apply Hfl. }
  destruct (cross_grounding_values_spec o [gx; gy] fl s [(lx, n); (ly, m)] [X; Y] Hd)
    as (crossed & s' & Hrun & _ & Hcr).
  { repeat constructor.
    - exists obx, [lx]. by rewrite Hvx.
    - exists oby, [ly]. by rewrite Hvy. }
  apply Forall2_cons_inv_r in Hcr as (gx' & crossed1 & [_ Hgx'] & Hcr & ->).
  apply Forall2_cons_inv_r in Hcr as (gy' & crossed2 & [_ Hgy'] & Hcr & ->).
  apply Forall2_nil_inv_r in Hcr as ->.
  exists gx', gy', s'. do 2 eexists. split_and!; [done..|].
  intros i j Hi Hj. simpl. split; [by apply HXrows|by apply HYrows].
Qed.
End cross_product.

(** ** One grounding on its own *)

Section one_grounding.
Context {V : Type} `{!Inhabited V}.
Local Abbreviation preserves := (preserves (V:=V)).
Implicit Types (s : State (V:=V)) (h : list (Object (V:=V))) (ob : Object (V:=V)).
Implicit Types (t : torch.Tensor V) (d : dict) (o : SetOrder).

Lemma dict_setitem_fresh d k v : k ∉ keys d → dict_setitem d k v = d ++ [(k, v)].
Proof.
  induction d as [|[k' v'] d IH]; intros Hk; [done|]. simpl.
  rewrite decide_False.
  - rewrite IH; [done|]. intros ?. apply Hk. by right.
  - intros ->. apply Hk. left.
Qed.

Lemma scan_inner_own h g ob ad pre rest d :
  h !! g = Some ob → active_doms ob = Some ad → NoDup ad →
  length ad ≤ length (torch.shape (value ob)) →
  ad = pre ++ rest → keys d = pre →
  values d = take (length pre) (torch.shape (value ob)) →
  ∃ d', scan_inner h g rest d = Return d' ∧ keys d' = ad ∧
        values d' = take (length ad) (torch.shape (value ob)).
Proof.
  intros Hg Had Hnd Hlen. revert pre d.
  induction rest as [|x rest IH]; intros pre d Had' Hk Hv.
  - exists d. rewrite app_nil_r in Had'. by subst.
  - simpl. unfold dim0_value. rewrite Hg, Had.
    assert (ad !! length pre = Some x) as Hx by (rewrite Had'; apply list_lookup_middle; done).
    rewrite (index_NoDup ad x (length pre) Hnd Hx). simpl.
    destruct (lookup_lt_is_Some_2 (torch.shape (value ob)) (length pre)) as [c Hc].
    { apply lookup_lt_Some in Hx. lia. }
    unfold torch.size. rewrite Hc. simpl.
    rewrite dict_setitem_fresh; cycle 1.
    { rewrite Hk. rewrite Had' in Hnd. apply NoDup_app in Hnd as (_ & Hnd & _).
      intros Hin. apply (Hnd x Hin). left. }
    apply (IH (pre ++ [x])).
    + by rewrite <-app_assoc.
    + unfold keys. rewrite fmap_app. simpl. by rewrite <-Hk.
    + unfold values. rewrite fmap_app. simpl. fold (values d). rewrite Hv.
      rewrite length_app. simpl. rewrite Nat.add_1_r. symmetry. by apply take_S_r.
Qed.

Lemma scan_value_own h g ob ad :
  h !! g = Some ob → active_doms ob = Some ad → NoDup ad →
  length ad ≤ length (torch.shape (value ob)) →
  ∃ d, scan_value h [g] [] = Return d ∧ keys d = ad ∧
       values d = take (length ad) (torch.shape (value ob)).
Proof.
  intros Hg Had Hnd Hlen. simpl. rewrite Hg, Had.
  destruct (scan_inner_own h g ob ad [] ad [] Hg Had Hnd Hlen) as (d & -> & Hk & Hv);
    [done..|].
  by exists d.
Qed.

Lemma set_difference_self o (ad : list string) : set_difference o ad ad = [].
Proof.
  apply Permutation_nil_r. unfold set_difference. rewrite set_iter_perm.
  apply Permutation_nil_r, elem_of_nil_inv. intros x [Hx Hn]%list_elem_of_difference.
  apply Hn. by apply elem_of_remove_dups.
Qed.

Lemma comprehension_index_self (ad pre rest : list string) :
  NoDup ad → ad = pre ++ rest →
  comprehension (index ad) rest = Return (seq (length pre) (length rest)).
Proof.
  intros Hnd. revert pre. induction rest as [|x rest IH]; intros pre Had; [done|].
  simpl. rewrite (index_NoDup ad x (length pre) Hnd); cycle 1.
  { rewrite Had. by apply list_lookup_middle. }
  simpl. rewrite (IH (pre ++ [x])) by (by rewrite <-app_assoc).
  simpl. rewrite length_app. simpl. by rewrite Nat.add_1_r.
Qed.

(** With its own labels as the canonical domains, a grounding keeps its
    entries: nothing is added, the permutation is the identity, and
    flattening merges the domain axes. *)
Lemma cross_value_own o d fl ad t :
  keys d = ad → NoDup ad → length ad ≤ length (torch.shape t) →
  torch.well_formed t →
  (fl = true → Forall (λ n, 0 < n) (drop (length ad) (torch.shape t))) →
  cross_value o d ad fl ad t
  = Return (if fl
            then torch.mk (torch.numel (take (length ad) (torch.shape t))
                             :: drop (length ad) (torch.shape t)) (torch.data t)
            else t).
Proof.
  intros Hk Hnd Hlen Hwf Hfl. unfold cross_value.
  rewrite set_difference_self. cbn [expand rbind].
  rewrite (comprehension_index_self ad [] ad Hnd eq_refl). cbn [rbind length].
  rewrite <-(seq_app (length ad) _ 0).
  replace (length ad + (length (torch.shape t) - length ad))
    with (length (torch.shape t)) by lia.
  rewrite permute_id by done. cbn [rbind].
  destruct fl; [|done]. apply reshape_flatten; auto.
Qed.

Lemma one_grounding_run o g fl s ob ad :
  heap s !! g = Some ob → active_doms ob = Some ad → NoDup ad →
  length ad ≤ length (torch.shape (value ob)) →
  torch.well_formed (value ob) →
  (fl = true → Forall (λ n, 0 < n) (drop (length ad) (torch.shape (value ob)))) →
  ∃ g' s',
    cross_grounding_values o [g] fl s
      = (Return ([g'], ad, take (length ad) (torch.shape (value ob))), s') ∧
    preserves (length (heap s)) s s' ∧
    length (heap s) ≤ g' ∧
    heap s' !! g'
      = Some (if fl
              then {| value := torch.mk
                                 (torch.numel (take (length ad) (torch.shape (value ob)))
                                    :: drop (length ad) (torch.shape (value ob)))
                                 (torch.data (value ob));
                      active_doms := None |}
              else {| value := value ob; active_doms := Some ad |}).
Proof.
  intros Hg Had Hnd Hlen Hwf Hfl.
  destruct (scan_value_own (heap s) g ob ad Hg Had Hnd Hlen) as (d & Hd & Hk & Hv).
  pose proof (cross_value_own o d fl ad (value ob) Hk Hnd Hlen Hwf Hfl) as Hcv.
  rewrite <-Hk in Hcv at 1.
  destruct (cross_grounding_values_spec o [g] fl s d
              [if fl
               then torch.mk (torch.numel (take (length ad) (torch.shape (value ob)))
                                :: drop (length ad) (torch.shape (value ob)))
                      (torch.data (value ob))
               else value ob] Hd) as (crossed & s' & Hrun & Hpre & Hcr).
  { constructor; [|constructor]. by exists ob, ad. }
  apply Forall2_cons_inv_r in Hcr as (g' & crossed' & [Hfresh Hg'] & Hcr & ->).
  apply Forall2_nil_inv_r in Hcr as ->.
  exists g', s'. rewrite Hk, Hv in Hrun. split_and!; [done..|].
  rewrite Hg', Hk. by destruct fl.
Qed.

(** X5.  A well-formed grounding given on its own is returned with its
    own labels, the sizes of its domain axes as counts, and its entries as
    they are: unflattened, a new object with the same value and the labels
    attached; flattened (the value axes have no size 0), a new object
    without the attribute, with the same entries and the domain axes merged
    into one. *)
Theorem one_grounding_keeps_its_entries o g fl s ob :
  heap s !! g = Some ob →
  well_formed_grounding ob →
  (fl = true → Forall (λ n, 0 < n) (value_axes ob)) →
  let k := length (labels (heap s) g) in
  let sh := torch.shape (value ob) in
  ∃ g' s',
    cross_grounding_values o [g] fl s
      = (Return ([g'], labels (heap s) g, take k sh), s') ∧
    length (heap s) ≤ g' ∧
    heap s' !! g'
      = Some (if fl
              then {| value := torch.mk (torch.numel (take k sh) :: drop k sh)
                                 (torch.data (value ob));
                      active_doms := None |}
              else {| value := value ob;
                      active_doms := Some (labels (heap s) g) |}).
Proof.
  intros Hg (ad & Had & Hnd & Hlen & Hwf) Hfl. simpl.
  assert (labels (heap s) g = ad) as -> by (unfold labels; by rewrite Hg, Had).
  unfold value_axes in Hfl. rewrite Had in Hfl. simpl in Hfl.
  destruct (one_grounding_run o g fl s ob ad Hg Had Hnd Hlen Hwf Hfl)
    as (g' & s' & Hrun & _ & Hfresh & Hg').
  by exists g', s'.
Qed.
End one_grounding.

(** ** [Predicate.forward] on one grounding *)

Section forward_one.
Context {V : Type} `{!Inhabited V}.
Local Abbreviation preserves := (preserves (V:=V)).
Implicit Types (s : State (V:=V)) (ob : Object (V:=V)) (o : SetOrder).
Implicit Types (model : inputs → M (V:=V) nat).

(** [reshape] to a shape without [-1]: the number of entries decides. *)
Lemma reshape_exact (t : torch.Tensor V) (dims : list nat) :
  torch.reshape t (Z.of_nat <$> dims)
  = if decide (length (torch.data t) = torch.numel dims)
    then Return (torch.mk dims (torch.data t)) else Raise RuntimeError.
Proof.
  unfold torch.reshape, torch.infer_size.
  assert (filter (λ z, (0 ≤ z)%Z) (Z.of_nat <$> dims) = Z.of_nat <$> dims) as ->.
  { induction dims as [|n dims IH]; [done|].
    rewrite fmap_cons, filter_cons_True by lia. by rewrite IH. }
  assert (filter (λ z, z = (-1)%Z) (Z.of_nat <$> dims) = []) as ->.
  { induction dims as [|n dims IH]; [done|].
    rewrite fmap_cons, filter_cons_False by lia. done. }
  assert (Z.to_nat <$> (Z.of_nat <$> dims) = dims) as ->.
  { rewrite <-list_fmap_compose. rewrite <-(list_fmap_id dims) at 2.
    apply list_fmap_ext. intros ? n _. simpl. lia. }
  rewrite decide_False; cycle 1.
  { intros Hneg. apply Exists_exists in Hneg as (z & (n & -> & _)%list_elem_of_fmap & ?).
    lia. }
  simpl. by case_decide.
Qed.

(** [forward] on one tensor, once the engine has returned: the model is
    invoked on the flattened tensor, and its output is reshaped, unless
    there is no domain, and labelled. *)
Lemma forward_one_run o model g s g' doms dims0 s1 obg :
  cross_grounding_values o [g] true s = (Return ([g'], doms, dims0), s1) →
  heap s1 !! g' = Some obg →
  forward o model (OneTensor g) s =
    match model (OneTensor g') {| heap := heap s1; calls := calls s1 ++ [OneTensor g'] |} with
    | (Raise e, s2) => (Raise e, s2)
    | (Return out, s2) =>
        match dims0 with
        | [] => bind (setattr_active_doms out doms) (λ _, ret out) s2
        | _ :: _ =>
            bind (torch_op (λ t, torch.reshape t (Z.of_nat <$> dims0)) out)
                 (λ outputs, bind (setattr_active_doms outputs doms)
                                  (λ _, ret outputs)) s2
        end
    end.
Proof.
  intros Hrun Hg'. unfold forward. rewrite !bind_run, Hrun.
  change (bind (lift (list_getitem [g'] 0)) (λ g0, ret (OneTensor g0, doms, dims0)) s1)
    with (Return (OneTensor g', doms, dims0) : result (inputs * list string * list nat), s1).
  cbn beta iota. cbn [inputs_shape]. rewrite bind_run, getattr_shape_run, Hg'.
  rewrite bind_run. unfold call_model at 1.
  destruct (model (OneTensor g') _) as [[e|out] s2]; [done|].
  destruct dims0; [|done]. rewrite bind_run. unfold ret at 1. done.
Qed.

(** X6.  Given one well-formed grounding with at least one domain, whose
    value axes have no size 0,
    [forward] invokes the model once, on a new tensor that holds the
    entries of the grounding with the domain axes merged, the inputs being
    as they were.  What the model raises, [forward] raises.  When the model
    returns, its output is reshaped to the counts of the domains into a new
    object that carries the labels of the grounding, and that object is
    returned; when the output does not have one entry per combination of
    individuals, [torch.reshape] raises [RuntimeError], after the model has
    run. *)
Theorem forward_one_grounding o model g s ob :
  heap s !! g = Some ob →
  well_formed_grounding ob →
  labels (heap s) g ≠ [] →
  Forall (λ n, 0 < n) (value_axes ob) →
  let doms := labels (heap s) g in
  let dims0 := take (length doms) (torch.shape (value ob)) in
  ∃ g' s1,
    length (heap s) ≤ g' ∧
    take (length (heap s)) (heap s1) = heap s ∧
    heap s1 !! g'
      = Some {| value := torch.mk (torch.numel dims0 :: value_axes ob)
                           (torch.data (value ob));
                active_doms := None |} ∧
    calls s1 = calls s ++ [OneTensor g'] ∧
    (∀ e s2, model (OneTensor g') s1 = (Raise e, s2) →
       forward o model (OneTensor g) s = (Raise e, s2)) ∧
    (∀ out s2 obo,
       model (OneTensor g') s1 = (Return out, s2) →
       heap s2 !! out = Some obo →
       forward o model (OneTensor g) s =
         if decide (length (torch.data (value obo)) = torch.numel dims0)
         then (Return (length (heap s2)),
               {| heap := heap s2 ++ [{| value := torch.mk dims0 (torch.data (value obo));
                                         active_doms := Some doms |}];
                  calls := calls s2 |})
         else (Raise RuntimeError, s2)).
Proof.
  intros Hg (ad & Had & Hnd & Hlen & Hwf) Hne Hpos. simpl.
  assert (labels (heap s) g = ad) as Hlab by (unfold labels; by rewrite Hg, Had).
  rewrite Hlab in *. unfold value_axes in *. rewrite Had in *. simpl in Hpos. simpl.
  destruct (one_grounding_run o g true s ob ad Hg Had Hnd Hlen Hwf (λ _, Hpos))
    as (g' & s1 & Hrun & (Htake & Hle & Hcalls) & Hfresh & Hg').
  exists g', {| heap := heap s1; calls := calls s1 ++ [OneTensor g'] |}.
  cbn [heap calls]. split_and!; [done| |done|by rewrite Hcalls| |].
  - by rewrite Htake, firstn_all.
  - intros e s2 Hm. by rewrite (forward_one_run _ _ _ _ _ _ _ _ _ Hrun Hg'), Hm.
  - intros out s2 obo Hm Hout.
    rewrite (forward_one_run _ _ _ _ _ _ _ _ _ Hrun Hg'), Hm.
    destruct (take (length ad) (torch.shape (value ob))) as [|n dims] eqn:Hdims.
    { apply (f_equal length) in Hdims. rewrite length_take_le in Hdims by done.
      destruct ad; done. }
    rewrite op_setattr_run, Hout, reshape_exact. by case_decide.
Qed.

(** X7.  Given one grounding without domains, a constant, whose axes have
    no size 0, [forward] hands
    the model the constant behind a leading axis of size 1, and reshapes
    nothing afterwards: what it returns is the very object the model
    returned, on which it has set [active_doms] to the empty list. *)
Theorem forward_constant_marks_the_model_output o model g s ob :
  heap s !! g = Some ob →
  active_doms ob = Some [] →
  torch.well_formed (value ob) →
  Forall (λ n, 0 < n) (torch.shape (value ob)) →
  ∃ g' s1,
    length (heap s) ≤ g' ∧
    heap s1 !! g'
      = Some {| value := torch.mk (1 :: torch.shape (value ob)) (torch.data (value ob));
                active_doms := None |} ∧
    calls s1 = calls s ++ [OneTensor g'] ∧
    ∀ out s2 obo,
      model (OneTensor g') s1 = (Return out, s2) →
      heap s2 !! out = Some obo →
      forward o model (OneTensor g) s =
        (Return out,
         {| heap := <[out := {| value := value obo; active_doms := Some [] |}]> (heap s2);
            calls := calls s2 |}).
Proof.
  intros Hg Had Hwf Hpos.
  destruct (one_grounding_run o g true s ob [] Hg Had (NoDup_nil_2) (Nat.le_0_l _) Hwf
              (λ _, Hpos))
    as (g' & s1 & Hrun & (Htake & Hle & Hcalls) & Hfresh & Hg').
  exists g', {| heap := heap s1; calls := calls s1 ++ [OneTensor g'] |}.
  cbn [heap calls]. split_and!; [done|done|by rewrite Hcalls|].
  intros out s2 obo Hm Hout.
  rewrite (forward_one_run _ _ _ _ _ _ _ _ _ Hrun Hg'), Hm. cbn [length take].
  unfold bind, setattr_active_doms, bind, deref. by rewrite Hout.
Qed.

(** X8.  A tensor that lacks the attribute [active_doms], as the groundings
    of [Constant] and [Variable] do when they leave their constructors,
    makes [forward] raise [AttributeError], given on its own or first in a
    list or tuple, before anything is allocated and before the model is
    reached. *)
Theorem forward_needs_active_doms o model g gs s ob :
  heap s !! g = Some ob →
  active_doms ob = None →
  forward o model (OneTensor g) s = (Raise AttributeError, s) ∧
  forward o model (ListOf (g :: gs)) s = (Raise AttributeError, s) ∧
  forward o model (TupleOf (g :: gs)) s = (Raise AttributeError, s).
Proof.
  intros Hg Had.
  assert (∀ l, cross_grounding_values o (g :: l) true s = (Raise AttributeError, s)) as Hcgv.
  { intros l. unfold cross_grounding_values.
    rewrite bind_run, scan_doms_run. simpl. by rewrite Hg, Had. }
  unfold forward. rewrite !bind_run, !Hcgv. done.
Qed.
End forward_one.

(** ** [get_dim0_of_dom] *)

Section dim0.
Context {V : Type} `{!Inhabited V}.
Implicit Types (s : State (V:=V)) (ob : Object (V:=V)).

(** X9.  [get_dim0_of_dom] reads, and changes nothing.  For a label the
    grounding does not carry it raises the [ValueError] of [list.index];
    for a label it carries it is [grounding.size(i)], [i] being the place
    of the first occurrence of the label, also when the label occurs again
    later in [active_doms]. *)
Theorem get_dim0_of_dom_first_occurrence g x s ob ad :
  heap s !! g = Some ob →
  active_doms ob = Some ad →
  (get_dim0_of_dom g x s).2 = s ∧
  (x ∉ ad → (get_dim0_of_dom g x s).1 = Raise ValueError) ∧
  (∀ i, ad !! i = Some x → (∀ j, j < i → ad !! j ≠ Some x) →
     (get_dim0_of_dom g x s).1 = torch.size (value ob) i).
Proof.
  intros Hg Had. rewrite get_dim0_of_dom_run. cbn [fst snd].
  unfold dim0_value, index. rewrite Hg, Had. split_and!; [done| |].
  - intros Hx.
    assert (list_find (x =.) ad = None) as ->; [|done].
    apply list_find_None, Forall_forall. intros y Hy ->. done.
  - intros i Hi Hfirst.
    assert (list_find (x =.) ad = Some (i, x)) as ->; [|done].
    apply list_find_Some. split_and!; [done|done|].
    intros j y Hj Hlt ->. by apply (Hfirst j).
Qed.
End dim0.

(** ** More on [Variable], [Constant] and [Domain] *)

Lemma Domain_init_stores (shp dname : pyval) d :
  Domain_init shp dname = Return d → d = {| shape := shp; domain_name := dname |}.
Proof.
  unfold Domain_init.
  destruct (if negb (isinstance_tuple shp)
            then rbind (iter shp) (λ vs, Return (forallb isinstance_int vs))
            else Return false) as [|[]]; simpl; congruence.
Qed.

Section terms.
Context {V : Type} `{!Inhabited V}.
Implicit Types (t : torch.Tensor V) (dom : Domain) (name : string).

Lemma size_eqb_nil (v : pyval) : size_eqb [] v = true → v = py_tuple [].
Proof. destruct v as [| | | |l|]; try done. by destruct l. Qed.

Lemma size_eqb_tuple sh (v : pyval) : size_eqb sh v = true → isinstance_tuple v = true.
Proof. by destruct v. Qed.

(** X10.  What every variable the constructor returns satisfies: the name
    does not start with [diag], the name, the free variables and the domain
    are stored, and the grounding has two axes or more.  Behind the first
    axis the grounding has the shape of the domain, with one exception: in
    a domain of shape [()] the grounding has shape [(1, n)], its [n]
    individuals lying along axis 1. *)
Theorem Variable_init_invariant name dom (inds : individuals (V:=V)) v :
  Variable_init name dom inds = Return v →
  String.prefix "diag" name = false ∧
  variable_name v = name ∧ free_variables v = [name] ∧ domain v = dom ∧
  2 ≤ length (torch.shape (grounding v)) ∧
  (size_eqb (drop 1 (torch.shape (grounding v))) (shape dom) = true ∨
   shape dom = py_tuple [] ∧ ∃ n, 0 < n ∧ torch.shape (grounding v) = [1; n]).
Proof.
  unfold Variable_init.
  destruct (match inds with FloatTensor t => Return t | Sequence l => torch.tensor l end)
    as [|[sh dt]]; [done|]. cbn [rbind].
  unfold torch.getitem at 1. cbn [torch.shape torch.data].
  destruct sh as [|n sh]; [done|]. case_decide as Hn; [|done]. cbn [rbind torch.shape].
  destruct (size_eqb sh (shape dom)) eqn:Heq; [|done]. cbn [negb].
  destruct sh as [|m sh].
  - rewrite decide_True by done.
    change [1%Z; Z.of_nat ([n] !!! 0)] with (Z.of_nat <$> [1; n]).
    rewrite reshape_exact. case_decide; [|done]. cbn [rbind].
    destruct (String.prefix "diag" name); [done|]. intros [= <-]. cbn.
    split_and!; [done..|lia|]. right. split; [by apply size_eqb_nil|]. by exists n.
  - rewrite decide_False by done. cbn [rbind].
    destruct (String.prefix "diag" name); [done|]. intros [= <-]. cbn.
    split_and!; [done..|lia|]. by left.
Qed.

(** X11.  Scalar individuals in a domain of shape [()]: the constructor
    returns, and the [k] individuals share one row.  Axis 0 of the grounding
    has one entry, which holds all of them, and there is no second entry,
    however many individuals were given. *)
Theorem scalar_individuals_share_one_row name (dname : pyval) (vs : list V) :
  String.prefix "diag" name = false →
  vs ≠ [] →
  ∃ v, Variable_init name {| shape := py_tuple []; domain_name := dname |}
         (Sequence ((λ x, torch.mk [] [x]) <$> vs)) = Return v ∧
       grounding v = torch.mk [1; length vs] vs ∧
       torch.getitem (grounding v) 0 = Return (torch.mk [length vs] vs) ∧
       ∀ i, 0 < i → torch.getitem (grounding v) i = Raise IndexError.
Proof.
  intros Hname Hne. unfold Variable_init.
  rewrite (tensor_stacks []); [|by destruct vs|]; cycle 1.
  { apply Forall_fmap, Forall_forall. done. }
  assert (mjoin (torch.data <$> ((λ x, torch.mk [] [x]) <$> vs)) = vs) as ->.
  { clear. induction vs as [|x vs IH]; [done|]. simpl. f_equal. exact IH. }
  rewrite length_fmap. cbn [rbind]. unfold torch.getitem at 1. cbn [torch.shape torch.data].
  rewrite decide_True by (destruct vs; [done|simpl; lia]). cbn [rbind torch.shape].
  cbn [size_eqb shape tuple_eqb negb]. rewrite decide_True by done.
  change [1%Z; Z.of_nat ([length vs] !!! 0)] with (Z.of_nat <$> [1; length vs]).
  rewrite reshape_exact. cbn [torch.data torch.numel foldr].
  rewrite decide_True by lia. cbn [rbind]. rewrite Hname.
  eexists. split; [done|]. cbn [grounding]. split_and!; [done| |].
  - unfold torch.getitem. cbn [torch.shape torch.data torch.numel foldr].
    rewrite decide_True by lia. rewrite Nat.mul_1_r. simpl. by rewrite firstn_all.
  - intros i Hi. unfold torch.getitem. cbn [torch.shape].
    by rewrite decide_False by lia.
Qed.

Lemma scalar_individuals_run name (dname : pyval) (vs : list V) :
  String.prefix "diag" name = false → vs ≠ [] →
  Variable_init name {| shape := py_tuple []; domain_name := dname |}
    (Sequence ((λ x, torch.mk [] [x]) <$> vs))
  = Return {| grounding := torch.mk [1; length vs] vs;
              domain := {| shape := py_tuple []; domain_name := dname |};
              variable_name := name; free_variables := [name] |}.
Proof.
  intros Hname Hne. unfold Variable_init.
  rewrite (tensor_stacks []); [|by destruct vs|]; cycle 1.
  { apply Forall_fmap, Forall_forall. done. }
  assert (mjoin (torch.data <$> ((λ x, torch.mk [] [x]) <$> vs)) = vs) as ->.
  { clear. induction vs as [|x vs IH]; [done|]. simpl. f_equal. exact IH. }
  rewrite length_fmap. cbn [rbind]. unfold torch.getitem at 1. cbn [torch.shape torch.data].
  rewrite decide_True by (destruct vs; [done|simpl; lia]). cbn [rbind torch.shape].
  cbn [size_eqb shape tuple_eqb negb]. rewrite decide_True by done.
  change [1%Z; Z.of_nat ([length vs] !!! 0)] with (Z.of_nat <$> [1; length vs]).
  rewrite reshape_exact. cbn [torch.data torch.numel foldr].
  rewrite decide_True by lia. cbn [rbind]. by rewrite Hname.
Qed.

(** C7, on the code.  In a domain of shape [()] the individuals are
    scalars: with a non-empty sequence of them and a name that is not
    reserved, the shape of every individual is the shape of the domain, as
    the claim asks, and the constructor returns.  But axis 0 of the
    grounding does not enumerate the individuals: lines 113-115 view the
    [k] stacked scalars as one row, so the grounding has shape [(1, k)]
    and not [(k,)], [(1, 1)] for one individual, and no entry along axis 0
    is the individual of that place: entry [0] is the row of all of them,
    and there is no further entry. *)
Theorem Variable_init_scalar_domain name (dname : pyval) (vs : list V) :
  String.prefix "diag" name = false →
  vs ≠ [] →
  let dom := {| shape := py_tuple []; domain_name := dname |} in
  let inds := (λ x, torch.mk [] [x]) <$> vs in
  Forall (λ t, size_eqb (torch.shape t) (shape dom) = true ∧ torch.well_formed t) inds ∧
  ∃ v, Variable_init name dom (Sequence inds) = Return v ∧
       torch.shape (grounding v) = [1; length vs] ∧
       torch.shape (grounding v) ≠ [length vs] ∧
       torch.getitem (grounding v) 0 = Return (torch.mk [length vs] vs) ∧
       ∀ i t, inds !! i = Some t → torch.getitem (grounding v) i ≠ Return t.
Proof.
  intros Hname Hne dom inds. split.
  { apply Forall_fmap, Forall_forall. done. }
  eexists. split; [by apply scalar_individuals_run|]. cbn [grounding torch.shape].
  split_and!; [done|done| |].
  - unfold torch.getitem. cbn [torch.shape torch.data torch.numel foldr].
    rewrite decide_True by lia. rewrite Nat.mul_1_r. simpl. by rewrite firstn_all.
  - intros i t Hi. subst inds. rewrite list_lookup_fmap in Hi.
    destruct (vs !! i) as [x|]; [|done]. injection Hi as <-.
    unfold torch.getitem. cbn [torch.shape]. case_decide; [|done].
    intros Heq. discriminate Heq.
Qed.

(** X12.  Without a first individual there is no variable: an empty
    sequence, a tensor whose first axis is empty and a tensor without axes
    make the constructor raise the [IndexError] of [grounding[0]], whatever
    the name, reserved or not, and whatever the domain. *)
Theorem no_individual_is_an_IndexError name dom (sh : list nat) (dt : list V) :
  Variable_init name dom (Sequence (V:=V) []) = Raise IndexError ∧
  Variable_init name dom (FloatTensor (torch.mk (0 :: sh) dt)) = Raise IndexError ∧
  Variable_init name dom (FloatTensor (torch.mk [] dt)) = Raise IndexError.
Proof. done. Qed.


Lemma Constant_init_tuple {P} (cast : P → V) (differentiable : bool) name dom
    (value : torch.Tensor P) (trainable : bool) c :
  Constant.init cast differentiable name dom value trainable = Return c →
  isinstance_tuple (shape dom) = true.
Proof.
  unfold Constant.init, Constant.tensor.
  destruct (trainable && negb differentiable); [done|]. cbn [rbind torch.shape].
  destruct (size_eqb (torch.shape value) (shape dom)) eqn:Heq; [|done].
  intros _. by eapply size_eqb_tuple.
Qed.

Lemma Variable_init_tuple name dom (inds : individuals (V:=V)) v :
  Variable_init name dom inds = Return v → isinstance_tuple (shape dom) = true.
Proof.
  unfold Variable_init.
  destruct (match inds with FloatTensor t => Return t | Sequence l => torch.tensor l end)
    as [|t0]; [done|]. cbn [rbind].
  destruct (torch.getitem t0 0) as [|first]; [done|]. cbn [rbind].
  destruct (size_eqb (torch.shape first) (shape dom)) eqn:Heq; [|done].
  intros _. by eapply size_eqb_tuple.
Qed.

(** X14.  [Domain.__init__] accepts lists and strings as shapes, a list
    with an entry that is not an integer for one.  Over a domain whose
    shape is a list or a string no term can be built: a [torch.Size] is a
    tuple and differs from every list and every string, so [Constant] and
    [Variable] refuse every value. *)
Theorem list_or_string_domain_has_no_terms {P} (cast : P → V) (differentiable : bool)
    (shp dname : pyval) d name (value : torch.Tensor P) (trainable : bool)
    (inds : individuals (V:=V)) :
  Domain_init shp dname = Return d →
  (∃ l, shp = py_list l) ∨ (∃ str, shp = py_str str) →
  ¬ returns (Constant.init (V:=V) cast differentiable name d value trainable) ∧
  ¬ returns (Variable_init name d inds).
Proof.
  intros Hd Hshp. apply Domain_init_stores in Hd as ->.
  assert (isinstance_tuple shp = false) as Htup by (by destruct Hshp as [[? ->]|[? ->]]).
  split.
  - intros [c Hc]. apply Constant_init_tuple in Hc. simpl in Hc. congruence.
  - intros [v Hv]. apply Variable_init_tuple in Hv. simpl in Hv. congruence.
Qed.
End terms.

Lemma forallb_Forall {A} (f : A → bool) (l : list A) :
  forallb f l = true ↔ Forall (λ v, f v = true) l.
Proof.
  induction l as [|x l IH]; simpl.
  - split; [constructor|done].
  - rewrite andb_true_iff, IH. split.
    + intros [? ?]. by constructor.
    + intros [? ?]%Forall_cons. done.
Qed.

(** X15.  Which shapes [Domain.__init__] refuses, and how, among the six
    kinds of [pyval]: [None], booleans, integers, strings, tuples and
    lists.  Of these, [ValueError] is raised for the lists whose entries are
    all integers and for the empty string, and for nothing else; [None], a
    boolean and an integer end in the [TypeError] of iterating over them;
    every other one, tuple or not, is stored as it is given, with the
    name. *)
Theorem Domain_init_refusals (shp dname : pyval) :
  (Domain_init shp dname = Raise ValueError ↔
     shp = py_str "" ∨
     ∃ l, shp = py_list l ∧ Forall (λ v, isinstance_int v = true) l) ∧
  (Domain_init shp dname = Raise TypeError ↔
     shp = py_none ∨ (∃ b, shp = py_bool b) ∨ ∃ z, shp = py_int z) ∧
  (Domain_init shp dname = Raise ValueError ∨
   Domain_init shp dname = Raise TypeError ∨
   Domain_init shp dname = Return {| shape := shp; domain_name := dname |}).
Proof.
  destruct shp as [|b|z|str|l|l]; unfold Domain_init; cbn [isinstance_tuple negb iter rbind].
  - split_and!; [| |by auto].
    + split; [done|]. by intros [?|(? & ? & _)].
    + split; [by auto|done].
  - split_and!; [| |by auto].
    + split; [done|]. by intros [?|(? & ? & _)].
    + split; [by eauto|done].
  - split_and!; [| |by auto].
    + split; [done|]. by intros [?|(? & ? & _)].
    + split; [by eauto|done].
  - destruct str as [|c str]; cbn [chars forallb isinstance_int andb].
    + split_and!; [| |by auto].
      * split; [by auto|done].
      * split; [done|]. by intros [?|[[? ?]|[? ?]]].
    + split_and!; [| |by auto].
      * split; [done|]. by intros [?|(? & ? & _)].
      * split; [done|]. by intros [?|[[? ?]|[? ?]]].
  - split_and!; [| |by auto].
    + split; [done|]. by intros [?|(? & ? & _)].
    + split; [done|]. by intros [?|[[? ?]|[? ?]]].
  - destruct (forallb isinstance_int l) eqn:Hl.
    + split_and!; [| |by auto].
      * split; [|done]. intros _. right. exists l. split; [done|]. by apply forallb_Forall.
      * split; [done|]. by intros [?|[[? ?]|[? ?]]].
    + split_and!; [| |by auto].
      * split; [done|]. intros [?|(l' & [= <-] & Hl')]; [done|].
        apply forallb_Forall in Hl'. congruence.
      * split; [done|]. by intros [?|[[? ?]|[? ?]]].
Qed.

(** X21.  [Domain.__init__] stores whatever name it is given, and
    [__repr__] can print a domain only when the name is a string: with any
    other name it raises the [TypeError] of the concatenation. *)
Theorem Domain_repr_needs_a_string_name (str : pyval → string) (shp dname : pyval) d :
  Domain_init shp dname = Return d →
  (∀ name, dname = py_str name →
     Domain_repr str d
     = Return ("Domain(domain_name='" +:+ name +:+ "', grounding=R^"
                 +:+ str shp +:+ ")")) ∧
  ((∀ name, dname ≠ py_str name) → Domain_repr str d = Raise TypeError).
Proof.
  intros Hd.
  apply Domain_init_stores in Hd as ->.
  unfold Domain_repr. cbn [domain_name shape]. split.
  - by intros name ->.
  - intros Hname. destruct dname; try done. by destruct (Hname s).
Qed.

(** ** The layers of [Predicate.MLP] *)

Lemma feed_forward_length (dims : list nat) :
  length (feed_forward dims) = 2 * (length dims - 1).
Proof.
  induction dims as [|a tl IH]; [done|].
  destruct tl as [|b rest]; [done|].
  cbn [feed_forward length] in *. rewrite IH. lia.
Qed.

Lemma feed_forward_lookup (dims : list nat) k :
  S k < length dims →
  feed_forward dims !! (2 * k) = Some (Linear (dims !!! k) (dims !!! S k)) ∧
  feed_forward dims !! (2 * k + 1)
    = Some (if decide (S (S k) = length dims) then Sigmoid else ELU).
Proof.
  revert k. induction dims as [|a tl IH]; intros k Hk; [simpl in Hk; lia|].
  destruct tl as [|b rest]; [simpl in Hk; lia|].
  destruct k as [|k].
  - cbn [feed_forward]. simpl. split; [done|].
    destruct rest; [by rewrite decide_True|by rewrite decide_False].
  - destruct (IH k) as [H1 H2]; [simpl in *; lia|].
    replace (2 * S k) with (S (S (2 * k))) by lia.
    replace (S (S (2 * k)) + 1) with (S (S (2 * k + 1))) by lia.
    cbn [feed_forward]. split.
    + exact H1.
    + change (feed_forward (b :: rest) !! (2 * k + 1)
              = Some (if decide (S (S (S k)) = length (a :: b :: rest))
                      then Sigmoid else ELU)).
      rewrite H2. cbn [length]. by repeat case_decide; try lia.
Qed.

(** X16.  The network [MLP] builds, layer by layer: two layers for every
    consecutive pair of widths, none at all for fewer than two widths; at
    the even place [2 k] the [Linear] layer from width [k] to width
    [k + 1], so that every layer feeds the next one; behind it [ELU], and
    [Sigmoid] behind the last one only. *)
Theorem MLP_layer_by_layer {C} (layer_dims : list nat) :
  ∃ layers,
    model (MLP (C:=C) layer_dims) = Sequential layers ∧
    length layers = 2 * (length layer_dims - 1) ∧
    ∀ k, S k < length layer_dims →
      layers !! (2 * k) = Some (Linear (layer_dims !!! k) (layer_dims !!! S k)) ∧
      layers !! (2 * k + 1)
        = Some (if decide (S (S k) = length layer_dims) then Sigmoid else ELU).
Proof.
  exists (feed_forward layer_dims). split_and!.
  - apply MLP_layers.
  - apply feed_forward_length.
  - apply feed_forward_lookup.
Qed.

(** ** Crossing what has been crossed *)

Section crossing_again.
Context {V : Type} `{!Inhabited V}.
Implicit Types (s : State (V:=V)) (h : list (Object (V:=V))) (ob : Object (V:=V)).
Implicit Types (t : torch.Tensor V) (d : dict) (o : SetOrder).

Lemma cross_value_well_formed o d doms ad t t' :
  cross_value o d doms false ad t = Return t' → torch.well_formed t'.
Proof.
  unfold cross_value. destruct (expand _ _ _ _) as [|[t1 d1]]; [done|]. cbn [rbind].
  destruct (comprehension _ _) as [|idxs]; [done|]. cbn [rbind].
  unfold torch.permute. case_decide; [|done]. cbn [rbind].
  intros [= <-]. apply tabulate_well_formed.
Qed.

Lemma foldl_add_label_present (acc l : list string) :
  (∀ x, x ∈ l → x ∈ acc) → foldl add_label acc l = acc.
Proof.
  induction l as [|x l IH]; intros Hl; [done|]. simpl.
  unfold add_label at 2. rewrite decide_True by (apply Hl; left).
  apply IH. intros y Hy. apply Hl. by right.
Qed.

Lemma foldl_add_label_NoDup (pre rest : list string) :
  NoDup (pre ++ rest) → foldl add_label pre rest = pre ++ rest.
Proof.
  revert pre. induction rest as [|x rest IH]; intros pre Hnd.
  - by rewrite app_nil_r.
  - simpl. unfold add_label at 2. rewrite decide_False; cycle 1.
    { apply NoDup_app in Hnd as (_ & Hnd & _). intros Hx. apply (Hnd x Hx). left. }
    rewrite IH by (by rewrite <-app_assoc). by rewrite <-app_assoc.
Qed.

Lemma first_seen_same h (gs : list nat) (l : list string) :
  NoDup l → gs ≠ [] → Forall (λ g, labels h g = l) gs →
  first_seen (gs ≫= labels h) = l.
Proof.
  intros Hnd Hne Hgs. destruct gs as [|g gs]; [done|].
  apply Forall_cons in Hgs as [Hg Hgs]. unfold first_seen. simpl.
  rewrite foldl_app, Hg, (foldl_add_label_NoDup [] l Hnd). simpl.
  apply foldl_add_label_present. intros x (g' & Hx & Hg')%list_elem_of_bind.
  rewrite Forall_forall in Hgs. by rewrite (Hgs g' Hg') in Hx.
Qed.

(** X17.  Crossing is idempotent.  The unflattened outputs of a call on
    well-formed groundings are well-formed groundings again, all with the
    canonical domains as labels; given them, the engine returns the same
    domains and, object for object, what it was given: a second crossing
    adds no axis and moves no entry, whatever the iteration orders. *)
Theorem crossing_again_changes_nothing o o' gs s :
  groundings_ok (heap s) gs →
  gs ≠ [] →
  ∃ crossed doms dims0 s1 crossed' dims0' s2,
    cross_grounding_values o gs false s = (Return (crossed, doms, dims0), s1) ∧
    groundings_ok (heap s1) crossed ∧
    cross_grounding_values o' crossed false s1
      = (Return (crossed', doms, dims0'), s2) ∧
    Forall2 (λ g g', ∃ ob, heap s1 !! g = Some ob ∧ heap s2 !! g' = Some ob)
      crossed crossed'.
Proof.
  intros Hok Hne.
  destruct (scan_value_spec (heap s) gs [] Hok) as (d & Hd & Hnd & Hkeys & _ & _).
  specialize (Hnd (NoDup_nil_2)).
  assert (∃ ts, Forall2 (λ g t', ∃ ob ad, heap s !! g = Some ob ∧
              active_doms ob = Some ad ∧
              cross_value o d (keys d) false ad (value ob) = Return t' ∧
              length (keys d) ≤ length (torch.shape t')) gs ts) as [ts Hts].
  { apply Forall2_of_Forall, Forall_forall. intros g Hg.
    pose proof Hok as Hok'. unfold groundings_ok in Hok'. rewrite Forall_forall in Hok'.
    destruct (Hok' g Hg) as (ob & Hob & doms & Had & Hdnd & Hlen & Hwf).
    destruct (cross_value_returns o d false doms (value ob)) as (t' & Ht' & Hsh);
      [done|done| |done|done|].
    - intros x Hx. apply Hkeys. right. exists g. split; [done|].
      unfold labels. by rewrite Hob, Had.
    - destruct (Hsh eq_refl) as [Hrank _].
      exists t', ob, doms. split_and!; [done..|lia]. }
  destruct (cross_grounding_values_spec o gs false s d ts Hd) as (crossed & s1 & Hrun & _ & Hcr).
  { eapply Forall2_impl; [exact Hts|]. simpl.
    intros g t' (ob & ad & ? & ? & ? & _). by exists ob, ad. }
  assert (Forall2 (λ g' t',
            heap s1 !! g' = Some {| value := t'; active_doms := Some (keys d) |} ∧
            torch.well_formed t' ∧ length (keys d) ≤ length (torch.shape t'))
          crossed ts) as Hout.
  { apply Forall2_same_length_lookup. split; [by eapply Forall2_length|].
    intros i g' t' Hi Ht.
    destruct (Forall2_lookup_r _ _ _ _ _ Hts Ht) as (g & _ & ob & ad & _ & _ & Hv & Hrank).
    destruct (Forall2_lookup_lr _ _ _ _ _ _ Hcr Hi Ht) as [_ Hob].
    split_and!; [done|by eapply cross_value_well_formed|done]. }
  assert (groundings_ok (heap s1) crossed) as Hok1.
  { apply Forall_forall. intros g' Hg'. apply list_elem_of_lookup in Hg' as [i Hi].
    destruct (Forall2_lookup_l _ _ _ _ _ Hout Hi) as (t' & _ & Hob & Hwf & Hrank).
    eexists. split; [exact Hob|]. exists (keys d). split_and!; done. }
  assert (crossed ≠ []) as Hne1.
  { intros ->. apply Forall2_nil_inv_l in Hcr as ->.
    apply Forall2_nil_inv_r in Hts. done. }
  destruct (scan_value_spec (heap s1) crossed [] Hok1) as (d2 & Hd2 & _).
  assert (keys d2 = keys d) as Hk2.
  { rewrite (scan_value_keys _ _ _ _ Hd2). apply first_seen_same; [done|done|].
    apply Forall_forall. intros g' Hg'. apply list_elem_of_lookup in Hg' as [i Hi].
    destruct (Forall2_lookup_l _ _ _ _ _ Hout Hi) as (t' & _ & Hob & _).
    unfold labels. by rewrite Hob. }
  destruct (cross_grounding_values_spec o' crossed false s1 d2 ts Hd2)
    as (crossed' & s2 & Hrun2 & _ & Hcr2).
  { eapply Forall2_impl; [exact Hout|]. simpl. intros g' t' (Hob & Hwf & Hrank).
    eexists _, (keys d). split_and!; [exact Hob|done|]. simpl.
    rewrite Hk2. by rewrite (cross_value_own o' d2 false (keys d) t' Hk2 Hnd Hrank Hwf). }
  rewrite Hk2 in Hrun2, Hcr2.
  exists crossed, (keys d), (values d), s1, crossed', (values d2), s2.
  split_and!; [done..|].
  eapply Forall2_impl; [exact (Forall2_join _ _ _ _ _ Hout Hcr2)|]. simpl.
  intros g g' (t' & (Hob & _) & _ & Hob'). eauto.
Qed.
End crossing_again.

(** ** The further properties at concrete inputs *)

Lemma canonical_order_is_first_seen_witness :
  groundings_ok (heap scenario) [0; 1] ∧
  ∃ crossed dims0 s',
    cross_grounding_values insertion_order [0; 1] true scenario
      = (Return (crossed, ["x"; "y"], dims0), s') ∧
    length dims0 = 2.
Proof.
  assert (groundings_ok (heap scenario) [0; 1]) as Hok by concrete_groundings.
  assert (true = true → flattenable (heap scenario) [0; 1]) as Hfl by concrete_axes.
  split; [exact Hok|].
  exact (canonical_order_is_first_seen insertion_order [0; 1] true scenario Hok Hfl).
Defined.

Lemma missing_attribute_stops_the_call_witness :
  ¬ returns (cross_grounding_values insertion_order [0; 1] false unlabelled).1 ∧
  (cross_grounding_values insertion_order [0; 1] false unlabelled).2 = unlabelled.
Proof.
  apply (missing_attribute_stops_the_call insertion_order [0; 1] false unlabelled 1
           {| value := torch.mk [2] [7; 8]%Z; active_doms := None |});
    [right; left|reflexivity|reflexivity].
Defined.

Lemma outputs_have_canonical_axes_witness :
  groundings_ok (heap scenario) [0; 1] ∧ consistent scenario [0; 1] ∧
  ∃ crossed doms dims0 s',
    cross_grounding_values insertion_order [0; 1] true scenario
      = (Return (crossed, doms, dims0), s') ∧
    Forall2 (λ g g', ∃ ob ob',
               heap scenario !! g = Some ob ∧ heap s' !! g' = Some ob' ∧
               torch.shape (value ob') = [torch.numel dims0] ++ value_axes ob)
      [0; 1] crossed.
Proof.
  assert (groundings_ok (heap scenario) [0; 1]) as Hok by concrete_groundings.
  assert (true = true → flattenable (heap scenario) [0; 1]) as Hfl by concrete_axes.
  assert (consistent scenario [0; 1]) as Hcons.
  { intros g g' x Hg Hg' Hx Hx'.
    apply elem_of_cons in Hg as [->|Hg]; [|apply list_elem_of_singleton in Hg as ->];
      (apply elem_of_cons in Hg' as [->|Hg']; [|apply list_elem_of_singleton in Hg' as ->]);
      try reflexivity;
      apply list_elem_of_singleton in Hx as ->; by apply list_elem_of_singleton in Hx'. }
  split; [exact Hok|]. split; [exact Hcons|].
  exact (outputs_have_canonical_axes insertion_order [0; 1] true scenario Hok Hcons Hfl).
Defined.

Lemma two_variables_are_crossed_witness :
  ∃ gx' gy' s' obx' oby',
    cross_grounding_values insertion_order [0; 1] true scenario
      = (Return ([gx'; gy'], ["x"; "y"], [3; 2]), s') ∧
    heap s' !! gx' = Some obx' ∧ heap s' !! gy' = Some oby' ∧
    ∀ i j, i < 3 → j < 2 →
      torch.getitem (value obx') (i * 2 + j)
        = torch.getitem (torch.mk [3; 1] [0; 1; 2]%Z) i ∧
      torch.getitem (value oby') (i * 2 + j)
        = torch.getitem (torch.mk [2; 1] [0; 1]%Z) j.
Proof.
  apply (two_variables_are_crossed insertion_order true scenario 0 1
           (zobj [3; 1] [0; 1; 2]%Z ["x"]) (zobj [2; 1] [0; 1]%Z ["y"])
           "x" "y" 3 2 [1] [1]);
    [reflexivity|reflexivity|reflexivity|reflexivity
    |reflexivity|reflexivity|reflexivity|reflexivity|done
    |intros _; split; repeat constructor].
Defined.

Lemma one_grounding_keeps_its_entries_witness :
  ∃ g' s',
    cross_grounding_values insertion_order [1] true scenario
      = (Return ([g'], ["y"], [2]), s') ∧
    length (heap scenario) ≤ g' ∧
    heap s' !! g'
      = Some {| value := torch.mk [2; 1] [0; 1]%Z; active_doms := None |}.
Proof.
  apply (one_grounding_keeps_its_entries insertion_order 1 true scenario
           (zobj [2; 1] [0; 1]%Z ["y"]));
    [reflexivity
    |eexists; split_and!; [reflexivity|by apply (bool_decide_unpack _)|simpl; lia|reflexivity]
    |intros _; repeat constructor].
Defined.

Lemma forward_one_grounding_witness :
  ∃ r s' ob,
    forward insertion_order passes_on (OneTensor 0) scenario = (Return r, s') ∧
    heap s' !! r = Some ob ∧
    active_doms ob = Some ["x"] ∧ value ob = torch.mk [3] [0; 1; 2]%Z.
Proof.
  destruct (forward_one_grounding insertion_order passes_on 0 scenario
              (zobj [3; 1] [0; 1; 2]%Z ["x"]))
    as (g' & s1 & _ & _ & Hg' & _ & _ & Hret);
    [reflexivity
    |eexists; split_and!; [reflexivity|by apply (bool_decide_unpack _)|simpl; lia|reflexivity]
    |done
    |repeat constructor|].
  specialize (Hret g' s1 _ eq_refl Hg'). rewrite decide_True in Hret by reflexivity.
  do 3 eexists. split; [exact Hret|]. cbn [heap].
  split; [apply list_lookup_middle; reflexivity|]. split; reflexivity.
Defined.

Lemma forward_constant_marks_the_model_output_witness :
  ∃ g' s',
    forward insertion_order passes_on (OneTensor 0) constant_and_variable
      = (Return g', s') ∧
    length (heap constant_and_variable) ≤ g' ∧
    heap s' !! g'
      = Some {| value := torch.mk [1; 2] [7; 8]%Z; active_doms := Some [] |}.
Proof.
  destruct (forward_constant_marks_the_model_output insertion_order passes_on 0
              constant_and_variable (zobj [2] [7; 8]%Z []))
    as (g' & s1 & Hfresh & Hg' & _ & Hret);
    [reflexivity|reflexivity|reflexivity|repeat constructor|].
  specialize (Hret g' s1 _ eq_refl Hg').
  exists g'. eexists. split; [exact Hret|]. split; [exact Hfresh|]. cbn [heap].
  rewrite list_lookup_insert_eq; [reflexivity|]. by eapply lookup_lt_Some.
Defined.

Lemma forward_needs_active_doms_witness :
  forward insertion_order passes_on (OneTensor 1) unlabelled
    = (Raise AttributeError, unlabelled) ∧
  forward insertion_order passes_on (ListOf [1; 0]) unlabelled
    = (Raise AttributeError, unlabelled) ∧
  forward insertion_order passes_on (TupleOf [1; 0]) unlabelled
    = (Raise AttributeError, unlabelled).
Proof.
  apply (forward_needs_active_doms insertion_order passes_on 1 [0] unlabelled
           {| value := torch.mk [2] [7; 8]%Z; active_doms := None |});
    reflexivity.
Defined.

Lemma get_dim0_of_dom_first_occurrence_witness :
  (get_dim0_of_dom 0 "x" scenario).2 = scenario ∧
  (get_dim0_of_dom 0 "x" scenario).1 = Return 3 ∧
  (get_dim0_of_dom 0 "y" scenario).1 = Raise ValueError.
Proof.
  destruct (get_dim0_of_dom_first_occurrence 0 "x" scenario
              (zobj [3; 1] [0; 1; 2]%Z ["x"]) ["x"] eq_refl eq_refl)
    as (Hs & _ & Hx).
  split; [exact Hs|]. split; [apply (Hx 0 eq_refl); intros j Hj; lia|].
  reflexivity.
Defined.

Lemma Variable_init_invariant_witness :
  let dom := {| shape := py_tuple [py_int 2]; domain_name := py_str "points" |} in
  let v := {| grounding := torch.mk [2; 2] [1; 2; 3; 4]%Z; domain := dom;
              variable_name := "x"; free_variables := ["x"] |} in
  Variable_init "x" dom (Sequence [torch.mk [2] [1; 2]%Z; torch.mk [2] [3; 4]%Z])
    = Return v ∧
  2 ≤ length (torch.shape (grounding v)) ∧
  size_eqb (drop 1 (torch.shape (grounding v))) (shape dom) = true.
Proof.
  simpl.
  destruct (Variable_init_invariant "x"
              {| shape := py_tuple [py_int 2]; domain_name := py_str "points" |}
              (Sequence [torch.mk [2] [1; 2]%Z; torch.mk [2] [3; 4]%Z])
              {| grounding := torch.mk [2; 2] [1; 2; 3; 4]%Z;
                 domain := {| shape := py_tuple [py_int 2];
                              domain_name := py_str "points" |};
                 variable_name := "x"; free_variables := ["x"] |} eq_refl)
    as (_ & _ & _ & _ & Hrank & _).
  split; [reflexivity|]. split; [exact Hrank|reflexivity].
Defined.

Lemma scalar_individuals_share_one_row_witness :
  ∃ v, Variable_init "x" {| shape := py_tuple []; domain_name := py_str "reals" |}
         (Sequence [torch.mk [] [1%Z]; torch.mk [] [2%Z]; torch.mk [] [3%Z]]) = Return v ∧
       grounding v = torch.mk [1; 3] [1; 2; 3]%Z ∧
       torch.getitem (grounding v) 1 = Raise IndexError.
Proof.
  destruct (scalar_individuals_share_one_row "x" (py_str "reals") [1; 2; 3]%Z)
    as (v & Hv & Hg & _ & Hrows); [reflexivity|done|].
  exists v. split; [exact Hv|]. split; [exact Hg|]. apply Hrows. lia.
Defined.


Lemma list_or_string_domain_has_no_terms_witness :
  let d := {| shape := py_list [py_str "a"]; domain_name := py_str "letters" |} in
  Domain_init (py_list [py_str "a"]) (py_str "letters") = Return d ∧
  ¬ returns (Constant.init Z.of_nat true "x" d (torch.mk [1] [7]) false) ∧
  ¬ returns (Variable_init "x" d (Sequence [torch.mk [1] [7%Z]])).
Proof.
  simpl. split; [reflexivity|].
  apply (list_or_string_domain_has_no_terms Z.of_nat true
           (py_list [py_str "a"]) (py_str "letters"));
    [reflexivity|left; by eexists].
Defined.

Lemma crossing_again_changes_nothing_witness :
  groundings_ok (heap scenario) [0; 1] ∧
  ∃ crossed doms dims0 s1 crossed' dims0' s2,
    cross_grounding_values insertion_order [0; 1] false scenario
      = (Return (crossed, doms, dims0), s1) ∧
    groundings_ok (heap s1) crossed ∧
    cross_grounding_values insertion_order crossed false s1
      = (Return (crossed', doms, dims0'), s2) ∧
    Forall2 (λ g g', ∃ ob, heap s1 !! g = Some ob ∧ heap s2 !! g' = Some ob)
      crossed crossed'.
Proof.
  assert (groundings_ok (heap scenario) [0; 1]) as Hok by concrete_groundings.
  split; [exact Hok|].
  apply (crossing_again_changes_nothing insertion_order insertion_order [0; 1] scenario Hok).
  done.
Defined.

(** ** The batches of [DataLoader] *)

Section batches.
Context {A B : Type}.

Lemma rows_at_selected {X} (a : list X) (idx : list nat) :
  Forall (λ i, i < length a) idx → rows_at a idx = Return (selected a idx).
Proof.
  induction 1 as [|i idx Hi _ IH]; [done|].
  destruct (lookup_lt_is_Some_2 a i Hi) as [r Hr].
  unfold rows_at, selected in *. simpl. by rewrite Hr, IH.
Qed.

Lemma length_selected {X} (a : list X) (idx : list nat) :
  Forall (λ i, i < length a) idx → length (selected a idx) = length idx.
Proof.
  induction 1 as [|i idx Hi _ IH]; [done|].
  destruct (lookup_lt_is_Some_2 a i Hi) as [r Hr].
  unfold selected in *. simpl. rewrite Hr. simpl. f_equal. exact IH.
Qed.

Lemma selected_join {X} (a : list X) (ls : list (list nat)) :
  selected a (mjoin ls) = mjoin (selected a <$> ls).
Proof.
  induction ls as [|l ls IH]; [done|]. simpl.
  unfold selected in *. by rewrite omap_app, IH.
Qed.

Lemma selected_seq {X} (pre a : list X) :
  selected (pre ++ a) (seq (length pre) (length a)) = a.
Proof.
  revert pre. induction a as [|x a IH]; intros pre; [done|].
  unfold selected in *. simpl. rewrite list_lookup_middle by done. simpl. f_equal.
  specialize (IH (pre ++ [x])). rewrite <-app_assoc, length_app in IH. simpl in IH.
  by rewrite Nat.add_1_r in IH.
Qed.

Lemma selected_zip {X Y} (a : list X) (b : list Y) (idx : list nat) :
  length a = length b → Forall (λ i, i < length a) idx →
  selected (zip a b) idx = zip (selected a idx) (selected b idx).
Proof.
  intros Hlen. induction 1 as [|i idx Hi _ IH]; [done|].
  destruct (lookup_lt_is_Some_2 a i Hi) as [x Hx].
  destruct (lookup_lt_is_Some_2 b i) as [y Hy]; [lia|].
  unfold selected in *. simpl. rewrite lookup_zip_with, Hx, Hy. simpl.
  f_equal. exact IH.
Qed.

Lemma join_chunks {X} (l : list X) b k :
  mjoin ((λ i, take b (drop (i * b) l)) <$> seq 0 k) = take (k * b) l.
Proof.
  induction k as [|k IH]; [done|].
  rewrite seq_S, fmap_app, join_app, IH. simpl. rewrite app_nil_r.
  rewrite take_take_drop. f_equal. lia.
Qed.

Lemma ceil_div_bounds n b :
  0 < b → n ≤ ceil_div n b * b ∧ ∀ i, i < ceil_div n b → i * b < n.
Proof.
  intros Hb. unfold ceil_div.
  pose proof (Nat.div_mod (n + b - 1) b) as Hdm.
  pose proof (Nat.mod_upper_bound (n + b - 1) b) as Hr.
  split; [nia|]. intros i Hi. nia.
Qed.

Lemma range_positive n b :
  0 < b →
  range 0 (Z.of_nat n) (Z.of_nat b)
  = Return ((λ i, Z.of_nat (i * b)) <$> seq 0 (ceil_div n b)).
Proof.
  intros Hb. unfold range. rewrite decide_False by lia. rewrite decide_True by lia.
  f_equal.
  assert (Z.to_nat (if decide (0 < Z.of_nat n)%Z
                    then ((Z.of_nat n - 0 - 1) / Z.of_nat b + 1)%Z else 0%Z)
          = ceil_div n b) as ->.
  { unfold ceil_div. case_decide as Hn.
    - replace (Z.of_nat n - 0 - 1)%Z with (Z.of_nat (n - 1)) by lia.
      rewrite <-Nat2Z.inj_div.
      replace (n + b - 1) with (n - 1 + 1 * b) by lia.
      rewrite Nat.div_add by lia. lia.
    - replace n with 0 by lia. simpl.
      rewrite Nat.div_small by lia. done. }
  apply list_fmap_ext. intros _ i _. lia.
Qed.

Lemma slice_chunk {X} (l : list X) b i :
  0 < b → i * b < length l →
  slice l (Z.of_nat (i * b)) (Z.min (Z.of_nat (i * b) + Z.of_nat b) (Z.of_nat (length l)))
  = take b (drop (i * b) l).
Proof.
  intros Hb Hi. unfold slice. rewrite Nat2Z.id.
  destruct (decide (i * b + b ≤ length l)) as [Hle|Hgt].
  - f_equal. lia.
  - rewrite !take_ge; [done| |]; rewrite length_drop; lia.
Qed.

Lemma generate_fmap {X Y Z'} (g : X → Y) (body : Y → result Z') (l : list X) :
  generate body (g <$> l) = generate (λ x, body (g x)) l.
Proof.
  induction l as [|x l IH]; [done|]. simpl in *. destruct (body (g x)); [done|].
  change (list_fmap X Y g l) with (g <$> l). by rewrite IH.
Qed.

Lemma generate_all {X Y} (body : X → result Y) (f : X → Y) (l : list X) :
  (∀ x, x ∈ l → body x = Return (f x)) → generate body l = (f <$> l, None).
Proof.
  induction l as [|x l IH]; intros Hl; [done|]. simpl.
  rewrite Hl by left. rewrite IH; [done|]. intros y Hy. apply Hl. by right.
Qed.

(** X18.  One pass over a loader with a positive batch size and as many
    labels as rows ends without an exception after [ceil(n / batch_size)]
    batches.  The batches partition the data: put end to end they are the
    rows with their labels, each pair once, in the order of the arrays when
    nothing is shuffled.  Every batch has as many labels as rows, at least
    one row and at most [batch_size], and every batch but the last has
    [batch_size] rows. *)
Theorem batches_partition_the_data rng (data : list A) (labels : list B)
    (b : nat) (sh : bool) :
  0 < b →
  length labels = length data →
  ∃ batches,
    DataLoader.iter rng {| DataLoader.data := data; DataLoader.labels := labels;
                           DataLoader.batch_size := Z.of_nat b;
                           DataLoader.shuffle := sh |} = (batches, None) ∧
    length batches = ceil_div (length data) b ∧
    mjoin ((λ p, zip p.1 p.2) <$> batches) ≡ₚ zip data labels ∧
    (sh = false → mjoin (fst <$> batches) = data ∧ mjoin (snd <$> batches) = labels) ∧
    ∀ i p, batches !! i = Some p →
      length p.1 = length p.2 ∧ 0 < length p.1 ≤ b ∧
      (S i < length batches → length p.1 = b).
Proof.
  intros Hb Hlen. unfold DataLoader.iter. cbn [DataLoader.data DataLoader.labels
    DataLoader.batch_size DataLoader.shuffle].
  set (n := length data).
  set (idxlist := if sh then shuffled rng (seq 0 n) else seq 0 n).
  assert (idxlist ≡ₚ seq 0 n) as Hperm.
  { subst idxlist. destruct sh; [apply shuffled_perm|done]. }
  assert (length idxlist = n) as Hn by (by rewrite Hperm, length_seq).
  assert (Forall (λ i, i < n) idxlist) as Hin.
  { rewrite Hperm. apply Forall_forall. intros i Hi%elem_of_seq. lia. }
  destruct (ceil_div_bounds n b Hb) as [Hcover Hstart].
  set (k := ceil_div n b) in *.
  set (chunk := λ i, take b (drop (i * b) idxlist)).
  assert (∀ i, Forall (λ j, j < n) (chunk i)) as Hchunk.
  { intros i. by apply Forall_take, Forall_drop. }
  assert (mjoin (chunk <$> seq 0 k) = idxlist) as Hjoin.
  { subst chunk. rewrite join_chunks. apply take_ge. lia. }
  rewrite range_positive by done. fold k. rewrite generate_fmap.
  rewrite (generate_all _ (λ i, (selected data (chunk i), selected labels (chunk i))));
    cycle 1.
  { intros i Hi%elem_of_seq. rewrite <-Hn, slice_chunk by (done || (rewrite Hn; apply Hstart; lia)).
    fold (chunk i). rewrite !rows_at_selected; [done| |].
    - by rewrite Hlen.
    - done. }
  eexists. split; [done|]. split_and!.
  - by rewrite length_fmap, length_seq.
  - rewrite <-list_fmap_compose.
    assert ((λ p : list A * list B, zip p.1 p.2)
              ∘ (λ i, (selected data (chunk i), selected labels (chunk i)))
            <$> seq 0 k
            = selected (zip data labels) <$> (chunk <$> seq 0 k)) as ->.
    { rewrite <-list_fmap_compose. apply list_fmap_ext. intros _ i _. simpl.
      by rewrite selected_zip. }
    rewrite <-selected_join, Hjoin. unfold selected. rewrite Hperm.
    pose proof (selected_seq [] (zip data labels)) as Hz. simpl in Hz.
    rewrite length_zip_with, Hlen, Nat.min_id in Hz. rewrite <-Hz at 1. done.
  - intros ->. subst idxlist. rewrite <-!list_fmap_compose.
    change (fst ∘ _) with (λ i, selected data (chunk i)).
    change (snd ∘ _) with (λ i, selected labels (chunk i)).
    split.
    + transitivity (mjoin (selected data <$> (chunk <$> seq 0 k))).
      { by rewrite <-list_fmap_compose. }
      rewrite <-selected_join, Hjoin. apply (selected_seq [] data).
    + transitivity (mjoin (selected labels <$> (chunk <$> seq 0 k))).
      { by rewrite <-list_fmap_compose. }
      rewrite <-selected_join, Hjoin. unfold n. rewrite <-Hlen.
      apply (selected_seq [] labels).
  - intros i p Hp. rewrite list_lookup_fmap in Hp.
    destruct (seq 0 k !! i) as [i'|] eqn:Hi; [|done].
    apply lookup_seq in Hi as [-> Hi]. simpl in Hp. injection Hp as <-.
    rewrite length_fmap, length_seq. cbn [fst snd].
    rewrite !length_selected by (by rewrite ?Hlen).
    assert (length (chunk i) = b `min` (n - i * b)) as ->.
    { subst chunk. simpl. by rewrite length_take, length_drop, Hn. }
    pose proof (Hstart i Hi) as Hib. split; [done|]. split; [lia|].
    intros Hlast. specialize (Hstart (S i) Hlast). lia.
Qed.

(** X19.  A batch size that is not positive gives no batch at all: with
    [0] the pass ends with the [ValueError] of [range], with a negative
    size it ends as an empty pass, without an exception, whatever the
    data. *)
Theorem batch_size_must_be_positive rng (data : list A) (labels : list B)
    (bs : Z) (sh : bool) :
  (bs ≤ 0)%Z →
  DataLoader.iter rng {| DataLoader.data := data; DataLoader.labels := labels;
                         DataLoader.batch_size := bs; DataLoader.shuffle := sh |}
  = ([], if decide (bs = 0)%Z then Some ValueError else None).
Proof.
  intros Hbs. unfold DataLoader.iter, range. cbn [DataLoader.data DataLoader.batch_size].
  case_decide; [done|].
  rewrite decide_False by lia. rewrite decide_False by lia. done.
Qed.
Lemma generate_stops {X Y} (body : X → result Y) (l : list X) ys e :
  generate body l = (ys, e) →
  Forall2 (λ x y, body x = Return y) (take (length ys) l) ys ∧
  match e with
  | None => length ys = length l
  | Some e' => ∃ x, l !! length ys = Some x ∧ body x = Raise e'
  end.
Proof.
  revert ys e. induction l as [|x l IH]; intros ys e; simpl.
  - intros [= <- <-]. split; [constructor|done].
  - destruct (body x) as [e'|y] eqn:Hx.
    + intros [= <- <-]. split; [constructor|]. by exists x.
    + destruct (generate body l) as [ys' e0]. intros [= <- <-].
      destruct (IH ys' e0 eq_refl) as [Hys He]. split; [by constructor|].
      destruct e0 as [e'|]; simpl; [done|]. by rewrite He.
Qed.

Lemma rows_at_inv {X} (a : list X) (idx : list nat) :
  match rows_at a idx with
  | Return _ => Forall (λ i, i < length a) idx
  | Raise e => e = IndexError
  end.
Proof.
  induction idx as [|i idx IH]; [constructor|]. unfold rows_at in *. simpl.
  destruct (a !! i) as [r|] eqn:Hr; [|done]. simpl.
  destruct (comprehension _ idx); [done|]. simpl.
  constructor; [by eapply lookup_lt_Some|done].
Qed.

Lemma rows_at_raises {X Y} (a : list X) (idx : list nat) (f : list X → Y) e :
  rbind (rows_at a idx) (λ l, Return (f l)) = Raise e → e = IndexError.
Proof.
  pose proof (rows_at_inv a idx) as Hinv.
  destruct (rows_at a idx); simpl; [|done]. intros [= <-]. exact Hinv.
Qed.

Lemma rows_at_returns {X Y} (a : list X) (idx : list nat) (f : list X → Y) y :
  rbind (rows_at a idx) (λ l, Return (f l)) = Return y →
  Forall (λ i, i < length a) idx.
Proof.
  pose proof (rows_at_inv a idx) as Hinv.
  destruct (rows_at a idx); simpl; [done|]. intros _. exact Hinv.
Qed.

(** X20.  With fewer labels than rows a pass cannot be completed: after
    fewer than [ceil(n / batch_size)] batches it ends with the [IndexError]
    of [self.labels[...]], shuffled or not. *)
Theorem short_labels_end_in_IndexError rng (data : list A) (labels : list B)
    (b : nat) (sh : bool) :
  0 < b →
  length labels < length data →
  ∃ batches,
    DataLoader.iter rng {| DataLoader.data := data; DataLoader.labels := labels;
                           DataLoader.batch_size := Z.of_nat b;
                           DataLoader.shuffle := sh |} = (batches, Some IndexError) ∧
    length batches < ceil_div (length data) b.
Proof.
  intros Hb Hlen. unfold DataLoader.iter. cbn [DataLoader.data DataLoader.labels
    DataLoader.batch_size DataLoader.shuffle].
  set (n := length data) in *.
  set (idxlist := if sh then shuffled rng (seq 0 n) else seq 0 n).
  assert (idxlist ≡ₚ seq 0 n) as Hperm.
  { subst idxlist. destruct sh; [apply shuffled_perm|done]. }
  assert (length idxlist = n) as Hn by (by rewrite Hperm, length_seq).
  assert (Forall (λ i, i < n) idxlist) as Hin.
  { rewrite Hperm. apply Forall_forall. intros i Hi%elem_of_seq. lia. }
  destruct (ceil_div_bounds n b Hb) as [Hcover Hstart].
  set (k := ceil_div n b) in *.
  set (chunk := λ i, take b (drop (i * b) idxlist)).
  assert (mjoin (chunk <$> seq 0 k) = idxlist) as Hjoin.
  { subst chunk. rewrite join_chunks. apply take_ge. lia. }
  rewrite range_positive by done. fold k. rewrite generate_fmap.
  set (body := λ i : nat, rbind _ _).
  assert (∀ i, i < k →
            body i = rbind (rows_at labels (chunk i))
                       (λ l, Return (selected data (chunk i), l))) as Hbody.
  { intros i Hi. subst body. cbn beta.
    rewrite <-Hn, slice_chunk by (done || (rewrite Hn; by apply Hstart)).
    fold (chunk i). rewrite rows_at_selected; [done|].
    by apply Forall_take, Forall_drop. }
  destruct (generate body (seq 0 k)) as [ys e] eqn:Hgen.
  destruct (generate_stops _ _ _ _ Hgen) as [Hys He].
  destruct e as [e|].
  - destruct He as (i & Hi & Hraise). apply lookup_seq in Hi as [-> Hi].
    rewrite Hbody in Hraise by done.
    apply rows_at_raises in Hraise as ->.
    exists ys. split; [reflexivity|exact Hi].
  - exfalso. rewrite length_seq in He.
    rewrite take_ge in Hys by (rewrite length_seq; lia).
    assert (n - 1 ∈ idxlist) as Hlast.
    { rewrite Hperm. apply elem_of_seq. lia. }
    rewrite <-Hjoin in Hlast. apply list_elem_of_join in Hlast as (c & Hlast & Hc).
    apply list_elem_of_fmap in Hc as (i & -> & Hi).
    apply list_elem_of_lookup in Hi as [j Hj].
    destruct (Forall2_lookup_l _ _ _ _ _ Hys Hj) as (y & _ & Hret).
    apply lookup_seq in Hj as [-> Hj]. simpl in Hret.
    rewrite Hbody in Hret by done.
    apply rows_at_returns in Hret.
    rewrite Forall_forall in Hret. specialize (Hret _ Hlast). lia.
Qed.
End batches.

Lemma batches_partition_the_data_witness :
  ∃ batches,
    DataLoader.iter reversal
      {| DataLoader.data := [10; 11; 12; 13; 14]%Z;
         DataLoader.labels := [true; false; true; false; true];
         DataLoader.batch_size := 2; DataLoader.shuffle := true |} = (batches, None) ∧
    length batches = 3 ∧
    mjoin ((λ p, zip p.1 p.2) <$> batches)
      ≡ₚ zip [10; 11; 12; 13; 14]%Z [true; false; true; false; true].
Proof.
  destruct (batches_partition_the_data reversal [10; 11; 12; 13; 14]%Z
              [true; false; true; false; true] 2 true)
    as (batches & Hrun & Hlen & Hperm & _); [lia|reflexivity|].
  exists batches. split; [exact Hrun|]. split; [exact Hlen|exact Hperm].
Defined.

Lemma batch_size_must_be_positive_witness :
  DataLoader.iter reversal
    {| DataLoader.data := [10; 11; 12]%Z; DataLoader.labels := [true; false; true];
       DataLoader.batch_size := 0; DataLoader.shuffle := false |}
    = ([], Some ValueError) ∧
  DataLoader.iter reversal
    {| DataLoader.data := [10; 11; 12]%Z; DataLoader.labels := [true; false; true];
       DataLoader.batch_size := -2; DataLoader.shuffle := false |}
    = ([], None).
Proof.
  split.
  - apply (batch_size_must_be_positive reversal [10; 11; 12]%Z [true; false; true] 0 false).
    lia.
  - apply (batch_size_must_be_positive reversal [10; 11; 12]%Z [true; false; true]
             (-2) false).
    lia.
Defined.

Lemma short_labels_end_in_IndexError_witness :
  ∃ batches,
    DataLoader.iter reversal
      {| DataLoader.data := [10; 11; 12]%Z; DataLoader.labels := [true; false];
         DataLoader.batch_size := 2; DataLoader.shuffle := false |}
      = (batches, Some IndexError) ∧
    length batches < 2.
Proof.
  apply (short_labels_end_in_IndexError reversal [10; 11; 12]%Z [true; false] 2 false);
    simpl; lia.
Defined.

Lemma Domain_repr_needs_a_string_name_witness :
  let d := {| shape := py_tuple [py_int 2]; domain_name := py_int 7 |} in
  Domain_init (py_tuple [py_int 2]) (py_int 7) = Return d ∧
  Domain_repr (λ _, "(2,)") d = Raise TypeError.
Proof.
  simpl. split; [reflexivity|].
  apply (Domain_repr_needs_a_string_name (λ _, "(2,)") (py_tuple [py_int 2]) (py_int 7));
    [reflexivity|discriminate].
Defined.

Lemma Variable_init_scalar_domain_witness :
  ∃ v, Variable_init "x" {| shape := py_tuple []; domain_name := py_str "reals" |}
         (Sequence [torch.mk [] [1%Z]; torch.mk [] [2%Z]; torch.mk [] [3%Z]]) = Return v ∧
       torch.shape (grounding v) = [1; 3] ∧
       torch.getitem (grounding v) 0 = Return (torch.mk [3] [1; 2; 3]%Z) ∧
       torch.getitem (grounding v) 1 ≠ Return (torch.mk [] [2%Z]).
Proof.
  destruct (Variable_init_scalar_domain "x" (py_str "reals") [1; 2; 3]%Z)
    as (_ & v & Hv & Hsh & _ & Hrow & Hrows); [reflexivity|done|].
  exists v. split; [exact Hv|]. split; [exact Hsh|]. split; [exact Hrow|].
  by apply Hrows.
Defined.
